(* ===== verification/_CoqProject ===== *)
-Q . S2P
Prelude.v
Utf8.v
PyStr.v
FastSearch.v
MaxSuffix.v
TwoWay.v
Contains.v
PyInt.v
TextIO.v
PyIO.v
Checker.v
