(* ===== verification/Prelude.v ===== *)
(** * A verification library for [checker.py] (repository jmeyerr12/omp)

    ** The program

    [src/checker.py] is an eighteen-line Python script.  Run as
    [python3 checker.py saida.txt entrada.txt], it

    - line 5: reads the whole of the file named by [sys.argv[1]], splits it
      with [str.splitlines] and keeps line 0 as the string [S];
    - lines 6-8: opens [sys.argv[2]] in a [with] block, parses its first line
      with [int] into a count [n], then reads [n] more lines with
      [readline().rstrip('\n')] into the list [arr];
    - lines 10-14: for every [s] of [arr], in order and without stopping at
      the first failure, tests [s not in S] and prints a [FALHOU] line for
      every fragment that is missing, clearing the flag [ok];
    - lines 16-18: if [ok] is still set, prints an [OK] line and
      [len(saída) = <len(S)>].

    All the behaviour of the script lives in the Python built-ins it calls,
    so the development models those built-ins as the script uses them, one
    file per part, and then the script itself on top of them:

    - [Prelude] (this file): code points and texts, the [py_scope] notations,
      the [infix_of] relation, [bytes_of], the shared list and [N] lemmas,
      the [pystr] and [pyrw] hint databases and the [py_simpl] and
      [n_divmod] tactics.
    - [Utf8]: CPython's strict UTF-8 codec: the incremental decoder
      ([Utf8.decode_one], [Utf8.utf8_decode] with its [final] flag and the
      bytes it holds back) and the encoder ([Utf8.utf8_encode]).
    - [PyStr]: the [str] methods of the script: [PyStr.contains] (what
      [in] answers), [PyStr.splitlines] (with CPython's set of line
      boundaries and CRLF as one break), [PyStr.rstrip] and
      [PyStr.first_line].
    - [FastSearch]: the reference search [find_naive] and the searches
      CPython runs for [in] on short texts: [default_find] (Bloom mask
      and skip) and [find_char].
    - [MaxSuffix]: [_lex_search] and [_factorize] of [fastsearch.h], the
      maximal suffixes for both orders of the code points and the
      critical factorization of the needle, with the combinatorics of
      words (periods, repetitions at the cut) the two-way proof needs.
    - [TwoWay]: [_preprocess] (the 64-entry table of 8-bit shifts,
      [is_periodic], [gap]), [_two_way] with its periodic branch (the
      [memory] of a matched prefix, the labels [periodicwindowloop] and
      [no_shift]) and its other branch, [_two_way_find], and
      [adaptive_find], which starts as [default_find] and hands the rest
      of a text to [_two_way_find].
    - [Contains]: [PyUnicode_Contains] with its early answers, and the
      [FASTSEARCH] dispatch over the three searches.
    - [PyInt]: [int(str)] on a [str] ([PyLong_FromUnicodeObject]: Unicode
      white space and decimal digits, sign, single underscores between
      digits, the 4300-digit limit) and [str(int)] with its own limit.
    - [TextIO]: [io.TextIOWrapper] reading a file with [newline=None]:
      chunks of 8192 bytes, the incremental decoder, the CR held back by
      the newline decoder, [readline] and [read].
    - [PyIO]: the runtime the script runs in: the exceptions it can raise,
      the world (file system of byte files, open file objects, standard
      output), a state and exception monad, [print], [sys.argv] indexing,
      [open], [read], [readline], [close] and the [with] statement.
    - [Checker]: the script itself, statement by statement, and its
      end-to-end theorems.

    ** How the parts are modelled

    The runtime state is the [PyIO.world] record: the file system (a gmap
    from paths to files of bytes), the open file objects (a gmap from
    handles to the path and a [TextIO.wrapper]: the raw bytes not yet
    read, the bytes held by the decoder, the pending CR and the decoded
    text not yet returned), the next fresh handle and the text written to
    standard output, which [PyIO.write] passes through the strict UTF-8
    encoder of the [TextIOWrapper] of [sys.stdout] ([UnicodeEncodeError]
    on a surrogate).  Every statement of the script is a value of the
    state and exception monad [PyIO.M] (a function from worlds to an
    exception or a result, and a world); [PyIO.step] is the same runtime
    as a step relation over single operations.  [TextIO.view] abstracts a
    wrapper to the text left to read; [TextIO.readline] and
    [TextIO.read_all] are proved to refine the line split and the whole of
    that text.  [Checker.read_output] is line 5, [Checker.read_fragments]
    lines 6-8, [Checker.check_loop] lines 10-14, [Checker.report] lines
    16-18 and [Checker.main] the whole script; [Checker.run] runs it from a
    world with no open file.  The script's [s not in S] is stated with
    [PyStr.contains]; [Contains.unicode_contains] is the code CPython
    runs (down to the loops of [default_find], [_two_way] and
    [adaptive_find]) and is proved to give the same answer.  The table of
    Unicode decimal digits used by [int] is the class
    [PyInt.DecimalTable], so every theorem holds for any table with
    values below 10; [PyInt.unicode_decimal_table] is the table of
    Unicode 15.0.0 (the 68 runs of ten Nd digits), the database of
    CPython 3.12, and the concrete runs use it.

    ** What is proved (by group)

    - The script (Checker): the loop refines a filter over the fragments
      (C1); on well-formed files the script ends normally with the abstract
      report, every file closed (C2); an error ends the run before any
      report, except when str(len(S)) itself raises (C3); every run closes
      every file (C4); no run raises [UnicodeEncodeError] and the whole
      standard output of every run encodes to UTF-8 (C13, from the
      invariant that open files hold well-formed wrappers, so that every
      line read has no surrogate); each exception of the script (a bad count, a missing,
      empty or undecodable output file) with its world (C8-C10, C25); the
      behaviours the specification does not state, each for every file
      system: a count of zero or less checks nothing and passes (C11),
      [S] ends at any of the ten [splitlines] boundaries, not only at a
      newline (C12), the count line may be anything [int] accepts, and
      only the first [z] lines are read, those missing read as [''] (C21),
      a byte order mark on the fragment file makes [int] fail (C27).  The
      concrete runs (the witnesses) apply these theorems to small files.
    - [str] (PyStr): [in] is the infix relation (C5); splitlines()[0] is
      the longest break-free prefix (C6) and splitlines inverts a join
      (C18); [rstrip] is characterised uniquely (C17).
    - [int]/[str] (PyInt): int(str(z)) = z under any accepted white space
      (C7); the 4300-digit limit of both directions (C19, C20).
    - The runtime (PyIO): invariants of every reachable world of [step] by
      rule induction: handles, well-formed wrappers, a file system never
      written, standard output that only grows and stays encodable (C14); [readline] returns the lines then [''] forever
      (C15); universal newlines on CR LF lines (C16); the comprehension
      of line 8 reaches the end of any file that decodes once it makes at
      least as many calls as the file has characters (C31).
    - Text files (TextIO, Utf8): [readline] refines the line split of the
      text left (C22) and always ends (C23); a [read] after a [readline]
      returns the rest (C26); decoding and encoding UTF-8 are inverse on
      valid code points (C24); every line [readline] returns is made of
      [str] code points, with no surrogate, and the wrapper keeps that
      invariant with at most three bytes held by the decoder (C30).
    - The search behind [in] (FastSearch, MaxSuffix, TwoWay, Contains):
      [default_find] returns the first match (C28); [PyUnicode_Contains]
      with the whole dispatch answers [PyStr.contains] (C29), and
      [STRINGLIB(find)] returns the first index of the needle (C38);
      [_lex_search] returns the maximal suffix and its smallest period
      (C32), so the cut of [_factorize] is critical (C33, the
      critical factorization theorem); [_two_way_find] returns the first
      match for every needle (C34), and so does [adaptive_find] when it
      switches to it (C35); the shift table fits its 8-bit entries
      (C36); the period [_preprocess] uses is exact for a periodic needle
      and a lower bound otherwise (C37).  The proof of C34 is the
      Crochemore–Perrin argument: every shift the code takes skips only
      windows that cannot match ([TwoWay.right_shift_safe], the [gap]
      and table skips, [TwoWay.mem_jump_safe]), by induction on the fuel
      with the invariant [TwoWay.none_before].

    ** Fuel and bounds

    [PyInt.digits_fuel] recurses on fuel; [PyInt.decimal_digits] gives it
    [S (log2 n)] steps, which [PyInt.log2_fuel_enough] proves enough since
    [n < 2 ^ (log2 n + 1) <= 10 ^ (log2 n + 1)].  [Utf8.utf8_decode] gives
    [Utf8.decode_loop] the length of its input as fuel: every round
    consumes at least one byte.  [TextIO.readline] gives its loop
    [S (TextIO.measure w)], the bytes and characters left plus one: every
    round but the last consumes a chunk or returns (C23).
    [FastSearch.default_find] and [TwoWay.adaptive_find] give their loop
    [S (length s)] rounds: every round moves the position forward.
    [MaxSuffix.lex_search] gives its loop [3 m] rounds: the sum
    [ms + cand + k] grows in every round and stays below [2 m]
    ([MaxSuffix.lex_loop_spec] takes [2 m <= fuel + ms + cand + k]).
    [TwoWay.two_way] gives the Horspool loop [S n] rounds (each moves the
    window), the branch for a needle that is not periodic [S n] rounds
    and the periodic branch [2 n + 3]: a [no_shift] round may keep the
    window and only then costs one round of [periodicwindowloop], so
    [2 (n - window_last) + 1] rounds suffice ([TwoWay.periodic_spec]).  The loops of the script
    ([repeat_m n]) are structural on the count.  Integers are Python
    integers (unbounded [Z] or [N]); the bounds are CPython's
    [int_max_str_digits] (4300), the chunk size 8192, the 64-bit Bloom
    mask and the 8-bit shifts of the two-way table ([MAX_SHIFT] 255).

    ** Not modelled

    Locale encodings other than UTF-8: the files are decoded and standard
    output encoded with UTF-8 and the strict handler, as under a UTF-8
    locale (in the C locale CPython coerces to UTF-8 but gives standard
    output the [surrogateescape] handler, which differs from [strict]
    only on surrogates, and C13 shows none is ever printed); a locale
    with another codec (Latin-1, ASCII without coercion) is not
    modelled.  The state of a file object after a decoding error (the
    script stops there).  The [memchr] call [find_char] makes on long
    texts (its loop stands for it, with the same index).  The traceback
    printed on standard error when the script raises: the model ends
    with the exception value and the exit status.  Its last line quotes
    the input with [repr] ([invalid literal for int() with base 10:
    '...'], [No such file or directory: '...']), and [repr] escapes
    exactly the code points that are not printable in the sense of
    [str.isprintable], a property of the whole Unicode database
    (categories C and Z) that the development does not hold; the
    position in the message of [UnicodeDecodeError] is not tracked by
    the decoder either.
*)

From Stdlib Require Import NArith ZArith.
From stdpp Require Export base list options.
From stdpp Require Export strings.

(** ** Code points and texts *)

(** A Python [str] is a sequence of Unicode code points; a text is the list
    of them. *)
Abbreviation char := N (only parsing).
Abbreviation text := (list N) (only parsing).

Declare Scope py_scope.
Delimit Scope py_scope with py.

(** Code points the script and the built-ins it calls name. *)
Definition LF : N := 10.
Definition CR : N := 13.
Definition SP : N := 32.
Definition UNDERSCORE : N := 95.
Definition PLUS : N := 43.
Definition MINUS : N := 45.
Definition DIGIT0 : N := 48.

(** An ASCII string literal as a text, to write concrete inputs. *)
Fixpoint of_string (s : string) : text :=
  match s with
  | EmptyString => []
  | String a s' => Ascii.N_of_ascii a :: of_string s'
  end.

Notation "⟪ s ⟫" := (of_string s%string) (format "⟪ s ⟫") : py_scope.
Open Scope py_scope.

(** Bytes written as their values, to write the contents of files. *)
Definition bytes_of (l : list N) : list Byte.byte := (λ n, default Byte.x00 (Byte.of_N n)) <$> l.

(** ** Infix (contiguous substring) *)

Definition infix_of {A} (n h : list A) : Prop := ∃ l r, h = l ++ n ++ r.

Section Infix.
Context {A : Type}.
Implicit Types n h l r : list A.

Lemma infix_of_nil h : infix_of [] h.
Proof. exists [], h. done. Qed.

Lemma infix_of_refl h : infix_of h h.
Proof. exists [], []. by rewrite app_nil_r. Qed.

Lemma infix_of_prefix n h : n `prefix_of` h → infix_of n h.
Proof. intros [r ->]. by exists [], r. Qed.

Lemma infix_of_cons x n h : infix_of n h → infix_of n (x :: h).
Proof. intros (l & r & ->). by exists (x :: l), r. Qed.

Lemma infix_of_app_r n h k : infix_of n h → infix_of n (h ++ k).
Proof. intros (l & r & ->). exists l, (r ++ k). by rewrite !app_assoc. Qed.

Lemma infix_of_app_l n h k : infix_of n h → infix_of n (k ++ h).
Proof. intros (l & r & ->). exists (k ++ l), r. by rewrite !app_assoc. Qed.

(** The case split that the naive search follows: an infix of [x :: h] is
    a prefix of it or an infix of [h]. *)
Lemma infix_of_cons_inv x n h :
  infix_of n (x :: h) → n `prefix_of` x :: h ∨ infix_of n h.
Proof.
  intros ([|y l] & r & Hh); simpl in Hh.
  - left. by exists r.
  - right. injection Hh as -> ->. by exists l, r.
Qed.

Lemma infix_of_nil_inv n : infix_of n [] → n = [].
Proof. intros (l & r & Hh). symmetry in Hh. by apply app_nil in Hh as [_ [? _]%app_nil]. Qed.

Lemma infix_of_length n h : infix_of n h → length n ≤ length h.
Proof. intros (l & r & ->). rewrite !length_app. lia. Qed.
End Infix.

(** ** Shared lemmas on lists *)

Lemma of_string_app s1 s2 :
  of_string (s1 ++ s2)%string = of_string s1 ++ of_string s2.
Proof. induction s1; simpl; f_equal; auto. Qed.

Lemma Forall_snoc {A} (P : A → Prop) l x :
  Forall P (l ++ [x]) ↔ Forall P l ∧ P x.
Proof. rewrite Forall_app, Forall_singleton. done. Qed.

(** ** Shared lemmas on bits *)

(** [h | b] is [h + b] when the bits of [b] are below those of [h]. *)
Lemma lor_high_low (h b k : N) :
  (h mod 2 ^ k = 0)%N → (b < 2 ^ k)%N → N.lor h b = (h + b)%N.
Proof.
  intros Hh Hb. assert (Hand : N.land h b = 0%N).
  { apply N.bits_inj_0. intros n. rewrite N.land_spec. destruct (N.lt_ge_cases n k).
    - by rewrite <- N.mod_pow2_bits_low with (n := k), Hh, N.bits_0 by done.
    - rewrite <- (N.mod_small b (2 ^ k)) by done. rewrite N.mod_pow2_bits_high by lia.
      apply andb_false_r. }
  by rewrite <- N.lxor_lor, N.add_nocarry_lxor.
Qed.

(** ** Automation *)

Create HintDb pystr discriminated.
#[export] Hint Resolve infix_of_nil infix_of_refl infix_of_cons
  infix_of_app_l infix_of_app_r infix_of_prefix : pystr.
Create Rewrite HintDb pyrw.
#[export] Hint Rewrite @length_app @length_cons @app_nil_r @of_string_app : pyrw.

(** Unfold the boolean tests that the models are written with. *)
Ltac py_simpl :=
  repeat first
    [ progress simpl in *
    | progress autorewrite with pyrw in *
    | rewrite bool_decide_eq_true in *
    | rewrite bool_decide_eq_false in * ].

(** Name every [x / d] and [x mod d] of the goal and the context by a
    quotient and a remainder with their defining equations, so that [lia]
    works on linear facts only (bytes and code points are split by
    constant divisors). *)
Ltac n_divmod_one x d :=
  let q := fresh "q" in let r := fresh "r" in
  pose proof (N.div_mod x d ltac:(lia)); pose proof (N.mod_lt x d ltac:(lia));
  set (q := (x / d)%N) in *; set (r := (x mod d)%N) in *; clearbody q r.

Ltac n_divmod :=
  repeat match goal with
  | |- context [(?x / ?d)%N] => n_divmod_one x d
  | |- context [(?x mod ?d)%N] => n_divmod_one x d
  | H : context [(?x / ?d)%N] |- _ => n_divmod_one x d
  | H : context [(?x mod ?d)%N] |- _ => n_divmod_one x d
  end.
