(* ===== verification/Utf8.v ===== *)
(** * UTF-8 as CPython's codec decodes and encodes it

    [open] in text mode decodes the bytes of the file with the locale
    encoding, UTF-8 here, and the [strict] error handler.  This file
    models [Objects/unicodeobject.c] and [Objects/stringlib/codecs.h]:
    - [decode_one] is the body of [utf8_decode] (stringlib) for one
      sequence: a code point and the number of bytes it takes, or one of
      the codes the caller switches on ([EndOfData] for an incomplete
      sequence, [InvalidStart], [InvalidContinuation k]);
    - [decode_loop] and [utf8_decode] are [unicode_decode_utf8]: the
      [final] flag says whether an incomplete sequence at the end is an
      error ("unexpected end of data") or is left for the next call, as
      the incremental decoder of [TextIOWrapper] does; [None] is
      [UnicodeDecodeError];
    - [encode_char] and [utf8_encode] are [utf8_encoder] (stringlib),
      which raises [UnicodeEncodeError] on a surrogate.
    Bytes are the values [0..255] of [Byte.byte] as [N]. *)

From S2P Require Import Prelude.
From Stdlib Require Import NArith ZArith.

Module Utf8.

(** ** Decoding *)

Definition is_cont (b : N) : bool := bool_decide (0x80 ≤ b ≤ 0xBF)%N.

Inductive outcome :=
  | Decoded (c : N) (n : nat)
  | EndOfData
  | InvalidStart
  | InvalidContinuation (k : nat).

#[export] Instance outcome_eq_dec : EqDecision outcome.
Proof. solve_decision. Defined.

(** One sequence at the start of [s]; the arithmetic is CPython's
    ([ch = (ch << 6) + ch2 - ((0xC0 << 6) + 0x80)] and so on). *)
Definition decode_one (s : list N) : outcome :=
  match s with
  | [] => EndOfData
  | ch :: r =>
      if (ch <? 0x80)%N then Decoded ch 1
      else if (ch <? 0xE0)%N then
        if (ch <? 0xC2)%N then InvalidStart
        else match r with
             | [] => EndOfData
             | ch2 :: _ =>
                 if is_cont ch2
                 then Decoded (N.shiftl ch 6 + ch2 - (N.shiftl 0xC0 6 + 0x80)) 2
                 else InvalidContinuation 1
             end
      else if (ch <? 0xF0)%N then
        match r with
        | [] => EndOfData
        | ch2 :: r2 =>
            if negb (is_cont ch2) ||
               (if (ch2 <? 0xA0)%N then (ch =? 0xE0)%N else (ch =? 0xED)%N)
            then InvalidContinuation 1
            else match r2 with
                 | [] => EndOfData
                 | ch3 :: _ =>
                     if is_cont ch3
                     then Decoded (N.shiftl ch 12 + N.shiftl ch2 6 + ch3 -
                                   (N.shiftl 0xE0 12 + N.shiftl 0x80 6 + 0x80)) 3
                     else InvalidContinuation 2
                 end
        end
      else if (ch <? 0xF5)%N then
        match r with
        | [] => EndOfData
        | ch2 :: r2 =>
            if negb (is_cont ch2) ||
               (if (ch2 <? 0x90)%N then (ch =? 0xF0)%N else (ch =? 0xF4)%N)
            then InvalidContinuation 1
            else match r2 with
                 | [] => EndOfData
                 | ch3 :: r3 =>
                     if negb (is_cont ch3) then InvalidContinuation 2
                     else match r3 with
                          | [] => EndOfData
                          | ch4 :: _ =>
                              if is_cont ch4
                              then Decoded (N.shiftl ch 18 + N.shiftl ch2 12 + N.shiftl ch3 6 + ch4 -
                                            (N.shiftl 0xF0 18 + N.shiftl 0x80 12 +
                                             N.shiftl 0x80 6 + 0x80)) 4
                              else InvalidContinuation 3
                          end
                 end
        end
      else InvalidStart
  end.

(** The case of [unicode_decode_utf8] that is not an error when more
    input may follow: the first two bytes [ED A0..BF] of a surrogate. *)
Definition truncated_surrogate (s : list N) : bool :=
  match s with
  | [ch; ch2] => (ch =? 0xED)%N && bool_decide (0xA0 ≤ ch2 ≤ 0xBF)%N
  | _ => false
  end.

Fixpoint decode_loop (fuel : nat) (final : bool) (s : list N) : option (text * list N) :=
  match s with
  | [] => Some ([], [])
  | _ :: _ =>
      match fuel with
      | O => None
      | S fuel' =>
          match decode_one s with
          | Decoded c n => (λ '(cs, r), (c :: cs, r)) <$> decode_loop fuel' final (drop n s)
          | EndOfData => if final then None else Some ([], s)
          | InvalidStart => None
          | InvalidContinuation k =>
              if negb final && (k =? 1) && truncated_surrogate s then Some ([], s) else None
          end
      end
  end.

(** Every sequence takes at least one byte, so [length s] rounds are
    enough ([decode_loop_fuel]). *)
Definition utf8_decode (final : bool) (s : list N) : option (text * list N) :=
  decode_loop (length s) final s.

(** ** Encoding *)


Definition is_surrogate (c : N) : bool := bool_decide (0xD800 ≤ c ≤ 0xDFFF)%N.

(** A code point of a Python [str]. *)
Definition py_char (c : N) : Prop := (c < 0x110000)%N.

(** A code point the strict codec can produce: below [0x110000] and not
    a surrogate. *)
Definition str_char (c : N) : Prop := py_char c ∧ is_surrogate c = false.

Definition encode_char (ch : N) : option (list N) :=
  if (ch <? 0x80)%N then Some [ch]
  else if (ch <? 0x800)%N then
    Some [N.lor 0xC0 (N.shiftr ch 6); N.lor 0x80 (N.land ch 0x3F)]
  else if is_surrogate ch then None
  else if (ch <? 0x10000)%N then
    Some [N.lor 0xE0 (N.shiftr ch 12); N.lor 0x80 (N.land (N.shiftr ch 6) 0x3F);
          N.lor 0x80 (N.land ch 0x3F)]
  else
    Some [N.lor 0xF0 (N.shiftr ch 18); N.lor 0x80 (N.land (N.shiftr ch 12) 0x3F);
          N.lor 0x80 (N.land (N.shiftr ch 6) 0x3F); N.lor 0x80 (N.land ch 0x3F)].

Definition utf8_encode (t : text) : option (list N) := concat (A:=N) <$> mapM encode_char t.

(** A text the strict encoder accepts: no surrogate. *)
Definition encodable (t : text) : Prop := Forall (λ c, is_surrogate c = false) t.

(** ** The decoder, one sequence at a time *)

(** Case analysis on the tests of [decode_one]. *)
Ltac decode_cases :=
  unfold is_cont in *;
  repeat first
    [ progress simplify_eq/=
    | match goal with
      | |- context [(?a <? ?b)%N] => destruct (N.ltb_spec a b)
      | H : context [(?a <? ?b)%N] |- _ => destruct (N.ltb_spec a b)
      | |- context [(?a =? ?b)%N] => destruct (N.eqb_spec a b)
      | H : context [(?a =? ?b)%N] |- _ => destruct (N.eqb_spec a b)
      | |- context [bool_decide _] => case_bool_decide
      | H : context [bool_decide _] |- _ => case_bool_decide
      | H : context [match ?r with [] => _ | _ :: _ => _ end] |- _ => destruct r
      end ].

Lemma decode_one_length s c n : decode_one s = Decoded c n → 1 ≤ n ≤ length s.
Proof. destruct s as [|ch r]; [done|]. unfold decode_one. intros H. decode_cases; lia. Qed.

(** The decoder waits for more bytes only on an incomplete sequence of
    at most three bytes. *)
Lemma decode_one_end_length s : decode_one s = EndOfData → length s ≤ 3.
Proof.
  destruct s as [|ch [|ch2 [|ch3 [|ch4 r]]]]; cbn [length]; try lia;
    unfold decode_one; intros H; decode_cases.
Qed.

(** A sequence that is complete or wrong stays so whatever follows. *)
Lemma decode_one_app s b : decode_one s ≠ EndOfData → decode_one (s ++ b) = decode_one s.
Proof.
  destruct s as [|ch r]; [done|]. unfold decode_one. cbn [app].
  destruct r as [|ch2 [|ch3 [|ch4 r]]]; cbn [app]; intros H; decode_cases; done.
Qed.

(** ** The decoding loop *)

Lemma decode_loop_mono fuel fuel' f s :
  length s ≤ fuel → fuel ≤ fuel' → decode_loop fuel' f s = decode_loop fuel f s.
Proof.
  revert fuel' s. induction fuel as [|k IH]; intros fuel' [|ch r] Hs Hf;
    destruct fuel' as [|k']; simpl in Hs; try done; try lia.
  cbn [decode_loop].
  destruct (decode_one (ch :: r)) as [c n| | |] eqn:E; try done.
  apply decode_one_length in E. rewrite IH; [done| |lia]. rewrite length_drop. simpl in *. lia.
Qed.

(** The loop, one sequence at a time. *)
Lemma utf8_decode_unfold f s :
  s ≠ [] →
  utf8_decode f s =
  match decode_one s with
  | Decoded c n => (λ '(cs, r), (c :: cs, r)) <$> utf8_decode f (drop n s)
  | EndOfData => if f then None else Some ([], s)
  | InvalidStart => None
  | InvalidContinuation k => if negb f && (k =? 1) && truncated_surrogate s then Some ([], s) else None
  end.
Proof.
  destruct s as [|ch r]; [done|]. intros _. unfold utf8_decode at 1. cbn [length decode_loop].
  destruct (decode_one (ch :: r)) as [c n| | |] eqn:E; try done.
  apply decode_one_length in E. unfold utf8_decode.
  rewrite (decode_loop_mono (length (drop n (ch :: r)))); [done..|].
  rewrite length_drop. simpl in *. lia.
Qed.

Lemma utf8_decode_nil f : utf8_decode f [] = Some ([], []).
Proof. done. Qed.

(** The deferred surrogate case is about the last two bytes: it does not
    appear by appending bytes. *)
Lemma truncated_surrogate_prefix s b k :
  decode_one s = InvalidContinuation k →
  truncated_surrogate (s ++ b) = true → truncated_surrogate s = true.
Proof.
  destruct s as [|x [|y [|z s]]]; try done.
  - unfold decode_one. intros H. decode_cases.
  - by destruct b.
Qed.

Lemma truncated_surrogate_length s : truncated_surrogate s = true → length s = 2.
Proof. by destruct s as [|x [|y [|z s]]]. Qed.

(** Decoding in two calls, the first with [final] unset as the
    incremental decoder does, gives what one call on all the bytes
    gives. *)
Lemma utf8_decode_app f a b :
  utf8_decode f (a ++ b) =
  utf8_decode false a ≫= λ '(cs, p), (λ '(cs2, r), (cs ++ cs2, r)) <$> utf8_decode f (p ++ b).
Proof.
  induction a as [a IH] using (induction_ltof1 _ (@length _)); unfold ltof in IH.
  destruct a as [|ch r].
  { simpl. by destruct (utf8_decode f b) as [[]|]. }
  set (a := ch :: r) in *. assert (Ha : a ≠ []) by done.
  assert (Hab : a ++ b ≠ []) by done. clearbody a.
  rewrite (utf8_decode_unfold false a Ha).
  destruct (decode_one a) as [c n| | |k] eqn:E; cbn -[app utf8_decode].
  - rewrite (utf8_decode_unfold f _ Hab), decode_one_app, E by congruence.
    apply decode_one_length in E.
    rewrite drop_app_le by lia. rewrite IH by (rewrite length_drop; lia).
    destruct (utf8_decode false (drop n a)) as [[cs p]|]; simpl; [|done].
    by destruct (utf8_decode f (p ++ b)) as [[]|].
  - by destruct (utf8_decode f (a ++ b)) as [[]|].
  - by rewrite (utf8_decode_unfold f _ Hab), decode_one_app, E by congruence.
  - destruct (truncated_surrogate a) eqn:Ht; rewrite ?andb_true_r, ?andb_false_r; simpl.
    + destruct (k =? 1) eqn:Hk; simpl; [by destruct (utf8_decode f (a ++ b)) as [[]|]|].
      rewrite (utf8_decode_unfold f _ Hab), decode_one_app, E by congruence.
      by rewrite Hk, andb_false_r.
    + rewrite (utf8_decode_unfold f _ Hab), decode_one_app, E by congruence.
      destruct (truncated_surrogate (a ++ b)) eqn:Htb.
      * by rewrite (truncated_surrogate_prefix _ _ _ E Htb) in Ht.
      * by rewrite andb_false_r.
Qed.

(** ** Bytes as numbers *)

(** The shifts and masks of the codec as multiplications, divisions and
    remainders. *)
Lemma shiftl_6 x : N.shiftl x 6 = (x * 64)%N.
Proof. apply N.shiftl_mul_pow2. Qed.
Lemma shiftl_12 x : N.shiftl x 12 = (x * 4096)%N.
Proof. apply N.shiftl_mul_pow2. Qed.
Lemma shiftl_18 x : N.shiftl x 18 = (x * 262144)%N.
Proof. apply N.shiftl_mul_pow2. Qed.
Lemma shiftr_6 x : N.shiftr x 6 = (x / 64)%N.
Proof. apply N.shiftr_div_pow2. Qed.
Lemma shiftr_12 x : N.shiftr x 12 = (x / 64 / 64)%N.
Proof. rewrite N.shiftr_div_pow2, N.Div0.div_div; done. Qed.
Lemma shiftr_18 x : N.shiftr x 18 = (x / 64 / 64 / 64)%N.
Proof. rewrite N.shiftr_div_pow2, !N.Div0.div_div; done. Qed.
Lemma land_3F x : N.land x 0x3F = (x mod 64)%N.
Proof. apply (N.land_ones x 6). Qed.

Lemma lor_80 x : (x < 64)%N → N.lor 0x80 x = (0x80 + x)%N.
Proof. by apply (lor_high_low _ _ 6). Qed.
Lemma lor_C0 x : (x < 64)%N → N.lor 0xC0 x = (0xC0 + x)%N.
Proof. by apply (lor_high_low _ _ 6). Qed.
Lemma lor_E0 x : (x < 16)%N → N.lor 0xE0 x = (0xE0 + x)%N.
Proof. by apply (lor_high_low _ _ 4). Qed.
Lemma lor_F0 x : (x < 8)%N → N.lor 0xF0 x = (0xF0 + x)%N.
Proof. by apply (lor_high_low _ _ 3). Qed.

Create Rewrite HintDb utf8_arith.
#[export] Hint Rewrite shiftl_6 shiftl_12 shiftl_18 shiftr_6 shiftr_12 shiftr_18 land_3F : utf8_arith.

(** Close an arithmetic goal on bytes, or refute the branch it is in. *)
Ltac utf8_lia :=
  autorewrite with utf8_arith in *; cbn [firstn] in *; n_divmod;
  first [lia | repeat f_equal; lia | exfalso; lia].

(** [encode_char] in arithmetic form. *)
Lemma encode_char_arith c :
  py_char c →
  encode_char c =
  if (c <? 0x80)%N then Some [c]
  else if (c <? 0x800)%N then Some [0xC0 + c / 64; 0x80 + c mod 64]%N
  else if is_surrogate c then None
  else if (c <? 0x10000)%N then Some [0xE0 + c / 64 / 64; 0x80 + c / 64 mod 64; 0x80 + c mod 64]%N
  else Some [0xF0 + c / 64 / 64 / 64; 0x80 + c / 64 / 64 mod 64; 0x80 + c / 64 mod 64;
             0x80 + c mod 64]%N.
Proof.
  unfold py_char, encode_char. intros Hc. autorewrite with utf8_arith.
  destruct (N.ltb_spec c 0x80); [done|]. destruct (N.ltb_spec c 0x800).
  { rewrite lor_C0, !lor_80 by (n_divmod; lia). done. }
  destruct (is_surrogate c); [done|]. destruct (N.ltb_spec c 0x10000).
  { rewrite lor_E0, !lor_80 by (n_divmod; lia). done. }
  rewrite lor_F0, !lor_80 by (n_divmod; lia). done.
Qed.

(** The decoder reads back the bytes of a code point. *)
Lemma decode_encode_char c bs r :
  py_char c → encode_char c = Some bs → decode_one (bs ++ r) = Decoded c (length bs).
Proof.
  intros Hc Henc. rewrite encode_char_arith in Henc by done. unfold py_char, is_surrogate in *.
  decode_cases; cbn [app length]; unfold decode_one; decode_cases; utf8_lia.
Qed.

(** What the decoder reads is a code point of a [str] that is not a
    surrogate, whose encoding is the bytes read. *)
Lemma encode_decode_one s c n :
  decode_one s = Decoded c n →
  py_char c ∧ is_surrogate c = false ∧ encode_char c = Some (take n s).
Proof.
  destruct s as [|ch r]; [done|]. unfold decode_one. intros Hd.
  decode_cases; autorewrite with utf8_arith; unfold is_surrogate;
    (split_and!; [unfold py_char; lia | apply bool_decide_eq_false_2; lia |]);
    rewrite encode_char_arith by (unfold py_char; lia); unfold is_surrogate; decode_cases; utf8_lia.
Qed.

Lemma utf8_encode_cons c t :
  utf8_encode (c :: t) = bc ← encode_char c; (λ bt, bc ++ bt) <$> utf8_encode t.
Proof.
  unfold utf8_encode. simpl. destruct (encode_char c); [|done]. simpl.
  by destruct (mapM encode_char t).
Qed.

Lemma encode_char_not_nil c bs : encode_char c = Some bs → bs ≠ [].
Proof. unfold encode_char. by repeat case_match; intros [= <-]. Qed.

(** Decoding the encoding of [t] followed by more bytes: [t], then what
    the bytes that follow give. *)
Lemma utf8_decode_encode_app f t bs r :
  Forall py_char t → utf8_encode t = Some bs →
  utf8_decode f (bs ++ r) = (λ '(cs, r'), (t ++ cs, r')) <$> utf8_decode f r.
Proof.
  intros Ht. revert bs. induction Ht as [|c t Hc Ht IH]; intros bs Henc.
  { injection Henc as <-. simpl. by destruct (utf8_decode f r) as [[]|]. }
  rewrite utf8_encode_cons in Henc.
  destruct (encode_char c) as [bc|] eqn:Ec; [|done]. simpl in Henc.
  destruct (utf8_encode t) as [bt|]; simplify_eq/=.
  pose proof (encode_char_not_nil _ _ Ec) as Hbc.
  rewrite utf8_decode_unfold by (by destruct bc).
  rewrite <- app_assoc, (decode_encode_char c bc) by done.
  rewrite drop_app_length, IH by done.
  by destruct (utf8_decode f r) as [[]|].
Qed.

(** What a decoding returns: code points of a [str], whose encoding is
    the bytes read, and at most three bytes held back, none when
    [final]. *)
Lemma utf8_decode_shape f bs t r :
  utf8_decode f bs = Some (t, r) →
  Forall str_char t ∧ (∃ bt, utf8_encode t = Some bt ∧ bs = bt ++ r) ∧
  length r ≤ 3 ∧ (f = true → r = []).
Proof.
  revert t. induction bs as [bs IH] using (induction_ltof1 _ (@length _)); unfold ltof in IH.
  intros t. destruct bs as [|ch s]; [intros [= <- <-]; split_and!; by eauto|].
  rewrite utf8_decode_unfold by done.
  destruct (decode_one (ch :: s)) as [c n| | |k] eqn:E.
  - destruct (utf8_decode f (drop n (ch :: s))) as [[cs r']|] eqn:Ed; [|done].
    intros [= <- <-]. pose proof (decode_one_length _ _ _ E) as Hn.
    apply IH in Ed as (Hcs & (bt & Henc & Hbt) & Hr & Hf); [|rewrite length_drop; lia].
    apply encode_decode_one in E as (Hc & Hs & Ec).
    split_and!; [by constructor | | done | done].
    eexists. rewrite utf8_encode_cons, Ec. simpl. rewrite Henc. split; [done|].
    by rewrite <- app_assoc, <- Hbt, take_drop.
  - apply decode_one_end_length in E. destruct f; intros; simplify_eq.
    split_and!; [done | by exists [] | done | done].
  - done.
  - destruct f; [done|]. cbn [negb andb].
    destruct (_ && _) eqn:Ht; [|done]. apply andb_true_iff in Ht as [_ Ht].
    apply truncated_surrogate_length in Ht. intros; simplify_eq.
    split_and!; [done | by exists [] | lia | done].
Qed.

(** A final decoding consumes every byte, and what it reads are code
    points of a [str] whose encoding is the bytes. *)
Lemma utf8_decode_final bs t r :
  utf8_decode true bs = Some (t, r) → r = [] ∧ Forall py_char t ∧ utf8_encode t = Some bs.
Proof.
  intros (Ht & (bt & Henc & ->) & _ & Hr)%utf8_decode_shape. rewrite Hr, app_nil_r by done.
  split_and!; [done | | done]. eapply Forall_impl; [done|]. by intros c [].
Qed.

(** A byte that no well-formed sequence holds stops an incomplete
    sequence before it with an invalid continuation. *)
Lemma decode_one_never_byte a x b :
  (0xC0 ≤ x ≤ 0xC1 ∨ 0xF5 ≤ x)%N → a ≠ [] → decode_one a = EndOfData →
  ∃ k, decode_one (a ++ x :: b) = InvalidContinuation k ∧ truncated_surrogate (a ++ x :: b) = false.
Proof.
  intros Hx Ha. destruct a as [|ch [|ch2 [|ch3 [|ch4 r]]]]; try done; cbn [app];
    unfold decode_one, truncated_surrogate; intros H; decode_cases;
    try (eexists; split; [reflexivity|]); decode_cases; try lia; by destruct b.
Qed.

(** The bytes [C0], [C1] and [F5]..[FF] never occur in UTF-8: a
    decoding, final or not, of bytes that hold one raises
    [UnicodeDecodeError], wherever it is. *)
Theorem utf8_never_byte f a x b :
  (0xC0 ≤ x ≤ 0xC1 ∨ 0xF5 ≤ x)%N → utf8_decode f (a ++ x :: b) = None.
Proof.
  intros Hx. induction a as [a IH] using (induction_ltof1 _ (@length _)); unfold ltof in IH.
  assert (Hab : a ++ x :: b ≠ []) by (by destruct a).
  rewrite utf8_decode_unfold by done.
  destruct a as [|ch r].
  { cbn [app]. unfold decode_one. decode_cases; try done; lia. }
  set (a := ch :: r) in *. assert (Ha : a ≠ []) by done. clearbody a.
  destruct (decide (decode_one a = EndOfData)) as [Hend|Hend].
  { destruct (decode_one_never_byte a x b Hx Ha Hend) as (k & -> & ->).
    by rewrite andb_false_r. }
  rewrite decode_one_app by done.
  destruct (decode_one a) as [c n| | |k] eqn:E; try done.
  - apply decode_one_length in E. rewrite drop_app_le, IH by (rewrite ?length_drop; lia). done.
  - destruct (truncated_surrogate (a ++ x :: b)) eqn:Ht; [|by rewrite andb_false_r].
    pose proof (truncated_surrogate_length _ (truncated_surrogate_prefix _ _ _ E Ht)).
    apply truncated_surrogate_length in Ht. rewrite length_app in Ht. simpl in Ht. lia.
Qed.

(** ** The encoder *)

Lemma encode_char_is_Some c : is_Some (encode_char c) ↔ is_surrogate c = false.
Proof.
  unfold encode_char, is_surrogate.
  destruct (N.ltb_spec c 0x80); [rewrite bool_decide_eq_false_2 by lia; by split; [|eexists]|].
  destruct (N.ltb_spec c 0x800); [rewrite bool_decide_eq_false_2 by lia; by split; [|eexists]|].
  case_bool_decide; [split; [by intros [] | done]|]. by case_match; split; [| eexists | | eexists].
Qed.

Lemma utf8_encode_app a b :
  utf8_encode (a ++ b) = ba ← utf8_encode a; (λ bb, ba ++ bb) <$> utf8_encode b.
Proof.
  induction a as [|c a IH]; simpl.
  - by destruct (utf8_encode b).
  - rewrite !utf8_encode_cons, IH. destruct (encode_char c); [|done]. simpl.
    destruct (utf8_encode a), (utf8_encode b); simpl; by rewrite ?app_assoc.
Qed.

(** The strict encoder succeeds exactly on the texts without a
    surrogate. *)
Lemma utf8_encode_is_Some t : is_Some (utf8_encode t) ↔ encodable t.
Proof.
  unfold encodable. induction t as [|c t IH]; [split; [constructor | by eexists]|].
  rewrite utf8_encode_cons, Forall_cons, <- IH, <- encode_char_is_Some.
  destruct (encode_char c), (utf8_encode t); simpl; split; try (by intros []); by eauto.
Qed.

Lemma encodable_app a b : encodable (a ++ b) ↔ encodable a ∧ encodable b.
Proof. apply Forall_app. Qed.

Lemma str_char_encodable t : Forall str_char t → encodable t.
Proof. intros Ht. eapply Forall_impl; [exact Ht|]. by intros c []. Qed.

#[export] Hint Resolve str_char_encodable : core.

(** ** Properties *)

(** C24: UTF-8 round trip: a final decoding of the bytes [bs] succeeds
    with the text [t] exactly when [t] is made of code points of a Python
    [str] and encoding [t] gives back [bs] (so no surrogate and no
    overlong form is ever decoded). *)
Theorem utf8_roundtrip bs t :
  utf8_decode true bs = Some (t, []) ↔ Forall py_char t ∧ utf8_encode t = Some bs.
Proof.
  split; [by intros (_ & ? & ?)%utf8_decode_final|].
  intros [Ht Henc]. rewrite <- (app_nil_r bs), (utf8_decode_encode_app true t bs [] Ht Henc).
  simpl. by rewrite app_nil_r.
Qed.

End Utf8.
