(* ===== verification/PyStr.v ===== *)
(** * The [str] operations of [checker.py]

    The script uses three methods of Python's [str] type, each modelled on
    texts (lists of code points) by a structural [Fixpoint]:
    - [contains S s] is the answer of [s in S] (line 12), as the naive
      search at every position; [FastSearch] translates the search CPython
      runs ([PyUnicode_Contains]) and proves that it answers [contains];
    - [splitlines] is [str.splitlines()] (line 5), with CPython's set of line
      boundaries [is_linebreak] and CR LF read as one break;
    - [rstrip chars s] is [s.rstrip(chars)] (line 8).
    The theorems give each its specification: [contains] decides the infix
    relation, line 0 of [splitlines] is [first_line], [splitlines] inverts
    the joining of break-free lines, and [rstrip] removes exactly the
    longest trailing run of [chars]. *)

From S2P Require Import Prelude.

Module PyStr.

(** ** Containment: [sub in s] *)

(** [s.startswith(p)]: the prefix test CPython's search runs at each
    candidate position. *)
Fixpoint startswith (s p : text) : bool :=
  match p, s with
  | [], _ => true
  | c :: p', d :: s' => bool_decide (c = d) && startswith s' p'
  | _ :: _, [] => false
  end.

(** [sub in s]: is there a position of [s] at which [sub] starts?  The
    empty [sub] is found at position 0 of every [s], the empty one
    included. *)
Fixpoint contains (s sub : text) : bool :=
  startswith s sub ||
  match s with
  | [] => false
  | _ :: s' => contains s' sub
  end.

(** ** Line boundaries and [splitlines] *)

(** [Py_UNICODE_ISLINEBREAK]: LF, VT, FF, CR, FS, GS, RS, NEL, LINE
    SEPARATOR and PARAGRAPH SEPARATOR. *)
Definition linebreak_chars : list char :=
  [10; 11; 12; 13; 28; 29; 30; 133; 8232; 8233]%N.

Definition is_linebreak (c : char) : bool := bool_decide (c ∈ linebreak_chars).

(** [str.splitlines()] without [keepends]: each line ends at a line
    boundary, CR LF counts as one boundary, and a final boundary does not
    open an empty last line. *)
Fixpoint splitlines (s : text) : list text :=
  match s with
  | [] => []
  | c :: s' =>
      if is_linebreak c then
        [] :: (if bool_decide (c = CR) then
                 match s' with
                 | d :: s'' => if bool_decide (d = LF) then splitlines s'' else splitlines s'
                 | [] => []
                 end
               else splitlines s')
      else
        match splitlines s' with
        | [] => [[c]]
        | l :: ls => (c :: l) :: ls
        end
  end.

(** The text before the first line boundary. *)
Fixpoint first_line (s : text) : text :=
  match s with
  | [] => []
  | c :: s' => if is_linebreak c then [] else c :: first_line s'
  end.

Definition no_break (l : text) : Prop := Forall (λ c, is_linebreak c = false) l.

(** ** [rstrip] *)

(** [s.rstrip(chars)]: drop the longest suffix of [s] made of code points
    of [chars] ([_PyUnicode_XStrip] with [RIGHTSTRIP]). *)
Fixpoint rstrip (chars : list char) (s : text) : text :=
  match s with
  | [] => []
  | c :: s' =>
      match rstrip chars s' with
      | [] => if bool_decide (c ∈ chars) then [] else [c]
      | r => c :: r
      end
  end.

(** ** Containment decides the infix relation *)

Lemma startswith_spec s p : startswith s p = true ↔ p `prefix_of` s.
Proof.
  revert s; induction p as [|c p IH]; intros [|d s]; simpl.
  - split; [intros _; apply prefix_nil | done].
  - split; [intros _; apply prefix_nil | done].
  - split; [done | intros H; by apply prefix_nil_not in H].
  - rewrite andb_true_iff, bool_decide_eq_true, IH. split.
    + intros [-> ?]. by apply prefix_cons.
    + intros H. split; [by apply prefix_cons_inv_1 in H | by apply prefix_cons_inv_2 in H].
Qed.

(** The search is equivalent to the relation. *)
Lemma contains_spec s sub : contains s sub = true ↔ infix_of sub s.
Proof.
  induction s as [|x s IH].
  - change (contains [] sub) with (startswith [] sub || false).
    rewrite orb_false_r, startswith_spec. split.
    + intros ->%prefix_nil_inv. apply infix_of_nil.
    + intros ->%infix_of_nil_inv. apply prefix_nil.
  - change (contains (x :: s) sub) with (startswith (x :: s) sub || contains s sub).
    rewrite orb_true_iff, startswith_spec, IH. split.
    + intros [? | ?]; eauto with pystr.
    + apply infix_of_cons_inv.
Qed.

(** [contains] decides [infix_of]: the [Decision] instance that lets
    [decide] and [bool_decide] run the search. *)
#[export] Instance infix_of_dec (n h : text) : Decision (infix_of n h).
Proof.
  destruct (contains h n) eqn:E; [left | right];
    rewrite <- contains_spec; congruence.
Defined.

Lemma contains_false s sub : contains s sub = false ↔ ¬ infix_of sub s.
Proof. rewrite <- contains_spec. destruct (contains s sub); intuition congruence. Qed.

Lemma contains_nil s : contains s [] = true.
Proof. apply contains_spec, infix_of_nil. Qed.

Lemma contains_refl s : contains s s = true.
Proof. apply contains_spec, infix_of_refl. Qed.


(** ** Line 0 of [splitlines] *)

Lemma first_line_cons_break c s : is_linebreak c = true → first_line (c :: s) = [].
Proof. simpl. by intros ->. Qed.

Lemma splitlines_nil_iff s : splitlines s = [] ↔ s = [].
Proof.
  split; [|by intros ->].
  destruct s as [|c s]; [done|]. simpl.
  destruct (is_linebreak c); [done|]. by destruct (splitlines s).
Qed.

Lemma splitlines_cons_first s :
  s ≠ [] → ∃ ls, splitlines s = first_line s :: ls.
Proof.
  induction s as [|c s IH]; [done|]. intros _. simpl.
  destruct (is_linebreak c); [by eexists|].
  destruct s as [|d s']; [by exists []|].
  destruct IH as [ls ->]; [done|]. by exists ls.
Qed.

(** [first_line s] is a prefix of [s] free of line boundaries, followed
    either by nothing or by a line boundary. *)
Lemma first_line_spec s :
  ∃ rest, s = first_line s ++ rest ∧ no_break (first_line s) ∧
          (rest = [] ∨ ∃ c r, rest = c :: r ∧ is_linebreak c = true).
Proof.
  induction s as [|c s (rest & Hs & Hnb & Hrest)].
  - exists []. split; [done|]. split; [constructor | by left].
  - simpl. destruct (is_linebreak c) eqn:Hc.
    + exists (c :: s). split; [done|]. split; [constructor | right; eauto].
    + exists rest. split; [simpl; by f_equal|]. split; [by constructor | done].
Qed.

(** Splitting a text at a line boundary that is not CR. *)
Lemma splitlines_app_break l c rest :
  no_break l → is_linebreak c = true → c ≠ CR →
  splitlines (l ++ c :: rest) = l :: splitlines rest.
Proof.
  intros Hl Hc Hcr. induction Hl as [|x l Hx Hl IH]; simpl.
  - rewrite Hc, bool_decide_eq_false_2 by done. done.
  - rewrite Hx, IH. done.
Qed.

Lemma no_break_first_line s : no_break (first_line s).
Proof. by destruct (first_line_spec s) as (? & _ & ? & _). Qed.

(** ** [rstrip] removes exactly the trailing run of [chars] *)

Section Rstrip.
Variable chars : list char.

Lemma rstrip_all t : Forall (λ c, c ∈ chars) t → rstrip chars t = [].
Proof.
  induction 1 as [|c t Hc _ IH]; simpl; [done|].
  rewrite IH, bool_decide_eq_true_2 by done. done.
Qed.

Lemma rstrip_app_stripped l t :
  Forall (λ c, c ∈ chars) t → rstrip chars (l ++ t) = rstrip chars l.
Proof.
  intros Ht. induction l as [|c l IH]; simpl; [by apply rstrip_all|].
  by rewrite IH.
Qed.

Lemma rstrip_keep l :
  (∀ x, last l = Some x → x ∉ chars) → rstrip chars l = l.
Proof.
  induction l as [|c l IH]; intros Hlast; simpl; [done|].
  destruct l as [|d l].
  - simpl. rewrite bool_decide_eq_false_2; [done|]. by apply Hlast.
  - rewrite IH; [done|]. intros x Hx. apply Hlast. done.
Qed.

Lemma rstrip_last s x : last (rstrip chars s) = Some x → x ∉ chars.
Proof.
  induction s as [|c s IH]; simpl; [done|].
  destruct (rstrip chars s) as [|d r] eqn:E.
  - case_bool_decide; [done|]. simpl. congruence.
  - intros Hx. apply IH. done.
Qed.

Lemma rstrip_split s :
  ∃ t, s = rstrip chars s ++ t ∧ Forall (λ c, c ∈ chars) t.
Proof.
  induction s as [|c s (t & Hs & Ht)]; [by exists []|]. simpl.
  destruct (rstrip chars s) as [|d r] eqn:E; simpl in Hs; subst s.
  - case_bool_decide.
    + exists (c :: t). split; [done|]. by constructor.
    + by exists t.
  - by exists t.
Qed.
End Rstrip.

(** ** Properties *)

(** C5: [sub in s] holds exactly when [sub] occurs at some index [i] of
    [s]: the [length sub] code points of [s] from [i] on are [sub]. *)
Theorem contains_find s sub :
  contains s sub = true ↔
  ∃ i, i + length sub ≤ length s ∧ take (length sub) (drop i s) = sub.
Proof.
  rewrite contains_spec. split.
  - intros (l & r & ->). exists (length l).
    rewrite drop_app_length, take_app_length. split; [py_simpl; lia | done].
  - intros (i & Hi & Ht). exists (take i s), (drop (length sub) (drop i s)).
    rewrite <- (take_drop i s) at 1. f_equal.
    rewrite <- (take_drop (length sub) (drop i s)) at 1. by rewrite Ht.
Qed.

(** C6: line 0 of [s.splitlines()] exists exactly when [s] is not empty,
    and it is the longest prefix of [s] free of line boundaries: what
    follows it is empty or starts with a line boundary. *)
Theorem splitlines_line0 s l :
  splitlines s !! 0 = Some l ↔
  s ≠ [] ∧ no_break l ∧
  ∃ rest, s = l ++ rest ∧ (rest = [] ∨ ∃ c r, rest = c :: r ∧ is_linebreak c = true).
Proof.
  split.
  - destruct s as [|c s]; [done|]. intros H.
    destruct (splitlines_cons_first (c :: s)) as [ls Hls]; [done|].
    rewrite Hls in H. injection H as <-. split; [done|].
    destruct (first_line_spec (c :: s)) as (rest & ? & ? & ?). eauto.
  - intros (Hs & Hl & rest & -> & Hrest).
    destruct (splitlines_cons_first (l ++ rest)) as [ls ->]; [done|]. simpl. f_equal.
    clear Hs. induction Hl as [|x l Hx Hl IH]; simpl.
    + destruct Hrest as [-> | (c & r & -> & Hc)]; simpl; [done|]. by rewrite Hc.
    + by rewrite Hx, IH.
Qed.

(** C18: joining break-free lines, each followed by LF, and splitting the
    result with [splitlines] gives the lines back. *)
Theorem splitlines_join_roundtrip (ls : list text) :
  Forall no_break ls →
  splitlines (concat (map (λ l, l ++ [LF]) ls)) = ls.
Proof.
  induction 1 as [|l ls Hl _ IH]; [done|]. simpl.
  rewrite <- app_assoc. simpl. rewrite splitlines_app_break by done. by f_equal.
Qed.

Lemma splitlines_join_roundtrip_witness :
  Forall no_break [⟪"ab"⟫; ⟪"cd"⟫] ∧
  splitlines (concat (map (λ l, l ++ [LF]) [⟪"ab"⟫; ⟪"cd"⟫])) = [⟪"ab"⟫; ⟪"cd"⟫].
Proof.
  assert (H : Forall no_break [⟪"ab"⟫; ⟪"cd"⟫])
    by (apply (bool_decide_unpack _); vm_compute; reflexivity).
  split; [exact H | apply splitlines_join_roundtrip; exact H].
Defined.

(** C17: [s.rstrip(chars)] is the unique [r] such that [s] is [r] followed
    by code points of [chars] only, and [r] does not end with one of
    [chars]. *)
Theorem rstrip_spec chars s r :
  rstrip chars s = r ↔
  ∃ t, s = r ++ t ∧ Forall (λ c, c ∈ chars) t ∧ (∀ x, last r = Some x → x ∉ chars).
Proof.
  split.
  - intros <-. destruct (rstrip_split chars s) as (t & ? & ?).
    exists t. split_and!; [done | done | apply rstrip_last].
  - intros (t & -> & Ht & Hr). rewrite rstrip_app_stripped by done.
    by apply rstrip_keep.
Qed.

End PyStr.

#[export] Hint Rewrite PyStr.contains_nil PyStr.contains_refl : pyrw.
