(* ===== verification/FastSearch.v ===== *)
(** * The searches of [fastsearch.h] for short texts

    [s not in S] (line 12) is [PyUnicode_Contains], which does not run the
    naive search of [PyStr.contains] but CPython's [FASTSEARCH]
    ([Objects/stringlib/fastsearch.h]).  This file holds the reference
    and the searches the dispatch runs on short texts:
    - [find_naive]: the first index at which the needle starts, and
      [occurs_at], the specification every search is proved against;
    - [default_find]: the Horspool/Sunday search with a Bloom filter of 64
      bits ([preprocess] builds the mask and the skip [gap]; [search_loop]
      is the main loop, which reads [s[n]], the NUL that ends every
      [str] buffer, as [char_at] does);
    - [find_char]: the search of a needle of one character.
    The two-way search is in [MaxSuffix] and [TwoWay], the dispatch and
    [PyUnicode_Contains] in [Contains].  The theorems show that
    [default_find] returns the first match, as [find_naive] does; the
    lemmas of the section [Search] are shared with [TwoWay.adaptive_find],
    which runs the same loop. *)

From S2P Require Import Prelude PyStr.
From Stdlib Require Import NArith ZArith.
From stdpp Require Import sets.

Module FastSearch.

(** ** The reference *)

(** [s[k]] read from the buffer of a [str]: the code point, or the NUL
    that terminates the buffer at [k = len(s)]. *)
Definition char_at (s : text) (k : nat) : N := default 0%N (s !! k).

(** The first index at which [p] occurs in [s] (counted from [i]). *)
Fixpoint find_from (s p : text) (i : nat) : option nat :=
  if PyStr.startswith s p then Some i
  else match s with
       | [] => None
       | _ :: s' => find_from s' p (S i)
       end.

Definition find_naive (s p : text) : option nat := find_from s p 0.

(** [p] occurs in [s] at [k]. *)
Definition occurs_at (s p : text) (k : nat) : Prop := PyStr.startswith (drop k s) p = true.

(** ** [default_find] *)

(** [STRINGLIB_BLOOM_ADD] and [STRINGLIB_BLOOM] on an [unsigned long]
    of 64 bits. *)
Definition bloom_width : N := 64.

Definition bloom_add (mask ch : N) : N :=
  N.lor mask (N.shiftl 1 (N.land ch (bloom_width - 1))).

Definition bloom (mask ch : N) : bool :=
  negb (N.land mask (N.shiftl 1 (N.land ch (bloom_width - 1))) =? 0)%N.

(** The first loop of [default_find]: the mask of [p[0..m-2]], and [gap],
    the distance from the last earlier occurrence of the last character
    of [p] to its end, less one ([mlast] when there is none); then the
    last character is added to the mask. *)
Definition prep_step (p : text) (mlast : nat) (last : N) (mg : N * nat) (i : nat) : N * nat :=
  let '(mask, gap) := mg in
  (bloom_add mask (char_at p i), if bool_decide (char_at p i = last) then mlast - i - 1 else gap).

Definition preprocess (p : text) : N * nat :=
  let mlast := length p - 1 in
  let last := char_at p mlast in
  let '(mask, gap) := foldl (prep_step p mlast last) (0%N, mlast) (seq 0 mlast) in
  (bloom_add mask last, gap).

(** The main loop, from position [i]: when the last character matches,
    compare the rest ([j < mlast]); on a miss, skip past [s[i+m]] when it
    is not in the mask, else by [gap + 1] after a candidate and by 1
    otherwise. *)
Fixpoint search_loop (fuel : nat) (s p : text) (mask : N) (gap : nat) (i : nat) : option nat :=
  match fuel with
  | O => None
  | S fuel' =>
      let m := length p in
      let mlast := m - 1 in
      let w := length s - m in
      if bool_decide (w < i) then None
      else if bool_decide (char_at s (i + mlast) = char_at p mlast) then
        if forallb (λ j, bool_decide (char_at s (i + j) = char_at p j)) (seq 0 mlast) then Some i
        else if negb (bloom mask (char_at s (i + m))) then search_loop fuel' s p mask gap (i + m + 1)
        else search_loop fuel' s p mask gap (i + gap + 1)
      else if negb (bloom mask (char_at s (i + m))) then search_loop fuel' s p mask gap (i + m + 1)
      else search_loop fuel' s p mask gap (i + 1)
  end.

(** Every round moves [i] forward, so [length s + 1] rounds are enough. *)
Definition default_find (s p : text) : option nat :=
  let '(mask, gap) := preprocess p in search_loop (S (length s)) s p mask gap 0.

(** ** [find_char]: the search for a needle of one character *)

(** [STRINGLIB(find_char)]: the first [i < n] with [s[i] == ch]; the
    [memchr] path taken for long texts returns the same index. *)
Fixpoint find_char_from (s : text) (ch : N) (i : nat) : option nat :=
  match s with
  | [] => None
  | c :: s' => if bool_decide (c = ch) then Some i else find_char_from s' ch (S i)
  end.

Definition find_char (s : text) (ch : N) : option nat := find_char_from s ch 0.

(** ** The reference search *)

Lemma startswith_lookup s p :
  PyStr.startswith s p = true ↔ length p ≤ length s ∧ ∀ j, j < length p → s !! j = p !! j.
Proof.
  revert s. induction p as [|c p IH]; intros [|d s]; simpl.
  - split; [split; [lia | intros; lia] | done].
  - split; [split; [lia | intros; lia] | done].
  - split; [done | lia].
  - rewrite andb_true_iff, bool_decide_eq_true, IH. split.
    + intros [-> [Hl Hj]]. split; [lia|]. intros [|j] ?; [done|]. apply Hj. lia.
    + intros [Hl Hj]. split; [by injection (Hj 0 ltac:(lia))|].
      split; [lia|]. intros j ?. apply (Hj (S j)). lia.
Qed.

(** An occurrence, character by character as [default_find] reads it. *)
Lemma occurs_at_chars s p k :
  p ≠ [] →
  occurs_at s p k ↔ k + length p ≤ length s ∧ ∀ j, j < length p → char_at s (k + j) = char_at p j.
Proof.
  intros Hp. assert (length p ≠ 0) by (by destruct p).
  unfold occurs_at. rewrite startswith_lookup, length_drop. split.
  - intros [Hl Hj]. split; [lia|]. intros j Hjp. unfold char_at.
    rewrite <- lookup_drop, Hj by done. done.
  - intros [Hl Hj]. split; [lia|]. intros j Hjp. rewrite lookup_drop.
    specialize (Hj j Hjp). unfold char_at in Hj.
    destruct (s !! (k + j)) eqn:E1; [|apply lookup_ge_None in E1; lia].
    destruct (p !! j) eqn:E2; [|apply lookup_ge_None in E2; lia]. simpl in Hj. by subst.
Qed.

Lemma find_from_first s p i j :
  occurs_at s p j → (∀ k, k < j → ¬ occurs_at s p k) → find_from s p i = Some (i + j).
Proof.
  revert i j. induction s as [|c s IH]; intros i j Hj Hk; cbn [find_from].
  - unfold occurs_at in *. destruct j; cbn [drop] in Hj; [rewrite Hj; f_equal; lia|].
    exfalso. apply (Hk 0); [lia|]. done.
  - destruct (PyStr.startswith (c :: s) p) eqn:Hs.
    + destruct j as [|j]; [f_equal; lia|]. exfalso. apply (Hk 0); [lia | done].
    + destruct j as [|j]; [unfold occurs_at in Hj; cbn [drop] in Hj; congruence|].
      rewrite (IH (S i) j); [f_equal; lia | done |].
      intros k Hkj. apply (Hk (S k)). lia.
Qed.

Lemma find_from_none s p i : (∀ k, ¬ occurs_at s p k) → find_from s p i = None.
Proof.
  revert i. induction s as [|c s IH]; intros i Hk; cbn [find_from].
  - specialize (Hk 0). unfold occurs_at in Hk. cbn [drop] in Hk. by destruct (PyStr.startswith [] p).
  - specialize (Hk 0) as H0. unfold occurs_at in H0. cbn [drop] in H0.
    destruct (PyStr.startswith (c :: s) p); [done|].
    apply IH. intros k. apply (Hk (S k)).
Qed.

(** [find_naive] finds an occurrence exactly when [PyStr.contains] says
    there is one. *)
Lemma find_naive_contains s p : is_Some (find_naive s p) ↔ PyStr.contains s p = true.
Proof.
  unfold find_naive. generalize 0. induction s as [|c s IH]; intros i; cbn [find_from PyStr.contains].
  - destruct (PyStr.startswith [] p); simpl; split; try done; by intros [].
  - destruct (PyStr.startswith (c :: s) p); simpl; [split; [done | by eexists]|]. apply IH.
Qed.

(** ** The Bloom filter *)

(** [mask & (1 << b)] is not zero exactly when bit [b] of [mask] is set. *)
Lemma bloom_testbit mask ch : bloom mask ch = N.testbit mask (N.land ch 63).
Proof.
  unfold bloom, bloom_width. change (64 - 1)%N with 63%N. rewrite N.shiftl_1_l.
  set (b := N.land ch 63).
  destruct (N.testbit mask b) eqn:E; simpl.
  - apply negb_true_iff, N.eqb_neq. intros H0.
    assert (N.testbit (N.land mask (2 ^ b)) b = false) as Hb by (rewrite H0; apply N.bits_0).
    by rewrite N.land_spec, E, N.pow2_bits_true in Hb.
  - apply negb_false_iff, N.eqb_eq, N.bits_inj_0. intros n.
    rewrite N.land_spec, N.pow2_bits_eqb. destruct (N.eqb_spec b n) as [<-|]; [by rewrite E|].
    apply andb_false_r.
Qed.

(** [STRINGLIB_BLOOM_ADD] sets the bit of its character and keeps the
    others: a character added is always reported, so a character the
    filter rejects is not in the needle. *)
Lemma bloom_add_spec mask ch d :
  bloom (bloom_add mask ch) d = true ↔ N.land d 63 = N.land ch 63 ∨ bloom mask d = true.
Proof.
  rewrite !bloom_testbit. unfold bloom_add, bloom_width. change (64 - 1)%N with 63%N.
  change (N.lor mask (N.shiftl 1 (N.land ch 63))) with (N.setbit mask (N.land ch 63)).
  rewrite N.setbit_iff. naive_solver.
Qed.

(** ** The preprocessing *)

Section Preprocess.
Context (p : text).
Let mlast := length p - 1.
Let last := char_at p mlast.

Lemma preprocess_fold t :
  t ≤ mlast →
  let '(mask, gap) := foldl (prep_step p mlast last) (0%N, mlast) (seq 0 t) in
  (∀ j, j < t → bloom mask (char_at p j) = true) ∧ gap ≤ mlast ∧
  (∀ j, mlast - gap ≤ j < t → char_at p j ≠ last).
Proof.
  induction t as [|t IH]; intros Ht.
  - simpl. split_and!; [lia | lia | lia].
  - rewrite seq_S, foldl_app. cbn [foldl].
    destruct (foldl (prep_step p mlast last) (0%N, mlast) (seq 0 t)) as [mask gap]. simpl.
    destruct (IH ltac:(lia)) as (Hm & Hg & Hl). split_and!.
    + intros j Hj. apply bloom_add_spec.
      destruct (decide (j = t)) as [->|]; [by left | right; apply Hm; lia].
    + case_bool_decide; lia.
    + intros j Hj. case_bool_decide as Hc; [lia|].
      destruct (decide (j = t)) as [->|]; [done | apply Hl; lia].
Qed.
End Preprocess.

(** What [default_find] knows of the needle: every character of it is in
    the mask, and no character strictly between the last earlier
    occurrence of the last character and the end is the last one. *)
Lemma preprocess_spec p :
  p ≠ [] →
  let '(mask, gap) := preprocess p in
  (∀ j, j < length p → bloom mask (char_at p j) = true) ∧ gap ≤ length p - 1 ∧
  (∀ j, length p - 1 - gap ≤ j < length p - 1 → char_at p j ≠ char_at p (length p - 1)).
Proof.
  intros Hp. assert (length p ≠ 0) by (by destruct p).
  unfold preprocess. pose proof (preprocess_fold p (length p - 1) ltac:(lia)) as Hf.
  revert Hf. cbn zeta. destruct (foldl _ _ _) as [mask gap]. intros (Hm & Hg & Hl).
  split_and!; [|done|done].
  intros j Hj. apply bloom_add_spec.
  destruct (decide (j = length p - 1)) as [->|]; [by left | right; apply Hm; lia].
Qed.

(** ** The main loop *)

Section Search.
Context (s p : text).
Hypothesis Hp : p ≠ [].

Lemma no_occ_beyond k : length s - length p < k → ¬ occurs_at s p k.
Proof using Hp. intros Hk (Hl & _)%occurs_at_chars; [lia | done]. Qed.

Lemma miss_last i :
  char_at s (i + (length p - 1)) ≠ char_at p (length p - 1) → ¬ occurs_at s p i.
Proof using Hp.
  intros Hne (_ & Hc)%occurs_at_chars; [|done]. apply Hne, Hc.
  destruct p; [done|]. simpl. lia.
Qed.

Lemma miss_prefix i :
  forallb (λ j, bool_decide (char_at s (i + j) = char_at p j)) (seq 0 (length p - 1)) = false →
  ¬ occurs_at s p i.
Proof using Hp.
  intros Hf (_ & Hc)%occurs_at_chars; [|done].
  apply not_true_iff_false in Hf. apply Hf, forallb_forall. intros j Hj%list_elem_of_In.
  apply elem_of_seq in Hj. apply (bool_decide_eq_true _), Hc. lia.
Qed.

Lemma hit i :
  i ≤ length s - length p →
  char_at s (i + (length p - 1)) = char_at p (length p - 1) →
  forallb (λ j, bool_decide (char_at s (i + j) = char_at p j)) (seq 0 (length p - 1)) = true →
  length p ≤ length s → occurs_at s p i.
Proof using Hp.
  intros Hi Hlast Hf Hps. apply occurs_at_chars; [done|]. split; [lia|].
  intros j Hj. destruct (decide (j = length p - 1)) as [->|]; [done|].
  rewrite forallb_forall in Hf. apply (bool_decide_eq_true _), Hf, list_elem_of_In, elem_of_seq. lia.
Qed.

Lemma no_occ_extend i i' :
  (∀ k, k < i → ¬ occurs_at s p k) → ¬ occurs_at s p i → (∀ k, i < k < i' → ¬ occurs_at s p k) →
  ∀ k, k < i' → ¬ occurs_at s p k.
Proof.
  intros H1 H2 H3 k Hk. destruct (lt_eq_lt_dec k i) as [[Hlt| ->]|Hgt]; [by apply H1 | done | apply H3; lia].
Qed.

Context (mask : N).
Hypothesis Hmask : ∀ j, j < length p → bloom mask (char_at p j) = true.

(** A character of [s] outside the mask rules out every start that
    would cover it. *)
Lemma skip_mask i :
  bloom mask (char_at s (i + length p)) = false → ∀ k, i < k ≤ i + length p → ¬ occurs_at s p k.
Proof using Hp Hmask.
  intros Hb k Hk (_ & Hc)%occurs_at_chars; [|done].
  specialize (Hc (i + length p - k) ltac:(lia)).
  replace (k + (i + length p - k)) with (i + length p) in Hc by lia.
  rewrite Hc, Hmask in Hb by lia. done.
Qed.

Context (gap : nat).
Hypothesis Hgap_le : gap ≤ length p - 1.
Hypothesis Hgap : ∀ j, length p - 1 - gap ≤ j < length p - 1 → char_at p j ≠ char_at p (length p - 1).

(** After a candidate, a shift of at most [gap] would put an earlier
    character of the needle, which is not the last one, under the last
    character read. *)
Lemma skip_gap i :
  char_at s (i + (length p - 1)) = char_at p (length p - 1) →
  ∀ k, i < k ≤ i + gap → ¬ occurs_at s p k.
Proof using Hp Hgap Hgap_le.
  clear Hmask. intros Hlast k Hk Hocc. assert (length p ≠ 0) by (by destruct p).
  apply occurs_at_chars in Hocc as [Hl Hc]; [|done].
  destruct (decide (k ≤ i + (length p - 1))) as [Hle|]; [|lia].
  specialize (Hc (i + (length p - 1) - k) ltac:(lia)).
  replace (k + (i + (length p - 1) - k)) with (i + (length p - 1)) in Hc by lia.
  apply (Hgap (i + (length p - 1) - k)); [lia | congruence].
Qed.

(** The loop, entered at [i] with no occurrence before [i] and enough
    fuel, returns the first occurrence. *)
Lemma search_loop_first fuel i :
  length p ≤ length s → length s - length p + 2 ≤ fuel + i →
  (∀ k, k < i → ¬ occurs_at s p k) → search_loop fuel s p mask gap i = find_naive s p.
Proof using Hp Hmask Hgap Hgap_le.
  intros Hps. revert i. induction fuel as [|fuel IH]; intros i Hfuel Hbefore; cbn [search_loop].
  { symmetry. apply find_from_none. intros k. destruct (decide (k < i)); [by apply Hbefore|].
    apply no_occ_beyond. lia. }
  case_bool_decide as Hw.
  { symmetry. apply find_from_none. intros k. destruct (decide (k < i)); [by apply Hbefore|].
    apply no_occ_beyond. lia. }
  assert (Hskip : ∀ i', i < i' → (∀ k, i < k < i' → ¬ occurs_at s p k) →
           ¬ occurs_at s p i → search_loop fuel s p mask gap i' = find_naive s p)
    by (intros i' ? Hmid Hi; apply IH; [lia | by apply (no_occ_extend i)]).
  case_bool_decide as Hlast.
  - destruct (forallb _ _) eqn:Hf.
    + symmetry. apply (find_from_first s p 0 i); [by apply hit; [lia| | |] | done].
    + pose proof (miss_prefix i Hf) as Hi.
      destruct (bloom mask (char_at s (i + length p))) eqn:Hb; simpl.
      * apply Hskip; [lia | | done].
        intros k Hk. apply (skip_gap i Hlast). lia.
      * apply Hskip; [lia | | done].
        intros k Hk. apply (skip_mask i Hb). lia.
  - pose proof (miss_last i Hlast) as Hi.
    destruct (bloom mask (char_at s (i + length p))) eqn:Hb; simpl.
    + apply Hskip; [lia | intros; lia | done].
    + apply Hskip; [lia | | done].
      intros k Hk. apply (skip_mask i Hb). lia.
Qed.
End Search.

(** ** [default_find] returns the first match *)

Lemma default_find_naive s p :
  1 ≤ length p ≤ length s → default_find s p = find_naive s p.
Proof.
  intros Hl. assert (Hp : p ≠ []) by (destruct p; simpl in *; [lia | done]).
  unfold default_find. pose proof (preprocess_spec p Hp) as Hpre.
  destruct (preprocess p) as [mask gap]. destruct Hpre as (Hm & Hg & Hgap).
  apply search_loop_first; [done | done | done | done | lia | lia | intros; lia].
Qed.

(** C28: on a needle of [1 ≤ m ≤ n] characters, [default_find] (Bloom
    mask, [gap] skip, the read of [s[n]]) returns the first index at
    which the needle occurs, the result of the naive search. *)
Theorem default_find_first s p :
  1 ≤ length p ≤ length s → default_find s p = find_naive s p.
Proof. apply default_find_naive. Qed.

Lemma default_find_first_witness :
  1 ≤ length [98; 99]%N ≤ length [97; 98; 99; 98; 99]%N ∧
  default_find [97; 98; 99; 98; 99]%N [98; 99]%N = Some 1.
Proof.
  split; [simpl; lia|].
  rewrite (default_find_first [97; 98; 99; 98; 99]%N [98; 99]%N) by (simpl; lia).
  reflexivity.
Defined.

(** ** The dispatch *)

Lemma find_char_from_spec s ch i : find_char_from s ch i = find_from s [ch] i.
Proof.
  revert i. induction s as [|c s IH]; intros i; cbn [find_char_from find_from PyStr.startswith];
    [done|]. replace (PyStr.startswith s []) with true by (by destruct s).
  rewrite andb_true_r. case_bool_decide; case_bool_decide; [done|congruence|congruence|].
  apply IH.
Qed.

Lemma find_char_spec s ch : find_char s ch = find_naive s [ch].
Proof. apply find_char_from_spec. Qed.

Lemma find_naive_nil s : find_naive s [] = Some 0.
Proof. by destruct s. Qed.

Lemma find_naive_too_long s p : length s < length p → find_naive s p = None.
Proof.
  intros Hl. apply find_from_none. intros k Hk. apply startswith_lookup in Hk as [Hk _].
  rewrite length_drop in Hk. destruct p; simpl in *; lia.
Qed.



End FastSearch.
