(* ===== verification/MaxSuffix.v ===== *)
(** * The critical factorization of a needle: [_lex_search] and [_factorize]

    The two-way search of [Objects/stringlib/fastsearch.h] (CPython 3.12)
    cuts the needle in two at a critical position.  It finds the cut with
    [_lex_search], which returns the start of the lexicographically
    largest suffix of the needle (for the order of the code points, or
    for the inverted order) and the period of that suffix, and with
    [_factorize], which keeps the later of the two cuts.  This file
    models:
    - [char_lt] and [lex_lt]: the order of [_lex_search] on code points
      and Python's comparison of [str] built on it (a proper prefix is
      smaller);
    - [lex_loop] and [lex_search]: the loop of [_lex_search] on the
      variables [max_suffix], [candidate], [k] and [period], run on fuel
      ([3 n] rounds are enough: every round increases
      [candidate + k + max_suffix], which stays below [3 n]);
    - [factorize]: [_factorize].
    The theorems show that [lex_search] returns the maximal suffix and
    its smallest period, and derive from the two maximal suffixes the
    facts on periods that make the shifts of the two-way search safe. *)

From S2P Require Import Prelude FastSearch.
From stdpp Require Import sets.

Module MaxSuffix.
Import FastSearch.

(** ** Definitions *)

(** [a < b] in [_lex_search], or [b < a] when [invert_alphabet] is set. *)
Definition char_lt (inv : bool) (a b : N) : bool := if inv then (b <? a)%N else (a <? b)%N.

(** Python's [<] on [str] for that order of the code points. *)
Fixpoint lex_lt (inv : bool) (s t : text) : bool :=
  match s, t with
  | [], [] => false
  | [], _ :: _ => true
  | _ :: _, [] => false
  | a :: s', b :: t' => if bool_decide (a = b) then lex_lt inv s' t' else char_lt inv a b
  end.

(** The loop of [_lex_search]: compare [needle[candidate + k]] with
    [needle[max_suffix + k]]; fall short (skip past the scanned
    characters, and the period becomes the whole scanned length), match
    (one more character, or one more period), or do better (the
    candidate becomes the maximal suffix). *)
Fixpoint lex_loop (fuel : nat) (inv : bool) (p : text) (ms cand k per : nat) : nat * nat :=
  match fuel with
  | O => (ms, per)
  | S fuel' =>
      if bool_decide (cand + k < length p) then
        let a := char_at p (cand + k) in
        let b := char_at p (ms + k) in
        if char_lt inv a b then
          lex_loop fuel' inv p ms (cand + k + 1) 0 (cand + k + 1 - ms)
        else if bool_decide (a = b) then
          if bool_decide (k + 1 ≠ per) then lex_loop fuel' inv p ms cand (k + 1) per
          else lex_loop fuel' inv p ms (cand + per) 0 per
        else lex_loop fuel' inv p cand (cand + 1) 0 1
      else (ms, per)
  end.

(** [_lex_search(needle, len_needle, &period, invert_alphabet)]: the
    start of the maximal suffix and its period. *)
Definition lex_search (p : text) (inv : bool) : nat * nat :=
  lex_loop (3 * length p) inv p 0 1 0 1.

(** [_factorize]: the later of the two cuts, with its period. *)
Definition factorize (p : text) : nat * nat :=
  let '(cut1, period1) := lex_search p false in
  let '(cut2, period2) := lex_search p true in
  if bool_decide (cut2 < cut1) then (cut1, period1) else (cut2, period2).

(** ** Words: agreement, periods and the maximal suffix *)

(** [x[i..i+d) = x[j..j+d)]. *)
Definition agree (x : text) (i j d : nat) : Prop :=
  ∀ t, t < d → char_at x (i + t) = char_at x (j + t).

(** [q] is a period of [x]. *)
Definition has_period (x : text) (q : nat) : Prop :=
  ∀ i, i + q < length x → char_at x i = char_at x (i + q).

(** The suffix at [ms] is larger than every other suffix. *)
Definition max_suffix (inv : bool) (x : text) (ms : nat) : Prop :=
  ms ≤ length x ∧ ∀ j, j ≤ length x → j ≠ ms → lex_lt inv (drop j x) (drop ms x) = true.

(** A word of length [r] is a repetition at the cut [c]: it ends with
    what comes before the cut and starts with what follows it, as far
    as both go. *)
Definition repetition (x : text) (c r : nat) : Prop :=
  ∀ u, u < r → r ≤ c + u → c + u < length x → char_at x (c + u - r) = char_at x (c + u).

(** The suffix at [j] is below the suffix at [m], and they differ at one
    of their first [len] characters. *)
Definition below (inv : bool) (x : text) (j m len : nat) : Prop :=
  ∃ d, d < len ∧ agree x j m d ∧ char_lt inv (char_at x (j + d)) (char_at x (m + d)) = true.

(** [x[lo..hi)] has period [p]. *)
Definition periodic (x : text) (p lo hi : nat) : Prop :=
  ∀ i, lo ≤ i → i + p < hi → char_at x i = char_at x (i + p).

(** The invariant of the loop: the candidate is [q] periods after the
    maximal suffix so far; the scanned part [x[ms..cand+k)] repeats the
    word [x[ms..ms+per)], every proper suffix of which is below it
    within it; every suffix that starts before [ms] is below the one at
    [ms]. *)
Record lex_inv (inv : bool) (x : text) (ms cand k per : nat) : Prop := {
  li_ms : ms < cand;
  li_per : 0 < per;
  li_k : k < per;
  li_len : cand + k ≤ length x;
  li_align : ∃ q, 1 ≤ q ∧ cand = ms + q * per;
  li_periodic : periodic x per ms (cand + k);
  li_self : ∀ r, 0 < r < per → below inv x (ms + r) ms (per - r);
  li_before : ∀ j, j < ms → lex_lt inv (drop j x) (drop ms x) = true
}.

(** What [_lex_search] returns: the maximal suffix and its smallest
    period. *)
Definition lex_result (inv : bool) (x : text) (r : nat * nat) : Prop :=
  let '(ms, per) := r in
  max_suffix inv x ms ∧ 0 < per ∧ ms + per ≤ length x ∧ has_period (drop ms x) per ∧
  ∀ q, 0 < q < per → ¬ has_period (drop ms x) q.

(** ** The order on code points and on texts *)

Section Order.
Context (inv : bool).

Lemma char_lt_irrefl a : char_lt inv a a = false.
Proof. unfold char_lt. destruct inv; apply N.ltb_irrefl. Qed.

Lemma char_lt_trans a b c : char_lt inv a b = true → char_lt inv b c = true → char_lt inv a c = true.
Proof. unfold char_lt. destruct inv; rewrite !N.ltb_lt; lia. Qed.

Lemma char_lt_asym a b : char_lt inv a b = true → char_lt inv b a = false.
Proof. unfold char_lt. destruct inv; rewrite N.ltb_lt, N.ltb_ge; lia. Qed.

Lemma char_lt_total a b : a ≠ b → char_lt inv a b = true ∨ char_lt inv b a = true.
Proof. unfold char_lt. destruct inv; rewrite !N.ltb_lt; lia. Qed.

Lemma lex_lt_app_common l s t : lex_lt inv (l ++ s) (l ++ t) = lex_lt inv s t.
Proof. induction l as [|a l IH]; [done|]. simpl. by rewrite bool_decide_true. Qed.

Lemma lex_lt_irrefl s : lex_lt inv s s = false.
Proof. induction s as [|a s IH]; [done|]. simpl. by rewrite bool_decide_true. Qed.

Lemma lex_lt_trans s t u : lex_lt inv s t = true → lex_lt inv t u = true → lex_lt inv s u = true.
Proof.
  revert t u. induction s as [|a s IH]; intros [|b t] [|c u]; simpl; try done. intros H1 H2.
  destruct (decide (a = b)) as [->|Hab].
  - rewrite bool_decide_true in H1 by done. destruct (decide (b = c)) as [->|Hbc].
    + rewrite bool_decide_true in * by done. eauto.
    + rewrite bool_decide_false in * by done. done.
  - rewrite bool_decide_false in H1 by done. destruct (decide (b = c)) as [->|Hbc].
    + rewrite bool_decide_false by done. done.
    + rewrite bool_decide_false in H2 by done. destruct (decide (a = c)) as [->|Hac].
      * by rewrite (char_lt_asym _ _ H1) in H2.
      * rewrite bool_decide_false by done. eauto using char_lt_trans.
Qed.

Lemma lex_lt_total s t : s ≠ t → lex_lt inv s t = true ∨ lex_lt inv t s = true.
Proof.
  revert t. induction s as [|a s IH]; intros [|b t] Hne; simpl; try by auto.
  case_bool_decide as Hab; [subst; rewrite bool_decide_true by done|].
  - apply IH. congruence.
  - rewrite bool_decide_false by congruence. by apply char_lt_total.
Qed.

Lemma lex_lt_asym s t : lex_lt inv s t = true → lex_lt inv t s = false.
Proof.
  intros Hst. destruct (lex_lt inv t s) eqn:Hts; [|done].
  pose proof (lex_lt_trans _ _ _ Hst Hts). by rewrite lex_lt_irrefl in *.
Qed.

End Order.

(** ** Suffixes compared through their characters *)

Section Words.
Context (inv : bool) (x : text).
Local Notation n := (length x).

Lemma lookup_char_at i : i < n → x !! i = Some (char_at x i).
Proof.
  intros Hi. unfold char_at. destruct (x !! i) eqn:E; [done|].
  apply lookup_ge_None in E. lia.
Qed.

Lemma char_at_drop j i : char_at (drop j x) i = char_at x (j + i).
Proof. unfold char_at. by rewrite lookup_drop. Qed.

Lemma agree_sym i j d : agree x i j d → agree x j i d.
Proof. intros H t Ht. symmetry. by apply H. Qed.

Lemma agree_le i j d d' : d' ≤ d → agree x i j d → agree x i j d'.
Proof. intros ? H t Ht. apply H. lia. Qed.

Lemma agree_trans i j l d : agree x i j d → agree x j l d → agree x i l d.
Proof. intros H1 H2 t Ht. by rewrite H1, H2. Qed.

(** Two suffixes that agree on [d] characters share a prefix of length
    [d]. *)
Lemma drop_agree i j d :
  i + d ≤ n → j + d ≤ n → agree x i j d →
  ∃ l, drop i x = l ++ drop (i + d) x ∧ drop j x = l ++ drop (j + d) x.
Proof.
  intros Hi Hj Hag. exists (take d (drop i x)). split; [by rewrite <- drop_drop, take_drop|].
  rewrite <- (take_drop d (drop j x)), drop_drop. f_equal.
  apply list_eq. intros t. rewrite !lookup_take, !lookup_drop.
  case_decide; [|done]. rewrite !lookup_char_at by lia. by rewrite Hag.
Qed.

Lemma drop_char_at i : i < n → drop i x = char_at x i :: drop (S i) x.
Proof. intros Hi. apply drop_S, lookup_char_at, Hi. Qed.

(** Suffixes that agree on [d] characters and then differ compare as
    the characters where they differ. *)
Lemma lex_drop_diff i j d :
  i + d < n → j + d < n → agree x i j d → char_at x (i + d) ≠ char_at x (j + d) →
  lex_lt inv (drop i x) (drop j x) = char_lt inv (char_at x (i + d)) (char_at x (j + d)).
Proof.
  intros Hi Hj Hag Hne. destruct (drop_agree i j d) as (l & -> & ->); [lia|lia|done|].
  rewrite lex_lt_app_common, (drop_char_at (i + d)), (drop_char_at (j + d)) by done.
  cbn [lex_lt]. by rewrite bool_decide_false.
Qed.

(** A suffix that ends where it agrees with another is a prefix of it,
    so it is smaller. *)
Lemma lex_drop_prefix i j d :
  i + d = n → j + d < n → agree x i j d → lex_lt inv (drop i x) (drop j x) = true.
Proof.
  intros Hi Hj Hag. destruct (drop_agree i j d) as (l & -> & ->); [lia|lia|done|].
  rewrite lex_lt_app_common, (drop_char_at (j + d)) by done.
  rewrite drop_ge by lia. done.
Qed.

Lemma below_mono i j l l' : l ≤ l' → below inv x i j l → below inv x i j l'.
Proof. intros ? (d & ? & ?). exists d. split; [lia|done]. Qed.

Lemma below_lex i j l : i + l ≤ n → j + l ≤ n → below inv x i j l → lex_lt inv (drop i x) (drop j x) = true.
Proof.
  intros Hi Hj (d & Hd & Hag & Hlt). rewrite (lex_drop_diff i j d); [done|lia|lia|done|].
  intros Heq. by rewrite Heq, char_lt_irrefl in Hlt.
Qed.

Lemma below_trans i j l l1 l2 :
  below inv x i j l1 → below inv x j l l2 → below inv x i l (min l1 l2).
Proof.
  intros (d1 & Hd1 & Hag1 & Hlt1) (d2 & Hd2 & Hag2 & Hlt2).
  destruct (lt_eq_lt_dec d1 d2) as [[Hlt|<-]|Hlt].
  - exists d1. split; [lia|]. split; [apply (agree_trans _ j); [done | apply (agree_le _ _ d2); [lia|done]]|].
    by rewrite <- (Hag2 d1 Hlt).
  - exists d1. split; [lia|]. split; [by apply (agree_trans _ j)|]. eauto using char_lt_trans.
  - exists d2. split; [lia|]. split; [apply (agree_trans _ j); [apply (agree_le _ _ d1); [lia|done] | done]|].
    by rewrite (Hag1 d2 Hlt).
Qed.

(** ** Periodic stretches *)

Lemma periodic_mult p lo hi t i :
  periodic x p lo hi → lo ≤ i → i + t * p < hi → char_at x i = char_at x (i + t * p).
Proof.
  intros Hp Hi. induction t as [|t IH]; intros Ht; [by rewrite Nat.add_0_r|].
  rewrite IH by lia. replace (i + S t * p) with (i + t * p + p) by lia. apply Hp; lia.
Qed.

Lemma periodic_agree p lo hi t i d :
  periodic x p lo hi → lo ≤ i → i + t * p + d ≤ hi → agree x i (i + t * p) d.
Proof.
  intros Hp Hi Hd u Hu. replace (i + t * p + u) with (i + u + t * p) by lia.
  apply (periodic_mult p lo hi); [done|lia|lia].
Qed.

Lemma below_shift p lo hi t i j len :
  periodic x p lo hi → lo ≤ i → lo ≤ j → i + t * p + len ≤ hi → j + t * p + len ≤ hi →
  below inv x i j len → below inv x (i + t * p) (j + t * p) len.
Proof.
  intros Hp Hi Hj Hil Hjl (d & Hd & Hag & Hlt). exists d. split; [done|]. split.
  - intros u Hu. replace (i + t * p + u) with (i + u + t * p) by lia.
    replace (j + t * p + u) with (j + u + t * p) by lia.
    rewrite <- !(periodic_mult p lo hi) by (done || lia). by apply Hag.
  - replace (i + t * p + d) with (i + d + t * p) by lia.
    replace (j + t * p + d) with (j + d + t * p) by lia.
    by rewrite <- !(periodic_mult p lo hi) by (done || lia).
Qed.

End Words.

(** ** The loop of [_lex_search] *)

Section LexSearch.
Context (inv : bool) (x : text).
Local Notation n := (length x).


Lemma lex_inv_init : x ≠ [] → lex_inv inv x 0 1 0 1.
Proof.
  intros Hx. assert (n ≠ 0) by (by destruct x).
  split; try lia; [exists 1; lia | intros ???; lia].
Qed.

(** The position [j = ms + t * per + r0] split along the period. *)
Lemma split_period ms per j :
  0 < per → ms ≤ j → j = ms + (j - ms) / per * per + (j - ms) mod per ∧ (j - ms) mod per < per.
Proof.
  intros Hper Hj. split; [|by apply Nat.mod_upper_bound; lia].
  pose proof (Nat.div_mod_eq (j - ms) per). lia.
Qed.

(** After a character [a] below [b], every suffix that starts in the
    scanned part is below the maximal one before [a]. *)
Lemma scanned_below ms cand k per j :
  lex_inv inv x ms cand k per → cand + k < n →
  char_lt inv (char_at x (cand + k)) (char_at x (ms + k)) = true →
  ms < j ≤ cand + k → below inv x j ms (cand + k + 1 - j).
Proof.
  intros Hi HL Hab Hj. destruct Hi as [Hms Hper Hk Hlen [q [Hq Hc]] Hpd Hself Hbef].
  destruct (split_period ms per j) as [Hsplit Hr0]; [done|lia|].
  set (t := (j - ms) / per) in *. set (r0 := (j - ms) mod per) in *. clearbody t r0.
  assert (Hqp : per ≤ q * per) by nia.
  assert (Htq : t ≤ q).
  { destruct (decide (t ≤ q)); [done|]. assert (t * per ≥ (q + 1) * per) by nia. lia. }
  (* the suffix at [j] against the one at [ms + r0], when [t ≥ 1] *)
  assert (Hfar : 1 ≤ t → below inv x j (ms + r0) (cand + k + 1 - j)).
  { intros Ht. exists (cand + k - j). split; [lia|]. split.
    - apply agree_sym. rewrite Hsplit. replace (ms + t * per + r0) with (ms + r0 + t * per) by lia.
      apply (periodic_agree _ per ms (cand + k)); [done|lia|lia].
    - replace (j + (cand + k - j)) with (cand + k) by lia.
      replace (ms + r0 + (cand + k - j)) with (ms + k + (q - t) * per) by nia.
      rewrite <- (periodic_mult _ per ms (cand + k)) by (done || nia). done. }
  destruct (decide (r0 = 0)) as [->|Hr0'].
  - rewrite Nat.add_0_r in Hfar. apply Hfar. destruct t; lia.
  - destruct (decide (t = 0)) as [->|Ht].
    + assert (j = ms + r0) as -> by lia. apply (below_mono _ _ _ _ (per - r0)); [lia|].
      apply Hself. lia.
    + apply (below_mono _ _ _ _ (min (cand + k + 1 - j) (per - r0))); [lia|].
      apply (below_trans _ _ _ (ms + r0)); [apply Hfar; lia | apply Hself; lia].
Qed.

(** After a character [a] above [b], every suffix that starts before the
    candidate is below the candidate. *)
Lemma below_candidate ms cand k per j :
  lex_inv inv x ms cand k per → cand + k < n →
  char_lt inv (char_at x (ms + k)) (char_at x (cand + k)) = true →
  ms ≤ j < cand → below inv x j cand (k + 1).
Proof.
  intros Hi HL Hba Hj. destruct Hi as [Hms Hper Hk Hlen [q [Hq Hc]] Hpd Hself Hbef].
  destruct (split_period ms per j) as [Hsplit Hr0]; [done|lia|].
  set (t := (j - ms) / per) in *. set (r0 := (j - ms) mod per) in *. clearbody t r0.
  assert (Htq : t < q).
  { destruct (decide (t < q)); [done|]. assert (t * per ≥ q * per) by nia. lia. }
  assert (Hbase : below inv x (ms + t * per) cand (k + 1)).
  { exists k. split; [lia|]. split.
    - rewrite Hc. replace (ms + q * per) with (ms + t * per + (q - t) * per) by nia.
      apply (periodic_agree _ per ms (cand + k)); [done|lia|nia].
    - replace (ms + t * per + k) with (ms + k + t * per) by lia.
      rewrite <- (periodic_mult _ per ms (cand + k)); [done..|lia|nia]. }
  destruct (decide (r0 = 0)) as [->|Hr0'].
  - by rewrite Nat.add_0_r in Hsplit; subst j.
  - rewrite Hsplit. apply (below_mono _ _ _ _ (min (per - r0) (k + 1))); [lia|].
    apply (below_trans _ _ _ (ms + t * per)); [|done].
    replace (ms + t * per + r0) with (ms + r0 + t * per) by lia.
    apply (below_shift _ _ per ms (cand + k)); [done|lia|lia|nia|nia|]. apply Hself. lia.
Qed.

(** The periodic part grows by the character that matched. *)
Lemma periodic_extend ms cand k per :
  lex_inv inv x ms cand k per → cand + k < n → char_at x (cand + k) = char_at x (ms + k) →
  periodic x per ms (cand + k + 1).
Proof.
  intros Hi HL Hab. destruct Hi as [Hms Hper Hk Hlen [q [Hq Hc]] Hpd Hself Hbef].
  intros i Hi Hip. destruct (decide (i + per < cand + k)); [by apply Hpd|].
  assert (i + per = cand + k) as Heq by lia. rewrite Heq, Hab.
  replace i with (ms + k + (q - 1) * per) by nia.
  symmetry. apply (periodic_mult _ per ms (cand + k)); [done|lia|nia].
Qed.

Lemma lex_step_lt ms cand k per :
  lex_inv inv x ms cand k per → cand + k < n →
  char_lt inv (char_at x (cand + k)) (char_at x (ms + k)) = true →
  lex_inv inv x ms (cand + k + 1) 0 (cand + k + 1 - ms).
Proof.
  intros Hi HL Hab. pose proof Hi as [Hms Hper Hk Hlen [q [Hq Hc]] Hpd Hself Hbef].
  split; try lia; [exists 1; lia | intros ???; lia | | done].
  intros r Hr. replace (cand + k + 1 - ms - r) with (cand + k + 1 - (ms + r)) by lia.
  apply (scanned_below _ cand k per); [done..|lia].
Qed.

Lemma lex_step_eq ms cand k per :
  lex_inv inv x ms cand k per → cand + k < n → char_at x (cand + k) = char_at x (ms + k) →
  k + 1 ≠ per → lex_inv inv x ms cand (k + 1) per.
Proof.
  intros Hi HL Hab Hkp. pose proof (periodic_extend _ _ _ _ Hi HL Hab) as Hpd'.
  destruct Hi as [Hms Hper Hk Hlen Hal Hpd Hself Hbef].
  split; try done; try lia. by rewrite Nat.add_assoc.
Qed.

Lemma lex_step_period ms cand k per :
  lex_inv inv x ms cand k per → cand + k < n → char_at x (cand + k) = char_at x (ms + k) →
  k + 1 = per → lex_inv inv x ms (cand + per) 0 per.
Proof.
  intros Hi HL Hab Hkp. pose proof (periodic_extend _ _ _ _ Hi HL Hab) as Hpd'.
  destruct Hi as [Hms Hper Hk Hlen [q [Hq Hc]] Hpd Hself Hbef].
  split; try done; try lia.
  - exists (S q). lia.
  - by replace (cand + per + 0) with (cand + k + 1) by lia.
Qed.

Lemma lex_step_gt ms cand k per :
  lex_inv inv x ms cand k per → cand + k < n →
  char_lt inv (char_at x (ms + k)) (char_at x (cand + k)) = true →
  lex_inv inv x cand (cand + 1) 0 1.
Proof.
  intros Hi HL Hba. pose proof Hi as [Hms Hper Hk Hlen Hal Hpd Hself Hbef].
  split; try lia; [exists 1; lia | intros ???; lia |].
  intros j Hj. destruct (decide (ms ≤ j)).
  - apply (below_lex _ _ _ _ (k + 1)); [lia|lia|]. by apply (below_candidate ms _ k per).
  - apply (lex_lt_trans _ _ (drop ms x)); [apply Hbef; lia|].
    apply (below_lex _ _ _ _ (k + 1)); [lia|lia|]. apply (below_candidate ms _ k per); [done..|lia].
Qed.

(** When the scan reaches the end, the invariant is the result. *)
Lemma lex_inv_final ms cand k per :
  lex_inv inv x ms cand k per → n ≤ cand + k → lex_result inv x (ms, per).
Proof.
  intros Hi HL. destruct Hi as [Hms Hper Hk Hlen [q [Hq Hc]] Hpd Hself Hbef].
  assert (Hqp : per ≤ q * per) by nia. assert (cand + k = n) as Hn by lia. rewrite Hn in Hpd.
  split_and!; [split; [lia|] | lia | lia | |].
  - intros j Hj Hjm. destruct (decide (j < ms)) as [|Hge]; [by apply Hbef|].
    destruct (split_period ms per j) as [Hsplit Hr0]; [done|lia|].
    set (t := (j - ms) / per) in *. set (r0 := (j - ms) mod per) in *. clearbody t r0.
    (* the suffix at [j] is a prefix of the one at [ms + r0] *)
    assert (Hpre : 1 ≤ t → lex_lt inv (drop j x) (drop (ms + r0) x) = true).
    { intros Ht. apply (lex_drop_prefix _ _ _ _ (n - j)); [lia| |].
      - destruct (decide (r0 = 0)); [|lia]. subst. destruct t; nia.
      - apply agree_sym. rewrite Hsplit. replace (ms + t * per + r0) with (ms + r0 + t * per) by lia.
        apply (periodic_agree _ per ms n); [done|lia|lia]. }
    destruct (decide (r0 = 0)) as [->|Hr0'].
    + rewrite Nat.add_0_r in Hpre. apply Hpre. destruct t; lia.
    + assert (Hself' : lex_lt inv (drop (ms + r0) x) (drop ms x) = true).
      { apply (below_lex _ _ _ _ (per - r0)); [lia|lia|]. apply Hself. lia. }
      destruct (decide (t = 0)) as [->|Ht].
      * by replace j with (ms + r0) by lia.
      * apply (lex_lt_trans _ _ (drop (ms + r0) x)); [apply Hpre; lia | done].
  - intros i Hi. rewrite length_drop in Hi. rewrite !char_at_drop, Nat.add_assoc. apply Hpd; lia.
  - intros p Hp Hperiod. destruct (Hself p Hp) as (d & Hd & Hag & Hlt).
    specialize (Hperiod d). rewrite length_drop, !char_at_drop in Hperiod.
    replace (ms + p + d) with (ms + (d + p)) in Hlt by lia.
    rewrite <- Hperiod, char_lt_irrefl in Hlt by lia. done.
Qed.

(** The loop, run from a state of the invariant with enough fuel,
    returns the maximal suffix and its smallest period. *)
Lemma lex_loop_spec fuel ms cand k per :
  lex_inv inv x ms cand k per → 2 * n ≤ fuel + ms + cand + k →
  lex_result inv x (lex_loop fuel inv x ms cand k per).
Proof.
  revert ms cand k per. induction fuel as [|fuel IH]; intros ms cand k per Hi Hf.
  { pose proof (li_ms _ _ _ _ _ _ Hi). pose proof (li_len _ _ _ _ _ _ Hi). lia. }
  cbn [lex_loop]. case_bool_decide as HL; [|apply (lex_inv_final _ cand k); [done|lia]].
  pose proof (li_k _ _ _ _ _ _ Hi). pose proof (li_ms _ _ _ _ _ _ Hi).
  destruct (li_align _ _ _ _ _ _ Hi) as (q & Hq & Hc). assert (per ≤ cand - ms) by nia.
  destruct (char_lt inv _ _) eqn:Hab.
  { apply IH; [by apply (lex_step_lt _ _ k per) | lia]. }
  case_bool_decide as Heq.
  - case_bool_decide as Hkp.
    + apply IH; [by apply lex_step_eq | lia].
    + apply IH; [apply (lex_step_period _ _ k); [done..|lia] | lia].
  - apply IH; [|lia]. apply (lex_step_gt ms _ k per); [done..|].
    destruct (char_lt_total inv (char_at x (cand + k)) (char_at x (ms + k))) as [|]; congruence.
Qed.

End LexSearch.



(** ** The two maximal suffixes *)

Lemma char_lt_negb inv a b : char_lt (negb inv) a b = char_lt inv b a.
Proof. by destruct inv. Qed.

(** ** The period of the right half *)

Section RightPeriod.
Context (x : text) (c pv : nat).
Local Notation n := (length x).
Hypothesis Hpv : 0 < pv.
Hypothesis Hcpv : c + pv ≤ n.
Hypothesis Hvper : has_period (drop c x) pv.
Hypothesis Hvmin : ∀ q, 0 < q < pv → ¬ has_period (drop c x) q.

Lemma right_period_mult a i : c ≤ i → i + a * pv < n → char_at x i = char_at x (i + a * pv).
Proof using Hcpv Hpv Hvper c pv x.
  intros Hi. induction a as [|a IH]; intros Ha; [by rewrite Nat.add_0_r|].
  rewrite IH by lia. assert (H := Hvper (i + a * pv - c)). rewrite length_drop, !char_at_drop in H.
  replace (c + (i + a * pv - c)) with (i + a * pv) in H by lia.
  replace (c + (i + a * pv - c + pv)) with (i + S a * pv) in H by lia. apply H. lia.
Qed.

Lemma period_ge_right s : 0 < s → has_period x s → pv ≤ s.
Proof using Hcpv Hpv Hvmin c pv x.
  intros Hs Hper. destruct (decide (pv ≤ s)) as [|Hlt]; [done|]. exfalso.
  apply (Hvmin s); [lia|]. intros i Hi. rewrite length_drop in Hi. rewrite !char_at_drop.
  rewrite Nat.add_assoc. apply Hper. lia.
Qed.

Lemma periodic_whole : (∀ k, k < c → char_at x k = char_at x (k + pv)) → has_period x pv.
Proof using Hcpv Hpv Hvper c pv x.
  intros Hleft i Hi. destruct (decide (i < c)); [by apply Hleft|].
  assert (H := Hvper (i - c)). rewrite length_drop, !char_at_drop in H.
  replace (c + (i - c)) with i in H by lia. replace (c + (i - c + pv)) with (i + pv) in H by lia.
  apply H. lia.
Qed.

End RightPeriod.

Section Cut.
Context (x : text) (inv : bool) (c : nat).
Local Notation n := (length x).
Hypothesis Hmax : max_suffix inv x c.

(** The maximal suffix is not a proper prefix of an earlier suffix. *)
Lemma cut_prefix_free s : 0 < s → s ≤ c → ¬ agree x (c - s) c (n - c).
Proof using Hmax.
  intros Hs Hsc Hag. destruct Hmax as [Hc Hm].
  assert (H1 := Hm (c - s) ltac:(lia) ltac:(lia)).
  assert (H2 := lex_drop_prefix inv x c (c - s) (n - c) ltac:(lia) ltac:(lia) (agree_sym _ _ _ _ Hag)).
  by rewrite (lex_lt_asym _ _ _ H2) in H1.
Qed.

(** Nor is it preceded by a copy of its own beginning. *)
Lemma cut_repeat_free b : 0 < b → b ≤ c → c + b ≤ n → ¬ agree x (c - b) c b.
Proof using Hmax.
  intros Hb Hbc Hcb Hag. destruct Hmax as [Hc Hm].
  destruct (drop_agree x (c - b) c b) as (l & E1 & E2); [lia|lia|done|].
  replace (c - b + b) with c in E1 by lia.
  assert (H1 := Hm (c - b) ltac:(lia) ltac:(lia)). assert (H2 := Hm (c + b) ltac:(lia) ltac:(lia)).
  assert (H3 : lex_lt inv (l ++ drop c x) (l ++ drop (c + b) x) = true) by by rewrite <- E1, <- E2.
  rewrite lex_lt_app_common in H3. by rewrite (lex_lt_asym _ _ _ H3) in H2.
Qed.

Context (c' : nat).
Hypothesis Hmax' : max_suffix (negb inv) x c'.
Hypothesis Hcc : c' ≤ c.

(** Two suffixes [r] apart that agree up to [L] differ at [L] in the
    same direction for every start before [L]: the maximal suffix for
    the order and the one for the inverted order, both at or before the
    cut, make the two directions clash. *)
Lemma max_suffix_step r L :
  0 < r → c ≤ L → L + r < n →
  agree x (c + r) c (L - c) → agree x (c' + r) c' (L - c') → char_at x (L + r) = char_at x L.
Proof using Hmax Hmax' Hcc.
  intros Hr HL HLr Hag Hag'.
  destruct (decide (char_at x (L + r) = char_at x L)) as [|Hne]; [done|exfalso].
  destruct Hmax as [_ Hm]. destruct Hmax' as [_ Hm'].
  assert (H1 := Hm (c + r) ltac:(lia) ltac:(lia)).
  assert (H2 := Hm' (c' + r) ltac:(lia) ltac:(lia)).
  assert (E1 : c + r + (L - c) = L + r) by lia. assert (E2 : c + (L - c) = L) by lia.
  assert (E1' : c' + r + (L - c') = L + r) by lia. assert (E2' : c' + (L - c') = L) by lia.
  rewrite (lex_drop_diff _ _ _ _ (L - c)), E1, E2 in H1; [|lia|lia|done|by rewrite E1, E2].
  rewrite (lex_drop_diff _ _ _ _ (L - c')), E1', E2', char_lt_negb in H2; [|lia|lia|done|by rewrite E1', E2'].
  by rewrite (char_lt_asym _ _ _ H1) in H2.
Qed.

(** A shift [s] at most [i - c] under which the needle matches itself
    from the cut up to [i] also matches it at [i]. *)
Lemma right_shift_pure s i :
  0 < s → c + s ≤ i → i < n →
  (∀ j, c - s ≤ j → j < i - s → char_at x j = char_at x (j + s)) → char_at x (i - s) = char_at x i.
Proof using Hmax Hmax' Hcc.
  intros Hs Hsi Hi Hrel. destruct (decide (char_at x (i - s) = char_at x i)) as [|Hne]; [done|exfalso].
  destruct (decide (s ≤ c)) as [Hsc|Hsc].
  - destruct Hmax as [_ Hm].
    assert (H1 := Hm (c - s) ltac:(lia) ltac:(lia)). assert (H2 := Hm (c + s) ltac:(lia) ltac:(lia)).
    rewrite (lex_drop_diff _ _ _ _ (i - c)) in H1; [| lia | lia | |].
    + rewrite (lex_drop_diff _ _ _ _ (i - s - c)) in H2; [| lia | lia | |].
      * replace (c - s + (i - c)) with (i - s) in H1 by lia. replace (c + (i - c)) with i in H1 by lia.
        replace (c + s + (i - s - c)) with i in H2 by lia. replace (c + (i - s - c)) with (i - s) in H2 by lia.
        by rewrite (char_lt_asym _ _ _ H1) in H2.
      * intros u Hu. replace (c + s + u) with (c + u + s) by lia. symmetry. apply Hrel; lia.
      * replace (c + s + (i - s - c)) with i by lia. replace (c + (i - s - c)) with (i - s) by lia. auto.
    + intros u Hu. replace (c + u) with (c - s + u + s) by lia. apply Hrel; lia.
    + replace (c - s + (i - c)) with (i - s) by lia. by replace (c + (i - c)) with i by lia.
  - apply Hne. symmetry. replace i with (i - s + s) at 1 by lia. apply max_suffix_step; [lia..| |].
    + intros u Hu. replace (c + s + u) with (c + u + s) by lia. symmetry. apply Hrel; lia.
    + intros u Hu. replace (c' + s + u) with (c' + u + s) by lia. symmetry. apply Hrel; lia.
Qed.

(** A shift that the needle repeats on the part before the cut is a
    period of the whole needle. *)
Lemma cut_period r :
  0 < r → (∀ m, m < c → m + r < n → char_at x m = char_at x (m + r)) → has_period x r.
Proof using Hmax Hmax' Hcc.
  intros Hr Hlow i. induction i as [i IH] using lt_wf_ind. intros Hi.
  destruct (decide (i < c)); [by apply Hlow|]. symmetry. apply max_suffix_step; [lia..| |].
  - intros u Hu. replace (c + r + u) with (c + u + r) by lia. symmetry. apply IH; lia.
  - intros u Hu. replace (c' + r + u) with (c' + u + r) by lia. symmetry. apply IH; lia.
Qed.

(** Every repetition at the cut is a period of the whole needle: the cut
    is critical. *)
Lemma cut_repetition_period r : 0 < r → repetition x c r → has_period x r.
Proof using Hmax Hmax' Hcc.
  intros Hr Hrep. destruct Hmax as [Hc _].
  destruct (decide (r ≤ c)) as [Hrc|Hrc].
  - exfalso. destruct (decide (c + r ≤ n)).
    + apply (cut_repeat_free r); [lia..|]. intros u Hu.
      replace (c - r + u) with (c + u - r) by lia. apply Hrep; lia.
    + apply (cut_prefix_free r); [lia..|]. intros u Hu.
      replace (c - r + u) with (c + u - r) by lia. apply Hrep; lia.
  - apply cut_period; [done|]. intros m Hm Hmr.
    specialize (Hrep (m + r - c)). replace (c + (m + r - c) - r) with m in Hrep by lia.
    replace (c + (m + r - c)) with (m + r) in Hrep by lia. apply Hrep; lia.
Qed.

(** A shift under which the needle matches itself from the cut on is
    longer than the part before the cut, and is a period. *)
Lemma period_from_right s :
  0 < s → (∀ m, c ≤ m + s → m + s < n → char_at x m = char_at x (m + s)) → c < s ∧ has_period x s.
Proof using Hmax Hmax' Hcc.
  intros Hs Hright. destruct (decide (s ≤ c)) as [Hsc|Hsc].
  - exfalso. apply (cut_prefix_free s); [done|done|]. intros u Hu.
    replace (c + u) with (c - s + u + s) by lia. apply Hright; lia.
  - split; [lia|]. apply cut_period; [done|]. intros m Hm Hms. apply Hright; lia.
Qed.

Context (pv : nat).
Hypothesis Hpv : 0 < pv.
Hypothesis Hcpv : c + pv ≤ n.
Hypothesis Hvper : has_period (drop c x) pv.
Hypothesis Hvmin : ∀ q, 0 < q < pv → ¬ has_period (drop c x) q.

(** A period of the needle longer than the left half and at most the
    right half is a multiple of the period of the right half, and then
    the left half repeats one period later. *)
Lemma period_multiple s : has_period x s → c < s → s + c ≤ n → s mod pv = 0.
Proof using Hmax Hmax' Hcc Hpv Hcpv Hvper Hvmin.
  intros Hs Hcs Hsn. destruct (decide (s mod pv = 0)) as [|Hb]; [done|exfalso].
  pose proof (Nat.div_mod_eq s pv) as Hdiv. pose proof (Nat.mod_upper_bound s pv ltac:(lia)) as Hbpv.
  set (b := s mod pv) in *. set (a := s / pv) in *. clearbody a b.
  assert (Hrel : ∀ m, c ≤ m + b → m + s < n → char_at x m = char_at x (m + b)).
  { intros m Hm Hms. rewrite (Hs m) by lia. rewrite (right_period_mult x c pv Hpv Hcpv Hvper a (m + b)) by nia.
    f_equal. nia. }
  destruct (decide (b ≤ c)) as [Hbc|Hbc].
  - apply (cut_repeat_free b); [lia|done|lia|]. intros u Hu.
    replace (c + u) with (c - b + u + b) by lia. apply Hrel; lia.
  - assert (Hb' : has_period x b).
    { apply cut_period; [lia|]. intros m Hm Hmb. apply Hrel; lia. }
    pose proof (period_ge_right x c pv Hpv Hcpv Hvmin b ltac:(lia) Hb'). lia.
Qed.

Lemma period_beyond_cut s :
  has_period x s → c < s → s + c ≤ n → ∀ k, k < c → char_at x k = char_at x (k + pv).
Proof using Hmax Hmax' Hcc Hpv Hcpv Hvper Hvmin.
  intros Hs Hcs Hsn k Hk. pose proof (period_multiple s Hs Hcs Hsn) as Hm.
  pose proof (Nat.div_mod_eq s pv) as Hdiv. rewrite Hm, Nat.add_0_r in Hdiv.
  pose proof (period_ge_right x c pv Hpv Hcpv Hvmin s ltac:(lia) Hs). set (a := s / pv) in *. clearbody a.
  destruct a as [|a]; [lia|].
  rewrite (Hs k) by lia. destruct (decide (k + pv < c)).
  - rewrite (Hs (k + pv)) by lia. rewrite (right_period_mult x c pv Hpv Hcpv Hvper 1 (k + s)) by lia. f_equal. lia.
  - rewrite (right_period_mult x c pv Hpv Hcpv Hvper a (k + pv)) by nia. f_equal. nia.
Qed.

End Cut.

(** ** What [_lex_search] and [_factorize] return *)

Lemma factorize_spec p :
  p ≠ [] →
  let '(c, pv) := factorize p in
  ∃ inv c', lex_result inv p (c, pv) ∧ max_suffix (negb inv) p c' ∧ c' ≤ c.
Proof.
  intros Hp. unfold factorize, lex_search.
  pose proof (lex_loop_spec false p (3 * length p) 0 1 0 1 (lex_inv_init _ _ Hp) ltac:(lia)) as H1.
  pose proof (lex_loop_spec true p (3 * length p) 0 1 0 1 (lex_inv_init _ _ Hp) ltac:(lia)) as H2.
  destruct (lex_loop _ false _ _ _ _ _) as [c1 p1], (lex_loop _ true _ _ _ _ _) as [c2 p2].
  case_bool_decide.
  - exists false, c2. split_and!; [done | apply H2 | lia].
  - exists true, c1. split_and!; [done | apply H1 | lia].
Qed.

(** C32: [_lex_search] returns the start of the largest suffix of the
    needle, for the order of the code points or the inverted one, and
    the smallest period of that suffix (at most its length). *)
Theorem lex_search_spec p inv : p ≠ [] → lex_result inv p (lex_search p inv).
Proof. intros Hp. apply lex_loop_spec; [by apply lex_inv_init | lia]. Qed.

Lemma lex_search_spec_witness :
  ⟪"banana"⟫ ≠ [] ∧ lex_result false ⟪"banana"⟫ (lex_search ⟪"banana"⟫ false) ∧
  lex_search ⟪"banana"⟫ false = (2, 2).
Proof. split_and!; [done | by apply lex_search_spec | reflexivity]. Defined.

(** C33: the cut of [_factorize] is critical (Crochemore and Perrin):
    a word is a repetition at the cut exactly when its length is a
    period of the whole needle, so the local period at the cut is the
    period of the needle. *)
Theorem factorize_critical p :
  p ≠ [] → ∀ r, 0 < r → repetition p (fst (factorize p)) r ↔ has_period p r.
Proof.
  intros Hp r Hr. pose proof (factorize_spec p Hp) as Hf.
  destruct (factorize p) as [c pv]. destruct Hf as (inv & c' & (Hmax & _) & Hmax' & Hcc). simpl.
  split; [by apply (cut_repetition_period p inv c Hmax c')|].
  intros Hper u Hu Hru Hcu. rewrite (Hper (c + u - r)) by lia. f_equal. lia.
Qed.

Lemma factorize_critical_witness :
  ⟪"abaab"⟫ ≠ [] ∧ fst (factorize ⟪"abaab"⟫) = 2 ∧
  (repetition ⟪"abaab"⟫ (fst (factorize ⟪"abaab"⟫)) 3 ↔ has_period ⟪"abaab"⟫ 3).
Proof. split_and!; [done | reflexivity | apply factorize_critical; [done | lia]]. Defined.

End MaxSuffix.
