(* ===== verification/TwoWay.v ===== *)
(** * The two-way search of [fastsearch.h]: [_two_way_find] and [adaptive_find]

    For long texts [FASTSEARCH] does not run [default_find] but the
    Crochemore–Perrin two-way algorithm, as CPython 3.12 writes it in
    [Objects/stringlib/fastsearch.h]:
    - [preprocess] is [_preprocess]: the critical cut and period of
      [_factorize] ([MaxSuffix]), the test [is_periodic] (the left half
      repeats one period later), for a needle that is not periodic the
      lower bound [max(cut, m - cut) + 1] on its period and the [gap]
      from its last character to the previous character of the same
      class modulo 64, and the table of [SHIFT_TYPE] (8-bit) Horspool
      shifts indexed by the code point modulo 64 ([table_fill]);
    - [horspool] is the inner skip loop of [_two_way];
    - [periodic_window] and [periodic_no_shift] are the periodic branch of
      [_two_way], with its [memory] of the part of the window known to
      match, and the two labels [periodicwindowloop] and [no_shift] its
      [goto]s jump to; [window_loop] is the branch for a needle that is
      not periodic;
    - [two_way_find] is [_two_way_find];
    - [adaptive_loop] and [adaptive_find] are [adaptive_find]: the loop
      of [default_find] that counts the characters it compares and hands
      the rest of the text to [_two_way_find] when they exceed a quarter
      of the needle and more than 2000 positions remain.
    All the loops run on fuel; the fuel given is enough (every round
    moves the window forward), which the correctness theorems show. *)

From S2P Require Import Prelude PyStr FastSearch MaxSuffix.
From stdpp Require Import sets.

Module TwoWay.
Import FastSearch MaxSuffix.

(** ** Preprocessing *)

(** [TABLE_SIZE], [TABLE_MASK] and [MAX_SHIFT] ([UINT8_MAX]). *)
Definition table_size : nat := 64.
Definition table_mask : N := 63.
Definition max_shift : nat := 255.

(** [STRINGLIB(prework)], without the needle and its length. *)
Record prework := Prework {
  pw_cut : nat;
  pw_period : nat;
  pw_gap : nat;
  pw_is_periodic : bool;
  pw_table : list nat
}.

(** [c & TABLE_MASK], the index of a code point in the table. *)
Definition char_class (c : N) : nat := N.to_nat (N.land c table_mask).

(** [table[c & TABLE_MASK]]. *)
Definition table_lookup (table : list nat) (c : N) : nat := default 0 (table !! char_class c).

(** The last loop of [_preprocess]: every class starts at
    [not_found_shift = min(m, MAX_SHIFT)]; then, for the last
    [not_found_shift] characters in order, the class of [needle[i]] gets
    the distance [m - 1 - i] to the end. *)
Definition table_fill (p : text) : list nat :=
  let m := length p in
  let not_found_shift := min m max_shift in
  foldl (λ table i, <[char_class (char_at p i) := m - 1 - i]> table)
    (replicate table_size not_found_shift) (seq (m - not_found_shift) not_found_shift).

(** The loop [for (i = m - 2; i >= 0; i--)] looking for the previous
    character of the class of the last one: the index found. *)
Fixpoint gap_search (p : text) (last : N) (i : nat) : option nat :=
  match i with
  | O => None
  | S i' => if bool_decide (N.land (char_at p i') table_mask = last) then Some i' else gap_search p last i'
  end.

(** [memcmp(needle, needle + period, cut)]. *)
Definition left_repeats (p : text) (cut period : nat) : bool :=
  forallb (λ i, bool_decide (char_at p i = char_at p (period + i))) (seq 0 cut).

(** [_preprocess]. *)
Definition preprocess (p : text) : prework :=
  let m := length p in
  let '(cut, period) := factorize p in
  let is_periodic := left_repeats p cut period in
  let '(period, gap) :=
    if is_periodic then (period, 0)
    else (max cut (m - cut) + 1,
          match gap_search p (N.land (char_at p (m - 1)) table_mask) (m - 1) with
          | Some i => m - 1 - i
          | None => m
          end) in
  Prework cut period gap is_periodic (table_fill p).

(** ** The search *)

(** The first [i] of [lo, lo + cnt)] with [needle[i] != window[i]]. *)
Fixpoint scan_mismatch (p h : text) (window lo cnt : nat) : option nat :=
  match cnt with
  | O => None
  | S cnt' =>
      if bool_decide (char_at p lo = char_at h (window + lo)) then scan_mismatch p h window (S lo) cnt'
      else Some lo
  end.

(** The Horspool loop: skip by [table[*window_last]] until the shift is
    0 ([Some] of the new [window_last]) or the window passes the end of
    the text ([None]: [return -1]). *)
Fixpoint horspool (fuel : nat) (h : text) (table : list nat) (wl : nat) : option nat :=
  match fuel with
  | O => None
  | S fuel' =>
      let shift := table_lookup table (char_at h wl) in
      if bool_decide (shift = 0) then Some wl
      else if bool_decide (length h ≤ wl + shift) then None
      else horspool fuel' h table (wl + shift)
  end.

(** The periodic branch: [periodic_window] is the label
    [periodicwindowloop] (with [memory = 0]), [periodic_no_shift] the
    label [no_shift]. *)
Fixpoint periodic_window (fuel : nat) (h p : text) (pw : prework) (wl : nat) : option nat :=
  match fuel with
  | O => None
  | S fuel' =>
      if bool_decide (wl < length h) then
        match horspool (S (length h)) h (pw_table pw) wl with
        | None => None
        | Some wl' => periodic_no_shift fuel' h p pw wl' 0
        end
      else None
  end
with periodic_no_shift (fuel : nat) (h p : text) (pw : prework) (wl memory : nat) : option nat :=
  match fuel with
  | O => None
  | S fuel' =>
      let m := length p in
      let cut := pw_cut pw in
      let window := wl + 1 - m in
      match scan_mismatch p h window (max cut memory) (m - max cut memory) with
      | Some i => periodic_window fuel' h p pw (wl + (i - cut + 1))
      | None =>
          match scan_mismatch p h window memory (cut - memory) with
          | Some _ =>
              let wl' := wl + pw_period pw in
              let memory' := m - pw_period pw in
              if bool_decide (length h ≤ wl') then None
              else
                let shift := table_lookup (pw_table pw) (char_at h wl') in
                if bool_decide (shift ≠ 0) then
                  let mem_jump := max cut memory' - cut + 1 in
                  periodic_window fuel' h p pw (wl' + max shift mem_jump)
                else periodic_no_shift fuel' h p pw wl' memory'
          | None => Some window
          end
      end
  end.

(** The branch for a needle that is not periodic (label [windowloop]):
    an early mismatch in the right half jumps by [gap], a late one past
    the mismatch, a mismatch in the left half by [max(gap, period)]. *)
Fixpoint window_loop (fuel : nat) (h p : text) (pw : prework) (wl : nat) : option nat :=
  match fuel with
  | O => None
  | S fuel' =>
      if bool_decide (wl < length h) then
        match horspool (S (length h)) h (pw_table pw) wl with
        | None => None
        | Some wl' =>
            let m := length p in
            let cut := pw_cut pw in
            let gap := pw_gap pw in
            let period := max gap (pw_period pw) in
            let gap_jump_end := min m (cut + gap) in
            let window := wl' + 1 - m in
            match scan_mismatch p h window cut (gap_jump_end - cut) with
            | Some _ => window_loop fuel' h p pw (wl' + gap)
            | None =>
                match scan_mismatch p h window gap_jump_end (m - gap_jump_end) with
                | Some i => window_loop fuel' h p pw (wl' + (i - cut + 1))
                | None =>
                    match scan_mismatch p h window 0 cut with
                    | Some _ => window_loop fuel' h p pw (wl' + period)
                    | None => Some window
                    end
                end
            end
        end
      else None
  end.

(** [_two_way(haystack, len_haystack, p)]: the window ends at
    [window_last = haystack + len_needle - 1]. *)
Definition two_way (h p : text) (pw : prework) : option nat :=
  if pw_is_periodic pw then periodic_window (2 * length h + 3) h p pw (length p - 1)
  else window_loop (S (length h)) h p pw (length p - 1).

(** [_two_way_find]. *)
Definition two_way_find (h p : text) : option nat := two_way h p (preprocess p).

(** [adaptive_find]: the loop of [default_find] with the count [hits] of
    the characters compared at candidates; past a quarter of the needle,
    with more than 2000 positions left, the rest of the text
    [s + i] goes to [_two_way_find]. *)
Fixpoint adaptive_loop (fuel : nat) (s p : text) (mask : N) (gap hits i : nat) : option nat :=
  match fuel with
  | O => None
  | S fuel' =>
      let m := length p in
      let mlast := m - 1 in
      let w := length s - m in
      if bool_decide (w < i) then None
      else if bool_decide (char_at s (i + mlast) = char_at p mlast) then
        match scan_mismatch p s i 0 mlast with
        | None => Some i
        | Some j =>
            let hits' := hits + j + 1 in
            if bool_decide (m / 4 < hits') && bool_decide (2000 < w - i) then
              (λ r, r + i) <$> two_way_find (drop i s) p
            else if negb (bloom mask (char_at s (i + m))) then adaptive_loop fuel' s p mask gap hits' (i + m + 1)
            else adaptive_loop fuel' s p mask gap hits' (i + gap + 1)
        end
      else if negb (bloom mask (char_at s (i + m))) then adaptive_loop fuel' s p mask gap hits (i + m + 1)
      else adaptive_loop fuel' s p mask gap hits (i + 1)
  end.

Definition adaptive_find (s p : text) : option nat :=
  let '(mask, gap) := FastSearch.preprocess p in adaptive_loop (S (length s)) s p mask gap 0 0.

(** ** What the proofs track *)

(** After the first [k] insertions: every entry is at most
    [not_found_shift], and at most the distance to the end of every
    character of its class inserted so far. *)
Definition table_inv (p : text) (k : nat) (t : list nat) : Prop :=
  let m := length p in
  let nfs := min m max_shift in
  length t = table_size ∧
  ∀ cl, cl < table_size → ∃ e, t !! cl = Some e ∧ e ≤ nfs ∧
    (∀ i, m - nfs ≤ i < m - nfs + k → char_class (char_at p i) = cl → e ≤ m - 1 - i) ∧
    (e = nfs ∨ ∃ i, m - nfs ≤ i < m - nfs + k ∧ char_class (char_at p i) = cl ∧ e = m - 1 - i).

(** No occurrence ends before [wl]: the windows left of the one ending
    at [wl] are ruled out. *)
Definition none_before (h p : text) (wl : nat) : Prop :=
  ∀ k, occurs_at h p k → wl ≤ k + length p - 1.

(** The [gap] of a needle that is not periodic: from [1] to [m], and no
    character of the class of the last one lies fewer than [gap] places
    before it. *)
Definition gap_ok (p : text) (gap : nat) : Prop :=
  1 ≤ gap ≤ length p ∧
  ∀ s, 1 ≤ s < gap → char_class (char_at p (length p - 1 - s)) ≠ char_class (char_at p (length p - 1)).

(** ** The shift table *)

Lemma char_class_lt c : char_class c < table_size.
Proof.
  unfold char_class, table_mask, table_size. change 63%N with (N.ones 6). rewrite N.land_ones.
  pose proof (N.mod_lt c (2 ^ 6) ltac:(done)). change (2 ^ 6)%N with 64%N in *. lia.
Qed.

Section Table.
Context (p : text).
Local Notation m := (length p).
Local Notation nfs := (min (length p) max_shift).

Lemma table_inv_fill k :
  k ≤ nfs →
  table_inv p k (foldl (λ table i, <[char_class (char_at p i) := m - 1 - i]> table)
                 (replicate table_size nfs) (seq (m - nfs) k)).
Proof.
  induction k as [|k IH]; intros Hk.
  - split; [apply length_replicate|]. intros cl Hcl. exists nfs.
    split; [by apply lookup_replicate_2|]. split_and!; [lia | intros; lia | by left].
  - rewrite seq_S, foldl_app. cbn [foldl]. destruct (IH ltac:(lia)) as [Hlen Hent].
    set (t := foldl _ _ _) in *. set (i0 := m - nfs + k).
    split; [by rewrite length_insert|]. intros cl Hcl.
    destruct (decide (cl = char_class (char_at p i0))) as [->|Hne].
    + exists (m - 1 - i0). split; [apply list_lookup_insert_eq; rewrite Hlen; apply char_class_lt|].
      split_and!; [lia | intros i Hi _; lia | right; exists i0; split_and!; first [lia|done]].
    + destruct (Hent cl Hcl) as (e & He & Hle & Hdist & Hach). exists e.
      rewrite list_lookup_insert_ne by done. split_and!; [done|done| |].
      * intros i Hi Hc. destruct (decide (i = i0)) as [->|]; [congruence|]. apply Hdist; [lia|done].
      * destruct Hach as [|(i & Hi & Hc & ->)]; [by left | right; exists i; split_and!; first [lia|done]].
Qed.

(** What a lookup in the table gives: a shift of at most
    [not_found_shift], by which no character of the class lies closer to
    the end of the needle, and 0 for the class of the last character. *)
Lemma table_lookup_spec c :
  let t := table_lookup (table_fill p) c in
  t ≤ nfs ∧ (∀ s, s < t → s < m → char_class (char_at p (m - 1 - s)) ≠ char_class c) ∧
  (0 < m → char_class c = char_class (char_at p (m - 1)) → t = 0) ∧
  (0 < m → t = 0 → char_class c = char_class (char_at p (m - 1))).
Proof.
  destruct (table_inv_fill nfs ltac:(lia)) as [Hlen Hent].
  destruct (Hent (char_class c) (char_class_lt c)) as (e & He & Hle & Hdist & Hach).
  unfold table_lookup, table_fill. cbn zeta. rewrite He. simpl. split_and!; [done| | |].
  - intros s Hs Hsm Hcl. assert (e ≤ m - 1 - (m - 1 - s)) by (apply Hdist; [lia|done]). lia.
  - intros Hm Hcl. assert (e ≤ m - 1 - (m - 1)) by (apply Hdist; [unfold max_shift; lia|done]). lia.
  - intros Hm ->. destruct Hach as [Hnfs|(i & Hi & Hc & Hi0)]; [unfold max_shift in Hnfs; lia|].
    assert (i = m - 1) as -> by lia. done.
Qed.

End Table.

(** ** Comparing the needle with a window *)

Lemma scan_mismatch_none p h w lo cnt :
  scan_mismatch p h w lo cnt = None ↔ ∀ i, lo ≤ i < lo + cnt → char_at p i = char_at h (w + i).
Proof.
  revert lo. induction cnt as [|cnt IH]; intros lo; cbn [scan_mismatch].
  { split; [intros _ i ?; lia | done]. }
  case_bool_decide as Heq.
  - rewrite IH. split.
    + intros H i Hi. destruct (decide (i = lo)) as [->|]; [done|]. apply H. lia.
    + intros H i Hi. apply H. lia.
  - split; [done|]. intros H. exfalso. apply Heq, H. lia.
Qed.

Lemma scan_mismatch_some p h w lo cnt i :
  scan_mismatch p h w lo cnt = Some i →
  lo ≤ i < lo + cnt ∧ char_at p i ≠ char_at h (w + i) ∧ ∀ j, lo ≤ j < i → char_at p j = char_at h (w + j).
Proof.
  revert lo. induction cnt as [|cnt IH]; intros lo; cbn [scan_mismatch]; [done|].
  case_bool_decide as Heq.
  - intros (? & ? & Hbefore)%IH. split_and!; [lia|lia|done|].
    intros j Hj. destruct (decide (j = lo)) as [->|]; [done|]. apply Hbefore. lia.
  - intros [= <-]. split_and!; [lia|lia|done|]. intros j ?; lia.
Qed.

(** ** The first occurrence, from windows ruled out *)

Lemma find_naive_found h p w :
  occurs_at h p w → (∀ k, k < w → ¬ occurs_at h p k) → find_naive h p = Some w.
Proof. intros Hw Hbefore. apply (find_from_first h p 0 w Hw Hbefore). Qed.

Lemma find_naive_absent h p w :
  (∀ k, k < w → ¬ occurs_at h p k) → (∀ k, w ≤ k → ¬ occurs_at h p k) → find_naive h p = None.
Proof.
  intros H1 H2. apply find_from_none. intros k. destruct (decide (k < w)); [by apply H1|]. apply H2. lia.
Qed.

Section Search.
Context (h p : text).
Hypothesis Hp : p ≠ [].
Local Notation m := (length p).
Local Notation n := (length h).
Local Notation occ k := (occurs_at h p k).

Lemma occ_chars k : occ k → k + m ≤ n ∧ ∀ j, j < m → char_at h (k + j) = char_at p j.
Proof using Hp. intros Hk. by apply occurs_at_chars. Qed.

(** An occurrence whose last character is read at [wl] with a shift
    [table[h[wl]]] that jumps past it is impossible. *)
Lemma table_skip_safe wl k :
  occ k → wl ≤ k + m - 1 < wl + table_lookup (table_fill p) (char_at h wl) → False.
Proof using Hp.
  intros Hk Hwl. destruct (occ_chars k Hk) as [Hkn Hchars].
  destruct (table_lookup_spec p (char_at h wl)) as (Hle & Hsafe & _ & _).
  assert (Hm : 0 < m) by (destruct p; simpl; [done | lia]).
  apply (Hsafe (k + m - 1 - wl)); [lia | unfold max_shift in Hle; lia |].
  replace (m - 1 - (k + m - 1 - wl)) with (wl - k) by lia.
  rewrite <- (Hchars (wl - k)) by lia. f_equal. f_equal. lia.
Qed.

(** The Horspool loop skips only windows that do not match. *)
Lemma horspool_spec fuel wl :
  wl < n → n - wl ≤ fuel →
  match horspool fuel h (table_fill p) wl with
  | Some wl' => wl ≤ wl' < n ∧ table_lookup (table_fill p) (char_at h wl') = 0 ∧
                ∀ k, occ k → wl ≤ k + m - 1 → wl' ≤ k + m - 1
  | None => ∀ k, occ k → wl ≤ k + m - 1 → False
  end.
Proof using Hp.
  revert wl. induction fuel as [|fuel IH]; intros wl Hwl Hf; [lia|]. cbn [horspool].
  case_bool_decide as H0; [split_and!; [lia|lia|done|done]|].
  case_bool_decide as Hend.
  - intros k Hk Hkw. destruct (occ_chars k Hk).
    destruct (decide (k + m - 1 < wl + table_lookup (table_fill p) (char_at h wl))); [|lia].
    by apply (table_skip_safe wl k).
  - specialize (IH (wl + table_lookup (table_fill p) (char_at h wl)) ltac:(lia) ltac:(lia)).
    destruct (horspool _ _ _ _) as [wl'|].
    + destruct IH as (? & ? & Hafter). split_and!; [lia|lia|done|].
      intros k Hk Hkw. apply Hafter; [done|].
      destruct (decide (k + m - 1 < wl + table_lookup (table_fill p) (char_at h wl))); [|lia].
      exfalso. by apply (table_skip_safe wl k).
    + intros k Hk Hkw. apply (IH k Hk).
      destruct (decide (k + m - 1 < wl + table_lookup (table_fill p) (char_at h wl))); [|lia].
      exfalso. by apply (table_skip_safe wl k).
Qed.

End Search.

(** ** What the search may conclude *)



Lemma gap_search_spec p last i :
  match gap_search p last i with
  | Some j => j < i ∧ N.land (char_at p j) table_mask = last ∧
              ∀ k, j < k < i → N.land (char_at p k) table_mask ≠ last
  | None => ∀ k, k < i → N.land (char_at p k) table_mask ≠ last
  end.
Proof.
  induction i as [|i IH]; cbn [gap_search]; [intros; lia|].
  case_bool_decide as Hi; [split_and!; [lia | done | intros; lia]|].
  destruct (gap_search p last i) as [j|].
  - destruct IH as (? & ? & Hk). split_and!; [lia | done |].
    intros k Hk'. destruct (decide (k = i)) as [->|]; [done|]. apply Hk. lia.
  - intros k Hk. destruct (decide (k = i)) as [->|]; [done|]. apply IH. lia.
Qed.

Lemma preprocess_gap p :
  p ≠ [] →
  gap_ok p (match gap_search p (N.land (char_at p (length p - 1)) table_mask) (length p - 1) with
            | Some i => length p - 1 - i
            | None => length p
            end).
Proof.
  intros Hp. assert (0 < length p) by (destruct p; simpl; [done | lia]). unfold char_class.
  pose proof (gap_search_spec p (N.land (char_at p (length p - 1)) table_mask) (length p - 1)) as Hg.
  destruct gap_search as [j|]; [destruct Hg as (? & _ & Hk)|]; (split; [lia|]);
    intros s Hs E%N2Nat.inj; [apply (Hk (length p - 1 - s)) | apply (Hg (length p - 1 - s))]; done || lia.
Qed.

Lemma none_before_shift h p wl d :
  p ≠ [] → length p - 1 ≤ wl → none_before h p wl →
  (∀ s, s < d → ¬ occurs_at h p (wl + 1 - length p + s)) → none_before h p (wl + d).
Proof.
  intros Hp Hwl Hnb Hs k Hk. specialize (Hnb k Hk). assert (0 < length p) by (destruct p; simpl; [done | lia]).
  destruct (decide (wl + d ≤ k + length p - 1)); [done|]. exfalso.
  apply (Hs (k + length p - 1 - wl)); [lia|]. by replace (wl + 1 - length p + _) with k by lia.
Qed.

Lemma none_before_end h p wl : p ≠ [] → length h ≤ wl → none_before h p wl → find_naive h p = None.
Proof.
  intros Hp Hwl Hnb. apply find_from_none. intros k Hk. specialize (Hnb k Hk).
  apply occurs_at_chars in Hk as [? _]; [|done]. assert (0 < length p) by (destruct p; simpl; [done | lia]). lia.
Qed.

Lemma none_before_found h p w :
  p ≠ [] → occurs_at h p w → none_before h p (w + length p - 1) → find_naive h p = Some w.
Proof.
  intros Hp Hw Hnb. apply find_naive_found; [done|]. intros k Hk Hocc. specialize (Hnb k Hocc).
  assert (0 < length p) by (destruct p; simpl; [done | lia]). lia.
Qed.

Lemma mismatch_not_occ h p w i :
  p ≠ [] → i < length p → char_at p i ≠ char_at h (w + i) → ¬ occurs_at h p w.
Proof. intros Hp Hi Hne (_ & Hch)%occurs_at_chars; [|done]. apply Hne. by rewrite Hch. Qed.

Lemma match_occ h p w :
  p ≠ [] → w + length p ≤ length h → (∀ j, j < length p → char_at p j = char_at h (w + j)) → occurs_at h p w.
Proof. intros Hp Hw Hch. apply occurs_at_chars; [done|]. split; [done|]. intros j Hj. by rewrite Hch. Qed.

(** ** The shifts of [_two_way] are safe *)

Section Shifts.
Context (h p : text).
Hypothesis Hp : p ≠ [].
Local Notation m := (length p).
Local Notation n := (length h).
Local Notation occ k := (occurs_at h p k).

(** Below [gap], a shift puts a character of another class under the
    last character of the window. *)
Lemma gap_safe w gap s :
  gap_ok p gap → char_class (char_at h (w + m - 1)) = char_class (char_at p (m - 1)) →
  1 ≤ s < gap → ¬ occ (w + s).
Proof using Hp.
  intros [Hg Hgap] Hcl Hs Hocc. destruct (occ_chars h p Hp _ Hocc) as [_ Hch].
  apply (Hgap s Hs). rewrite <- Hcl, <- (Hch (m - 1 - s)) by lia. do 3 f_equal. lia.
Qed.

(** A call of the Horspool loop from a window that follows every ruled
    out one: it either finds no occurrence at all, or stops at a window
    [wl'] with the same guarantee whose last character has the class of
    the last character of the needle. *)
Lemma horspool_window wl :
  wl < n → none_before h p wl →
  match horspool (S n) h (table_fill p) wl with
  | Some wl' => wl ≤ wl' < n ∧ none_before h p wl' ∧ table_lookup (table_fill p) (char_at h wl') = 0 ∧
                char_class (char_at h wl') = char_class (char_at p (m - 1))
  | None => find_naive h p = None
  end.
Proof using Hp.
  intros Hwl Hnb. pose proof (horspool_spec h p Hp (S n) wl Hwl ltac:(lia)) as Hh.
  destruct (horspool _ _ _ _) as [wl'|].
  - destruct Hh as (? & Hz & Hafter). split_and!; [lia | lia | | done |].
    + intros k Hk. apply (Hafter k Hk (Hnb k Hk)).
    + destruct (table_lookup_spec p (char_at h wl')) as (_ & _ & _ & H0). apply H0; [|done].
      destruct p; simpl; [done | lia].
  - apply find_from_none. intros k Hk. apply (Hh k Hk), Hnb, Hk.
Qed.

Context (inv : bool) (c c' : nat).
Hypothesis Hmax : max_suffix inv p c.
Hypothesis Hmax' : max_suffix (negb inv) p c'.
Hypothesis Hcc : c' ≤ c.

(** A mismatch at [i] right of the cut, after a match from the cut,
    rules out every shift up to [i - cut]. *)
Lemma right_shift_safe w i s :
  c ≤ i < m → (∀ j, c ≤ j < i → char_at p j = char_at h (w + j)) →
  char_at p i ≠ char_at h (w + i) → 1 ≤ s ≤ i - c → ¬ occ (w + s).
Proof using Hp Hmax Hmax' Hcc.
  intros Hi Hmatch Hmis Hs Hocc. destruct (occ_chars h p Hp _ Hocc) as [_ Hch].
  assert (Hsame : char_at p (i - s) = char_at p i).
  { apply (right_shift_pure p inv c Hmax c' Hmax' Hcc); [lia..|]. intros j Hj1 Hj2.
    rewrite <- (Hch j), (Hmatch (j + s)) by lia. f_equal. lia. }
  apply Hmis. rewrite <- Hsame, <- (Hch (i - s)) by lia. f_equal. lia.
Qed.

(** A shift that keeps an occurrence after a match of the whole right
    half is longer than the left half and a period of the needle. *)
Lemma right_matched_period w s :
  (∀ j, c ≤ j < m → char_at p j = char_at h (w + j)) → 1 ≤ s → occ (w + s) → c < s ∧ has_period p s.
Proof using Hp Hmax Hmax' Hcc.
  intros Hmatch Hs Hocc. destruct (occ_chars h p Hp _ Hocc) as [_ Hch].
  apply (period_from_right p inv c Hmax c' Hmax' Hcc s); [lia|]. intros j Hj1 Hj2.
  rewrite <- (Hch j), (Hmatch (j + s)) by lia. f_equal. lia.
Qed.



Context (pv : nat).
Hypothesis Hpv : 0 < pv.
Hypothesis Hcpv : c + pv ≤ m.
Hypothesis Hvper : has_period (drop c p) pv.
Hypothesis Hvmin : ∀ q, 0 < q < pv → ¬ has_period (drop c p) q.

(** *** A needle that is not periodic *)

Section NonPeriodic.
Context (pw : prework).
Hypothesis Hcut : pw_cut pw = c.
Hypothesis Htable : pw_table pw = table_fill p.
Hypothesis Hgap : gap_ok p (pw_gap pw).
Hypothesis Hperiod : pw_period pw = max c (m - c) + 1.
Hypothesis Hnp : ¬ ∀ k, k < c → char_at p k = char_at p (k + pv).

(** The loop [windowloop] from a window that follows every ruled out
    one returns the first occurrence, given one round per position. *)
Lemma window_loop_spec fuel wl :
  m - 1 ≤ wl → none_before h p wl → n + 1 - wl ≤ fuel → window_loop fuel h p pw wl = find_naive h p.
Proof using Hcc Hcpv Hcut Hgap Hmax Hmax' Hnp Hp Hperiod Hpv Htable Hvmin Hvper.
  pose proof (proj1 Hgap). revert wl. induction fuel as [|fuel IH]; intros wl Hwl Hnb Hf; cbn [window_loop].
  { symmetry. apply (none_before_end h p wl); [done | lia | done]. }
  case_bool_decide as Hlt; [| symmetry; apply (none_before_end h p wl); [done | lia | done]].
  pose proof (horspool_window wl Hlt Hnb) as Hh. rewrite Htable.
  destruct (horspool _ _ _ _) as [wl'|]; [|done]. destruct Hh as (Hwl' & Hnb' & _ & Hcl).
  rewrite Hcut, Hperiod. set (w := wl' + 1 - m).
  assert (Hw : w + m - 1 = wl') by (destruct p; simpl in *; [done | lia]). rewrite <- Hw in Hcl.
  destruct (scan_mismatch p h w c _) as [i|] eqn:E1.
  { apply scan_mismatch_some in E1 as (Hi & Hne & _). apply IH; [lia | | lia].
    apply none_before_shift; [done | lia | done |]. intros s Hs. fold w.
    destruct (decide (s = 0)) as [->|]; [rewrite Nat.add_0_r; apply (mismatch_not_occ h p w i); [done | lia | done]|].
    apply (gap_safe w (pw_gap pw)); [done | done | lia]. }
  rewrite scan_mismatch_none in E1.
  destruct (scan_mismatch p h w (min m (c + pw_gap pw)) _) as [i|] eqn:E2.
  { apply scan_mismatch_some in E2 as (Hi & Hne & Hbefore). apply IH; [lia | | lia].
    apply none_before_shift; [done | lia | done |]. intros s Hs. fold w.
    destruct (decide (s = 0)) as [->|]; [rewrite Nat.add_0_r; apply (mismatch_not_occ h p w i); [done | lia | done]|].
    apply (right_shift_safe w i); [lia | | done | lia]. intros j Hj.
    destruct (decide (j < min m (c + pw_gap pw))); [apply E1 | apply Hbefore]; lia. }
  rewrite scan_mismatch_none in E2.
  assert (Hright : ∀ j, c ≤ j < m → char_at p j = char_at h (w + j)).
  { intros j Hj. destruct (decide (j < min m (c + pw_gap pw))); [apply E1 | apply E2]; lia. }
  destruct (scan_mismatch p h w 0 c) as [i|] eqn:E3.
  { apply scan_mismatch_some in E3 as (Hi & Hne & _). apply IH; [lia | | lia].
    apply none_before_shift; [done | lia | done |]. intros s Hs. fold w.
    destruct (decide (s = 0)) as [->|]; [rewrite Nat.add_0_r; apply (mismatch_not_occ h p w i); [done | lia | done]|].
    destruct (decide (s < pw_gap pw)); [apply (gap_safe w (pw_gap pw)); [done | done | lia]|].
    intros Hocc. destruct (right_matched_period w s Hright) as [Hcs Hs']; [lia | done |].
    apply Hnp. apply (period_beyond_cut p inv c Hmax c' Hmax' Hcc pv Hpv Hcpv Hvper Hvmin s); [done | done | lia]. }
  rewrite scan_mismatch_none in E3. symmetry. apply none_before_found; [done | | by rewrite Hw].
  apply match_occ; [done | lia |]. intros j Hj. destruct (decide (j < c)); [apply E3 | apply Hright]; lia.
Qed.

End NonPeriodic.

(** *** A periodic needle *)

Section Periodic.
Hypothesis Hrep : ∀ k, k < c → char_at p k = char_at p (k + pv).

Lemma periodic_cut_lt : c < pv ∧ has_period p pv.
Proof using Hcc Hcpv Hmax Hmax' Hpv Hrep Hvper c c' inv p pv.
  pose proof (periodic_whole p c pv Hpv Hcpv Hvper Hrep) as Hwhole.
  apply (period_from_right p inv c Hmax c' Hmax' Hcc pv Hpv). intros j _ Hj. apply Hwhole. lia.
Qed.

(** A mismatch left of the cut after a match of the right half: no
    occurrence starts less than a period later. *)
Lemma left_mismatch_shift wl i :
  m - 1 ≤ wl → none_before h p wl → (∀ j, c ≤ j < m → char_at p j = char_at h (wl + 1 - m + j)) →
  i < m → char_at p i ≠ char_at h (wl + 1 - m + i) → none_before h p (wl + pv).
Proof using Hcc Hcpv Hmax Hmax' Hp Hpv Hvmin c c' h inv p pv.
  intros Hwl Hnb Hright Hi Hne. apply none_before_shift; [done | lia | done |]. intros s Hs Hocc.
  destruct (decide (s = 0)) as [->|].
  - rewrite Nat.add_0_r in Hocc. by apply (mismatch_not_occ h p _ i Hp Hi Hne).
  - destruct (right_matched_period _ s Hright) as [_ Hs']; [lia | done |].
    pose proof (period_ge_right p c pv Hpv Hcpv Hvmin s ltac:(lia) Hs'). lia.
Qed.

(** The [memory] after that shift: the window one period later matches
    the first [m - period] characters of the needle. *)
Lemma periodic_memory w :
  (∀ j, c ≤ j < m → char_at p j = char_at h (w + j)) → ∀ j, j < m - pv → char_at p j = char_at h (w + pv + j).
Proof using Hcc Hcpv Hmax Hmax' Hpv Hrep Hvper c c' h inv p pv.
  intros Hright j Hj. destruct periodic_cut_lt as [Hc Hw].
  rewrite (Hw j), Hright by lia. f_equal. lia.
Qed.

(** With [memory] characters known to match and a shift from the table
    that is not 0, no occurrence starts less than [mem_jump] later. *)
Lemma mem_jump_safe wl s :
  m - 1 ≤ wl → (∀ j, j < m - pv → char_at p j = char_at h (wl + 1 - m + j)) →
  table_lookup (table_fill p) (char_at h wl) ≠ 0 → 1 ≤ s ≤ m - pv - c → ¬ occ (wl + 1 - m + s).
Proof using Hcc Hcpv Hmax Hmax' Hp Hpv c c' h inv p pv.
  intros Hwl Hmem Hsh Hs Hocc. destruct (occ_chars h p Hp _ Hocc) as [_ Hch].
  assert (Hper : has_period p s).
  { apply (cut_period p inv c Hmax c' Hmax' Hcc s); [lia|]. intros j Hj Hjs.
    rewrite <- (Hch j), (Hmem (j + s)) by lia. f_equal. lia. }
  destruct (table_lookup_spec p (char_at h wl)) as (_ & _ & H0 & _). apply Hsh, H0; [lia|].
  replace (char_at p (m - 1)) with (char_at p (m - 1 - s)) by (rewrite (Hper (m - 1 - s)) by lia; f_equal; lia).
  rewrite <- (Hch (m - 1 - s)) by lia. do 2 f_equal. lia.
Qed.

Context (pw : prework).
Hypothesis Hcut : pw_cut pw = c.
Hypothesis Htable : pw_table pw = table_fill p.
Hypothesis Hperiod : pw_period pw = pv.

(** The labels [periodicwindowloop] and [no_shift], by induction on the
    fuel: from a window that follows every ruled out one (and, at
    [no_shift], a [memory] that matches), they return the first
    occurrence, given two rounds per position. *)
Lemma periodic_spec fuel :
  (∀ wl, m - 1 ≤ wl → none_before h p wl → 2 * (n - wl) + 1 ≤ fuel →
     periodic_window fuel h p pw wl = find_naive h p) ∧
  (∀ wl mem, m - 1 ≤ wl < n → none_before h p wl → mem ≤ m →
     (∀ j, j < mem → char_at p j = char_at h (wl + 1 - m + j)) → 2 * (n - wl) ≤ fuel →
     periodic_no_shift fuel h p pw wl mem = find_naive h p).
Proof using Hcc Hcpv Hcut Hmax Hmax' Hp Hperiod Hpv Hrep Htable Hvmin Hvper c.
  assert (Hm : 0 < m) by (destruct p; simpl; [done | lia]).
  induction fuel as [|fuel [IHw IHn]]; [split; intros; lia|]. split.
  - intros wl Hwl Hnb Hf. cbn [periodic_window].
    case_bool_decide as Hlt; [| symmetry; apply (none_before_end h p wl); [done | lia | done]].
    pose proof (horspool_window wl Hlt Hnb) as Hh. rewrite Htable.
    destruct (horspool _ _ _ _) as [wl'|]; [|done]. destruct Hh as (? & Hnb' & _ & _).
    apply IHn; [lia | done | lia | intros; lia | lia].
  - intros wl mem Hwl Hnb Hmem Hmemory Hf. cbn [periodic_no_shift]. rewrite Hcut. set (w := wl + 1 - m).
    destruct (scan_mismatch p h w (max c mem) _) as [i|] eqn:E1.
    { apply scan_mismatch_some in E1 as (Hi & Hne & Hbefore). apply IHw; [lia | | lia].
      apply none_before_shift; [done | lia | done |]. intros s Hs. fold w.
      destruct (decide (s = 0)) as [->|]; [rewrite Nat.add_0_r; apply (mismatch_not_occ h p w i); [done | lia | done]|].
      apply (right_shift_safe w i); [lia | | done | lia]. intros j Hj.
      destruct (decide (j < mem)); [apply Hmemory | apply Hbefore]; lia. }
    rewrite scan_mismatch_none in E1.
    assert (Hright : ∀ j, c ≤ j < m → char_at p j = char_at h (w + j)).
    { intros j Hj. destruct (decide (j < mem)); [apply Hmemory | apply E1]; lia. }
    destruct (scan_mismatch p h w mem (c - mem)) as [i|] eqn:E2; cycle 1.
    { rewrite scan_mismatch_none in E2. symmetry.
      apply none_before_found; [done | | by replace (w + m - 1) with wl by lia].
      apply match_occ; [done | lia |]. intros j Hj.
      destruct (decide (j < mem)); [apply Hmemory | destruct (decide (j < c)); [apply E2 | apply Hright]]; lia. }
    apply scan_mismatch_some in E2 as (Hi & Hne & _). rewrite Hperiod.
    pose proof (left_mismatch_shift wl i ltac:(lia) Hnb Hright ltac:(lia) Hne) as Hnb'.
    pose proof (periodic_memory w Hright) as Hmem'.
    case_bool_decide as Hend; [symmetry; apply (none_before_end h p (wl + pv)); [done | lia | done]|].
    rewrite Htable. case_bool_decide as Hsh.
    + apply IHw; [lia | | lia]. apply (none_before_shift h p (wl + pv)); [done | lia | done |].
      intros s Hs. destruct (decide (s < table_lookup (table_fill p) (char_at h (wl + pv)))).
      * intros Hocc. apply (table_skip_safe h p Hp (wl + pv) _ Hocc). lia.
      * apply (mem_jump_safe (wl + pv)); [lia | | done | lia]. intros j Hj.
        replace (wl + pv + 1 - m + j) with (w + pv + j) by lia. by apply Hmem'.
    + apply IHn; [lia | done | lia | | lia]. intros j Hj.
      replace (wl + pv + 1 - m + j) with (w + pv + j) by lia. apply Hmem'. lia.
Qed.

End Periodic.

End Shifts.

Lemma left_repeats_spec p c pv :
  left_repeats p c pv = true ↔ ∀ k, k < c → char_at p k = char_at p (k + pv).
Proof.
  unfold left_repeats. rewrite forallb_forall. split.
  - intros H k Hk. assert (Hin : In k (seq 0 c)) by (apply in_seq; lia).
    apply H, bool_decide_eq_true in Hin. rewrite Hin. f_equal. lia.
  - intros H k Hk%in_seq. apply bool_decide_eq_true. rewrite H by lia. f_equal. lia.
Qed.

(** ** What [_preprocess] computes *)

(** A period of the needle is longer than the part before a maximal
    suffix. *)
Lemma period_gt_cut p inv c q :
  max_suffix inv p c → 0 < q → has_period p q → c < q.
Proof.
  intros Hmax Hq Hper. destruct (decide (c < q)); [done|exfalso].
  apply (cut_prefix_free p inv c Hmax q Hq ltac:(lia)). intros t Ht.
  destruct Hmax as [Hc _]. rewrite (Hper (c - q + t)) by lia. f_equal. lia.
Qed.

(** C36: the table of [_preprocess] has [TABLE_SIZE] entries, each at
    most [not_found_shift = min(m, MAX_SHIFT)], so that it fits the
    8-bit [SHIFT_TYPE]; the class of the last character of the needle
    has the shift 0, where the Horspool loop stops. *)
Theorem table_fill_bounds p :
  p ≠ [] →
  length (table_fill p) = table_size ∧
  (∀ cl e, table_fill p !! cl = Some e → e ≤ min (length p) max_shift) ∧
  table_lookup (table_fill p) (char_at p (length p - 1)) = 0.
Proof.
  intros Hp. destruct (table_inv_fill p (min (length p) max_shift) ltac:(lia)) as [Hlen Hent].
  split_and!; [done | |].
  - intros cl e He. assert (Hcl : cl < table_size) by (rewrite <- Hlen; eapply lookup_lt_Some, He).
    destruct (Hent cl Hcl) as (e' & He' & Hle & _).
    assert (e = e') by (unfold table_fill in He; cbn zeta in He; congruence). lia.
  - destruct (table_lookup_spec p (char_at p (length p - 1))) as (_ & _ & H0 & _).
    apply H0; [destruct p; simpl; [done | lia] | done].
Qed.

Lemma table_fill_bounds_witness :
  ⟪"abcab"⟫ ≠ [] ∧ length (table_fill ⟪"abcab"⟫) = table_size ∧
  table_fill ⟪"abcab"⟫ !! char_class 97%N = Some 1.
Proof.
  split_and!; [done | apply table_fill_bounds; done | reflexivity].
Defined.

(** C37: [_preprocess] gets the period right: when [is_periodic] holds,
    [period] is the smallest period of the needle; otherwise every period
    of the needle is at least the [max(cut, m - cut) + 1] it uses.  The
    cut lies inside the needle. *)
Theorem preprocess_period p :
  p ≠ [] →
  pw_cut (preprocess p) < length p ∧
  (pw_is_periodic (preprocess p) = true →
     has_period p (pw_period (preprocess p)) ∧ ∀ q, 0 < q < pw_period (preprocess p) → ¬ has_period p q) ∧
  (pw_is_periodic (preprocess p) = false → ∀ q, 0 < q → has_period p q → pw_period (preprocess p) ≤ q).
Proof.
  intros Hp. pose proof (factorize_spec p Hp) as Hf. unfold preprocess.
  destruct (factorize p) as [c pv]. destruct Hf as (inv & c' & (Hmax & Hpv & Hcpv & Hvper & Hvmin) & Hmax' & Hcc).
  destruct (left_repeats p c pv) eqn:Hlr; cbn [pw_cut pw_period pw_is_periodic]; (split; [lia|]).
  - rewrite left_repeats_spec in Hlr. split; [|done]. intros _.
    split; [apply (periodic_whole p c pv Hpv Hcpv Hvper Hlr)|]. intros q Hq Hqp.
    pose proof (period_ge_right p c pv Hpv Hcpv Hvmin q ltac:(lia) Hqp). lia.
  - split; [done|]. intros _ q Hq Hqp. pose proof (period_gt_cut p inv c q Hmax Hq Hqp).
    destruct (decide (q + c ≤ length p)); [|lia]. exfalso.
    assert (left_repeats p c pv = true) as Hcon; [|congruence]. apply left_repeats_spec.
    apply (period_beyond_cut p inv c Hmax c' Hmax' Hcc pv Hpv Hcpv Hvper Hvmin q); [done | lia | lia].
Qed.

Lemma preprocess_period_witness :
  ⟪"aabab"⟫ ≠ [] ∧ pw_is_periodic (preprocess ⟪"aabab"⟫) = false ∧ pw_period (preprocess ⟪"aabab"⟫) = 4 ∧
  (∀ q, 0 < q → has_period ⟪"aabab"⟫ q → pw_period (preprocess ⟪"aabab"⟫) ≤ q).
Proof.
  split_and!; [done | reflexivity | reflexivity |]. apply preprocess_period; [done | reflexivity].
Defined.

(** ** [_two_way_find] returns the first occurrence *)

Lemma two_way_find_naive h p : p ≠ [] → two_way_find h p = find_naive h p.
Proof.
  intros Hp. pose proof (factorize_spec p Hp) as Hf. unfold two_way_find, preprocess.
  destruct (factorize p) as [c pv]. destruct Hf as (inv & c' & (Hmax & Hpv & Hcpv & Hvper & Hvmin) & Hmax' & Hcc).
  assert (Hnb : none_before h p (length p - 1)) by (intros k _; lia).
  unfold two_way. destruct (left_repeats p c pv) eqn:Hlr; cbn [pw_is_periodic].
  - rewrite left_repeats_spec in Hlr.
    eapply (proj1 (periodic_spec h p Hp inv c c' Hmax Hmax' Hcc pv Hpv Hcpv Hvper Hvmin Hlr _ _ _ _ _));
      first [reflexivity | done | lia].
  - assert (Hnp : ¬ ∀ k, k < c → char_at p k = char_at p (k + pv)) by (rewrite <- left_repeats_spec; congruence).
    eapply (window_loop_spec h p Hp inv c c' Hmax Hmax' Hcc pv Hpv Hcpv Hvper Hvmin _ _ _ _ _ Hnp);
      first [reflexivity | apply (preprocess_gap p Hp) | done | lia].
  Unshelve. all: first [reflexivity | apply (preprocess_gap p Hp)].
Qed.

(** ** The search from an offset *)

Lemma find_from_spec s p i :
  match find_from s p i with
  | Some r => ∃ k, r = i + k ∧ occurs_at s p k ∧ ∀ j, j < k → ¬ occurs_at s p j
  | None => ∀ k, ¬ occurs_at s p k
  end.
Proof.
  revert i. induction s as [|ch s IH]; intros i; cbn [find_from].
  - destruct (PyStr.startswith _ p) eqn:E.
    + exists 0. split_and!; [lia | done | intros; lia].
    + intros k. unfold occurs_at. rewrite drop_nil. by rewrite E.
  - destruct (PyStr.startswith _ p) eqn:E.
    + exists 0. split_and!; [lia | done | intros; lia].
    + specialize (IH (S i)). destruct (find_from s p (S i)) as [r|].
      * destruct IH as (k & -> & Hk & Hb). exists (S k). split_and!; [lia | done |].
        intros [|j] Hj; unfold occurs_at; cbn [drop]; [by rewrite E | exact (Hb j ltac:(lia))].
      * intros [|k]; unfold occurs_at; cbn [drop]; [by rewrite E | exact (IH k)].
Qed.

Lemma occurs_at_drop s p i k : occurs_at (drop i s) p k ↔ occurs_at s p (i + k).
Proof. unfold occurs_at. by rewrite drop_drop. Qed.

(** The search of the rest of the text from [i], moved back by [i], is
    the search of the whole text when no occurrence starts before [i]. *)
Lemma find_naive_drop s p i :
  (∀ k, k < i → ¬ occurs_at s p k) → (λ r, r + i) <$> find_naive (drop i s) p = find_naive s p.
Proof.
  intros Hbefore. pose proof (find_from_spec (drop i s) p 0) as Hf. unfold find_naive.
  destruct (find_from (drop i s) p 0) as [r|]; simpl.
  - destruct Hf as (k & -> & Hk & Hb). symmetry. apply (find_from_first s p 0 (k + i)).
    + rewrite Nat.add_comm. by apply occurs_at_drop.
    + intros j Hj. destruct (decide (j < i)); [by apply Hbefore|].
      replace j with (i + (j - i)) by lia. rewrite <- occurs_at_drop. apply Hb. lia.
  - symmetry. apply find_from_none. intros k. destruct (decide (k < i)); [by apply Hbefore|].
    replace k with (i + (k - i)) by lia. rewrite <- occurs_at_drop. apply Hf.
Qed.

(** ** [adaptive_find] returns the first occurrence *)

Section Adaptive.
Context (s p : text) (mask : N) (gap : nat).
Hypothesis Hp : p ≠ [].
Hypothesis Hmask : ∀ j, j < length p → bloom mask (char_at p j) = true.
Hypothesis Hgap_le : gap ≤ length p - 1.
Hypothesis Hgap : ∀ j, length p - 1 - gap ≤ j < length p - 1 → char_at p j ≠ char_at p (length p - 1).

(** The loop of [adaptive_find], entered at [i] with no occurrence
    before [i], returns the first occurrence, whether or not it hands
    the rest of the text to [_two_way_find]. *)
Lemma adaptive_loop_first fuel hits i :
  length p ≤ length s → length s - length p + 2 ≤ fuel + i →
  (∀ k, k < i → ¬ occurs_at s p k) → adaptive_loop fuel s p mask gap hits i = find_naive s p.
Proof using Hp Hmask Hgap Hgap_le.
  intros Hps. revert hits i. induction fuel as [|fuel IH]; intros hits i Hfuel Hbefore; cbn [adaptive_loop].
  { symmetry. apply find_from_none. intros k. destruct (decide (k < i)); [by apply Hbefore|].
    apply (no_occ_beyond s p Hp). lia. }
  case_bool_decide as Hw.
  { symmetry. apply find_from_none. intros k. destruct (decide (k < i)); [by apply Hbefore|].
    apply (no_occ_beyond s p Hp). lia. }
  assert (Hskip : ∀ hits' i', i < i' → (∀ k, i < k < i' → ¬ occurs_at s p k) →
           ¬ occurs_at s p i → adaptive_loop fuel s p mask gap hits' i' = find_naive s p)
    by (intros hits' i' ? Hmid Hi; apply IH; [lia | by apply (no_occ_extend s p i)]).
  case_bool_decide as Hlast.
  - destruct (scan_mismatch p s i 0 (length p - 1)) as [j|] eqn:Hscan.
    + apply scan_mismatch_some in Hscan as (Hj & Hne & _).
      pose proof (mismatch_not_occ s p i j Hp ltac:(lia) Hne) as Hi.
      destruct (_ && _); [rewrite two_way_find_naive by done; by apply find_naive_drop|].
      destruct (bloom mask (char_at s (i + length p))) eqn:Hb; simpl.
      * apply Hskip; [lia | | done]. intros k Hk. apply (skip_gap s p Hp gap Hgap_le Hgap i Hlast). lia.
      * apply Hskip; [lia | | done]. intros k Hk. apply (skip_mask s p Hp mask Hmask i Hb). lia.
    + rewrite scan_mismatch_none in Hscan. symmetry. apply (find_from_first s p 0 i); [|done].
      apply match_occ; [done | lia |]. intros j Hj.
      destruct (decide (j = length p - 1)) as [->|]; [by rewrite Hlast | apply Hscan; lia].
  - pose proof (miss_last s p Hp i Hlast) as Hi.
    destruct (bloom mask (char_at s (i + length p))) eqn:Hb; simpl.
    + apply Hskip; [lia | intros; lia | done].
    + apply Hskip; [lia | | done]. intros k Hk. apply (skip_mask s p Hp mask Hmask i Hb). lia.
Qed.

End Adaptive.

Lemma adaptive_find_naive s p : 1 ≤ length p ≤ length s → adaptive_find s p = find_naive s p.
Proof.
  intros Hl. assert (Hp : p ≠ []) by (destruct p; simpl in *; [lia | done]).
  unfold adaptive_find. pose proof (FastSearch.preprocess_spec p Hp) as Hpre.
  destruct (FastSearch.preprocess p) as [mask gap]. destruct Hpre as (Hm & Hg & Hgap).
  apply adaptive_loop_first; [done | done | done | done | lia | lia | intros; lia].
Qed.

(** C34: for every needle that is not empty, [_two_way_find] (critical
    factorization, the periodic branch with its memory and the branch
    with [gap] and the lower bound of the period, the Horspool table of
    [SHIFT_TYPE] entries) returns the first index at which the needle
    occurs, the result of the naive search. *)
Theorem two_way_find_first h p : p ≠ [] → two_way_find h p = find_naive h p.
Proof. apply two_way_find_naive. Qed.

Lemma two_way_find_first_witness :
  ⟪"abaab"⟫ ≠ [] ∧ two_way_find ⟪"aabaabaabab"⟫ ⟪"abaab"⟫ = find_naive ⟪"aabaabaabab"⟫ ⟪"abaab"⟫ ∧
  two_way_find ⟪"aabaabaabab"⟫ ⟪"abaab"⟫ = Some 1.
Proof. split_and!; [done | by apply two_way_find_first | reflexivity]. Defined.

(** C35: on a needle of [1 ≤ m ≤ n] characters, [adaptive_find]
    returns the first index at which the needle occurs, both when it
    stays in the loop of [default_find] and when, after more than [m/4]
    compared characters with more than 2000 positions left, it hands
    the rest of the text to [_two_way_find]. *)
Theorem adaptive_find_first s p : 1 ≤ length p ≤ length s → adaptive_find s p = find_naive s p.
Proof. apply adaptive_find_naive. Qed.

(** On 1100 copies of "ab" followed by "aab", the first candidate
    already compares more than [m/4] characters with more than 2000
    positions left: three rounds of the loop suffice, the rest is the
    two-way search. *)
Lemma adaptive_find_first_witness :
  1 ≤ length ⟪"aab"⟫ ≤ length (concat (repeat ⟪"ab"⟫ 1100) ++ ⟪"aab"⟫) ∧
  adaptive_find (concat (repeat ⟪"ab"⟫ 1100) ++ ⟪"aab"⟫) ⟪"aab"⟫ =
    find_naive (concat (repeat ⟪"ab"⟫ 1100) ++ ⟪"aab"⟫) ⟪"aab"⟫ ∧
  adaptive_find (concat (repeat ⟪"ab"⟫ 1100) ++ ⟪"aab"⟫) ⟪"aab"⟫ = Some 2200 ∧
  (let '(mask, gap) := FastSearch.preprocess ⟪"aab"⟫ in
   adaptive_loop 3 (concat (repeat ⟪"ab"⟫ 1100) ++ ⟪"aab"⟫) ⟪"aab"⟫ mask gap 0 0) = Some 2200.
Proof.
  assert (Hl : 1 ≤ length ⟪"aab"⟫ ≤ length (concat (repeat ⟪"ab"⟫ 1100) ++ ⟪"aab"⟫)) by (vm_compute; lia).
  split; [exact Hl|]. split; [apply adaptive_find_first; exact Hl|]. split; vm_compute; reflexivity.
Defined.

End TwoWay.
