(* ===== verification/Contains.v ===== *)
(** * [PyUnicode_Contains] and the dispatch of [FASTSEARCH]

    [s not in S] (line 12 of [src/checker.py]) calls
    [PyUnicode_Contains] ([Objects/unicodeobject.c]), which answers
    early on the storage kinds and the lengths, searches a needle of one
    character with [find_char], and otherwise calls [STRINGLIB(find)],
    whose [FASTSEARCH] picks [default_find], [_two_way_find] or
    [adaptive_find] by the lengths.  This file holds that dispatch over
    the searches of [FastSearch] and [TwoWay]; its theorem is that the
    whole of it answers as [PyStr.contains], the model of [in] the
    script's theorems use. *)

From S2P Require Import Prelude PyStr FastSearch TwoWay.
From Stdlib Require Import NArith.
From stdpp Require Import sets.

Module Contains.
Import FastSearch TwoWay.

(** [FASTSEARCH(s, n, p, m, -1, FAST_SEARCH)]. *)
Definition fastsearch (s p : text) : option nat :=
  let n := length s in
  let m := length p in
  if bool_decide (n < m) then None
  else if bool_decide (m ≤ 1) then
    (if bool_decide (m = 0) then None else find_char s (char_at p 0))
  else if bool_decide (n < 2500) || (bool_decide (m < 100) && bool_decide (n < 30000))
          || bool_decide (m < 6) then default_find s p
  else if bool_decide (Nat.shiftr m 2 * 3 < Nat.shiftr n 2) then TwoWay.two_way_find s p
  else TwoWay.adaptive_find s p.

(** [STRINGLIB(find)(str, len, sub, sub_len, 0)]: the empty needle is
    found at the offset. *)
Definition stringlib_find (s p : text) : option nat :=
  if bool_decide (length p = 0) then Some 0 else fastsearch s p.

(** [PyUnicode_KIND]: the width of the storage of a [str], from its
    largest code point. *)
Definition max_char (t : text) : N := foldr N.max 0%N t.

Definition kind (t : text) : nat :=
  if bool_decide (max_char t < 256)%N then 1
  else if bool_decide (max_char t < 65536)%N then 2
  else 4.

(** [PyUnicode_Contains(str, substr)]: a wider [substr] or a longer one
    is not contained; a one-character [substr] is searched by
    [findchar]; otherwise [substr] is widened to the kind of [str] (which
    leaves its code points unchanged) and [find] is called. *)
Definition unicode_contains (str substr : text) : bool :=
  if bool_decide (kind str < kind substr) then false
  else if bool_decide (length str < length substr) then false
  else if bool_decide (length substr = 1) then bool_decide (is_Some (find_char str (char_at substr 0)))
  else bool_decide (is_Some (stringlib_find str substr)).

(** ** The dispatch returns the first match *)

Lemma fastsearch_first s p : p ≠ [] → fastsearch s p = find_naive s p.
Proof.
  intros Hp. assert (length p ≠ 0) by (by destruct p).
  unfold fastsearch. case_bool_decide; [symmetry; by apply find_naive_too_long|].
  case_bool_decide.
  { rewrite bool_decide_false by lia. destruct p as [|c [|]]; simpl in *; [done | | lia].
    apply find_char_spec. }
  destruct (bool_decide (length s < 2500) || _ || _); [apply default_find_naive; lia|].
  case_bool_decide; [by apply two_way_find_naive | apply adaptive_find_naive; lia].
Qed.

(** ** The storage kind *)

Lemma max_char_app a b : max_char (a ++ b) = N.max (max_char a) (max_char b).
Proof. induction a as [|c a IH]; simpl; [lia|]. rewrite IH. lia. Qed.

Lemma max_char_infix sub s : infix_of sub s → (max_char sub ≤ max_char s)%N.
Proof. intros (l & r & ->). rewrite !max_char_app. lia. Qed.

Lemma kind_infix sub s : infix_of sub s → kind sub ≤ kind s.
Proof.
  intros Hin%max_char_infix. unfold kind.
  repeat case_bool_decide; lia.
Qed.

Lemma contains_bool_decide s p : bool_decide (is_Some (find_naive s p)) = PyStr.contains s p.
Proof.
  pose proof (find_naive_contains s p).
  destruct (PyStr.contains s p); [apply bool_decide_eq_true; naive_solver|].
  apply bool_decide_eq_false. intros ?%H. discriminate.
Qed.

(** ** [in] on [str] *)

(** C29: [PyUnicode_Contains], with its early answers on the storage
    kinds and the lengths, its one-character path and CPython's
    [FASTSEARCH] with its two-way searches, answers as
    [PyStr.contains]: [sub in s] holds exactly when [sub] is a
    contiguous substring of [s]. *)
Theorem unicode_contains_spec s sub : unicode_contains s sub = PyStr.contains s sub.
Proof.
  unfold unicode_contains. case_bool_decide as Hk.
  { symmetry. apply PyStr.contains_false. intros ?%kind_infix. lia. }
  case_bool_decide as Hl.
  { symmetry. apply PyStr.contains_false. intros ?%infix_of_length. lia. }
  case_bool_decide as H1.
  - destruct sub as [|c [|]]; simpl in H1; try lia.
    rewrite find_char_spec. apply contains_bool_decide.
  - unfold stringlib_find. destruct (decide (sub = [])) as [->|Hne].
    + rewrite (bool_decide_true (length [] = 0)) by done.
      by rewrite <- (contains_bool_decide s []), find_naive_nil.
    + rewrite (bool_decide_false (length sub = 0)) by (by destruct sub). rewrite fastsearch_first by done.
      apply contains_bool_decide.
Qed.

(** C38: [STRINGLIB(find)], as [PyUnicode_Contains] calls it, returns
    the first index at which the needle occurs (0 for the empty one),
    the result of the naive search, whichever of [find_char],
    [default_find], [_two_way_find] and [adaptive_find] the dispatch of
    [FASTSEARCH] picks. *)
Theorem stringlib_find_first s p : stringlib_find s p = find_naive s p.
Proof.
  unfold stringlib_find. case_bool_decide as Hl.
  - destruct p; [|done]. by rewrite find_naive_nil.
  - apply fastsearch_first. by intros ->.
Qed.

End Contains.
