(* ===== verification/PyInt.v ===== *)
(** * [int(str)] and [str(int)] as [checker.py] uses them

    Line 7 of the script parses the first line of the fragment file with
    [int(f.readline())], and line 18 prints [len(S)], which calls
    [str(int)].  Both are CPython built-ins, modelled here as CPython 3.11
    and later implement them:
    - [py_int] is [PyLong_FromUnicodeObject(s, 10)]: [transform] first maps
      every non-ASCII white space to a space and every non-ASCII decimal
      digit to its ASCII digit, failing on any other non-ASCII code point
      ([_PyUnicode_TransformDecimalAndSpaceToASCII]); [parse_ascii] is then
      [PyLong_FromString]: ASCII white space, an optional sign, digits with
      single underscores between them, at most [int_max_str_digits] digits,
      ASCII white space, end of text.  [None] is the [ValueError].
    - [py_str] is [str(z)]: an optional minus sign and the decimal digits of
      [|z|], or [None] (a [ValueError]) beyond [int_max_str_digits] digits.
    The Unicode decimal digit table is the [DecimalTable] class, so the
    theorems hold for every version of the Unicode database;
    [unicode_decimal_table] is the table of Unicode 15.0.0, the database
    of CPython 3.12, and the concrete runs use it.  [decimal_digits]
    runs on fuel, and the fuel it is given is proved enough. *)

From S2P Require Import Prelude.
From Stdlib Require Import NArith ZArith.

Module PyInt.

(** ** Definitions *)

(** [Py_ISSPACE]: the ASCII white space of C's [isspace]. *)
Definition is_ascii_space (c : char) : bool :=
  bool_decide (c ∈ [9; 10; 11; 12; 13; 32]%N).

(** [Py_UNICODE_ISSPACE]: Python's [str.isspace] on one code point. *)
Definition is_unicode_space (c : char) : bool :=
  bool_decide (c ∈ [9; 10; 11; 12; 13; 28; 29; 30; 31; 32; 133; 160; 5760;
                    8232; 8233; 8239; 8287; 12288]%N)
  || bool_decide (8192 ≤ c ≤ 8202)%N.

(** The decimal digit value of a non-ASCII code point
    ([Py_UNICODE_TODECIMAL]), from the Unicode database. *)
Class DecimalTable := {
  to_decimal : char → option N;
  to_decimal_lt_10 c d : to_decimal c = Some d → (d < 10)%N
}.

Definition is_digit (c : char) : bool := bool_decide (48 ≤ c ≤ 57)%N.

Definition int_max_str_digits : nat := 4300.

Section Parse.
Context `{!DecimalTable}.

(** One code point of [_PyUnicode_TransformDecimalAndSpaceToASCII]:
    ASCII below 127 is kept, white space becomes a space, a decimal
    digit becomes its ASCII digit, anything else stops the conversion
    (the [ValueError] that follows is certain). *)
Definition transform_char (c : char) : option char :=
  if bool_decide (c < 127)%N then Some c
  else if is_unicode_space c then Some SP
  else match to_decimal c with
       | Some d => Some (DIGIT0 + d)%N
       | None => None
       end.

Definition transform (s : text) : option text := mapM transform_char s.
End Parse.

Fixpoint skip_spaces (s : text) : text :=
  match s with
  | c :: s' => if is_ascii_space c then skip_spaces s' else s
  | [] => []
  end.

(** The optional sign; [true] for a minus. *)
Definition take_sign (s : text) : bool * text :=
  match s with
  | c :: s' =>
      if bool_decide (c = PLUS) then (false, s')
      else if bool_decide (c = MINUS) then (true, s')
      else (false, s)
  | [] => (false, [])
  end.

(** The scan loop of [PyLong_FromString]: the longest run of digits and
    underscores. *)
Fixpoint digit_run (s : text) : text * text :=
  match s with
  | c :: s' =>
      if is_digit c || bool_decide (c = UNDERSCORE) then
        let '(r, rest) := digit_run s' in (c :: r, rest)
      else ([], s)
  | [] => ([], [])
  end.

(** The run is well formed: it starts with a digit and has no doubled and
    no trailing underscore.  Starting with [prev_us = true] rejects a
    leading underscore and the empty run alike. *)
Fixpoint underscores_ok (prev_us : bool) (r : text) : bool :=
  match r with
  | [] => negb prev_us
  | c :: r' =>
      if bool_decide (c = UNDERSCORE) then negb prev_us && underscores_ok true r'
      else underscores_ok false r'
  end.

Definition digit_values (r : text) : list N :=
  (λ c, c - DIGIT0)%N <$> filter (λ c, c ≠ UNDERSCORE) r.

Definition digits_value (ds : list N) : N := foldl (λ acc d, 10 * acc + d)%N 0%N ds.

(** [PyLong_FromString(s, &end, 10)] followed by the check that [end] is
    the end of the text. *)
Definition parse_ascii (s : text) : option Z :=
  let '(neg, s2) := take_sign (skip_spaces s) in
  let '(run, rest) := digit_run s2 in
  if negb (underscores_ok true run) then None
  else
    let ds := digit_values run in
    if bool_decide (int_max_str_digits < length ds) then None
    else match skip_spaces rest with
         | [] => Some (if neg then (- Z.of_N (digits_value ds))%Z else Z.of_N (digits_value ds))
         | _ :: _ => None
         end.

(** [int(s)] on a [str]. *)
Definition py_int `{!DecimalTable} (s : text) : option Z := transform s ≫= parse_ascii.

(** Decimal digits of [n], most significant first, with fuel. *)
Fixpoint digits_fuel (fuel : nat) (n : N) (acc : list N) : list N :=
  match fuel with
  | O => acc
  | S f =>
      if bool_decide (n < 10)%N then n :: acc
      else digits_fuel f (n / 10)%N ((n mod 10)%N :: acc)
  end.

Definition decimal_digits (n : N) : list N := digits_fuel (S (N.to_nat (N.log2 n))) n [].

(** [str(z)] ([long_to_decimal_string]). *)
Definition py_str (z : Z) : option text :=
  let ds := decimal_digits (Z.abs_N z) in
  if bool_decide (int_max_str_digits < length ds) then None
  else Some ((if bool_decide (z < 0)%Z then [MINUS] else []) ++ ((λ d, DIGIT0 + d)%N <$> ds)).

(** White space that [int] skips: ASCII [isspace], and the non-ASCII
    Unicode white space that [transform] turns into a space.  The ASCII
    separators FS, GS, RS and US are [str.isspace] but not [int] white
    space. *)
Definition is_int_space (c : char) : bool :=
  is_ascii_space c || bool_decide (127 ≤ c)%N && is_unicode_space c.

(** The text [str] prints for a sign and a list of digits. *)
Definition number_text (neg : bool) (ds : list N) : text :=
  (if neg then [MINUS] else []) ++ ((λ d, DIGIT0 + d)%N <$> ds).

(** The Unicode database of CPython 3.12 ([unicodedata.unidata_version]
    is 15.0.0): the decimal digits ([Py_UNICODE_TODECIMAL] is defined
    exactly on general category Nd) come in 68 runs of ten consecutive
    code points, from a digit zero to a digit nine; these are the zeros. *)
Definition decimal_zeros : list N :=
  [0x30; 0x660; 0x6F0; 0x7C0; 0x966; 0x9E6; 0xA66; 0xAE6; 0xB66; 0xBE6; 0xC66; 0xCE6;
   0xD66; 0xDE6; 0xE50; 0xED0; 0xF20; 0x1040; 0x1090; 0x17E0; 0x1810; 0x1946; 0x19D0;
   0x1A80; 0x1A90; 0x1B50; 0x1BB0; 0x1C40; 0x1C50; 0xA620; 0xA8D0; 0xA900; 0xA9D0;
   0xA9F0; 0xAA50; 0xABF0; 0xFF10; 0x104A0; 0x10D30; 0x11066; 0x110F0; 0x11136; 0x111D0;
   0x112F0; 0x11450; 0x114D0; 0x11650; 0x116C0; 0x11730; 0x118E0; 0x11950; 0x11C50;
   0x11D50; 0x11DA0; 0x11F50; 0x16A60; 0x16AC0; 0x16B50; 0x1D7CE; 0x1D7D8; 0x1D7E2;
   0x1D7EC; 0x1D7F6; 0x1E140; 0x1E2F0; 0x1E4F0; 0x1E950; 0x1FBF0]%N.

(** The value of [c] in the first run that holds it. *)
Fixpoint digit_in_runs (zeros : list N) (c : char) : option N :=
  match zeros with
  | [] => None
  | z :: zeros' => if bool_decide (z ≤ c < z + 10)%N then Some (c - z)%N else digit_in_runs zeros' c
  end.

(** [_PyUnicode_ToDecimalDigit(c)] ([Objects/unicodectype.c]): the
    [decimal] field of the type record of [c] when its [DECIMAL_MASK] flag
    is set. *)
Definition unicode_to_decimal (c : char) : option N := digit_in_runs decimal_zeros c.

Lemma digit_in_runs_lt_10 zeros c d : digit_in_runs zeros c = Some d → (d < 10)%N.
Proof.
  induction zeros as [|z zeros IH]; simpl; [done|]. case_bool_decide; [intros [= <-]; lia | apply IH].
Qed.

(** The table of the Unicode database as the [DecimalTable] of the runs. *)
Definition unicode_decimal_table : DecimalTable :=
  {| to_decimal := unicode_to_decimal; to_decimal_lt_10 := digit_in_runs_lt_10 decimal_zeros |}.

(** ** The decimal printer: fuel and digits *)

Lemma digits_fuel_app f n acc : digits_fuel f n acc = digits_fuel f n [] ++ acc.
Proof.
  revert n acc; induction f as [|f IH]; intros n acc; simpl; [done|].
  case_bool_decide; [done|]. rewrite IH, (IH _ [_]). by rewrite <- app_assoc.
Qed.

Lemma digits_fuel_S f n acc :
  digits_fuel (S f) n acc =
  if bool_decide (n < 10)%N then n :: acc else digits_fuel f (n / 10)%N ((n mod 10)%N :: acc).
Proof. done. Qed.

Lemma pow10_succ k : (10 ^ N.of_nat (S k) = 10 * 10 ^ N.of_nat k)%N.
Proof. by rewrite Nat2N.inj_succ, N.pow_succ_r'. Qed.

Lemma div10_lt_pow n k : (n < 10 ^ N.of_nat (S k))%N → (n / 10 < 10 ^ N.of_nat k)%N.
Proof. rewrite pow10_succ. intros. apply N.Div0.div_lt_upper_bound. lia. Qed.

(** Fuel [S f] is enough for every [n < 10 ^ (f + 1)], and more fuel
    changes nothing. *)
Lemma digits_fuel_enough f g n acc :
  (n < 10 ^ N.of_nat (S f))%N → f ≤ g → digits_fuel (S f) n acc = digits_fuel (S g) n acc.
Proof.
  revert g n acc; induction f as [|f IH]; intros g n acc Hn Hfg.
  - cbn [digits_fuel]. case_bool_decide; [done|]. simpl in Hn. lia.
  - destruct g as [|g]; [lia|]. cbn [digits_fuel].
    case_bool_decide; [done|]. apply IH; [by apply div10_lt_pow | lia].
Qed.

Lemma log2_fuel_enough n : (n < 10 ^ N.of_nat (S (N.to_nat (N.log2 n))))%N.
Proof.
  destruct (decide (n = 0%N)) as [->|Hn]; [simpl; lia|].
  rewrite Nat2N.inj_succ, N2Nat.id.
  destruct (N.log2_spec n) as [_ Hlt]; [lia|].
  eapply N.lt_le_trans; [exact Hlt|]. apply N.pow_le_mono_l. lia.
Qed.

(** The recursion [decimal_digits] computes, free of fuel. *)
Lemma decimal_digits_eq n :
  decimal_digits n =
  if bool_decide (n < 10)%N then [n] else decimal_digits (n / 10) ++ [n mod 10]%N.
Proof.
  unfold decimal_digits. pose proof (log2_fuel_enough n) as Hn.
  remember (N.to_nat (N.log2 n)) as L eqn:HL. destruct L as [|L].
  - simpl. case_bool_decide; [done|]. simpl in Hn. lia.
  - rewrite digits_fuel_S. case_bool_decide; [done|]. rewrite digits_fuel_app.
    f_equal. destruct L as [|L].
    { destruct (N.log2_spec n) as [_ Hlt]; [lia|].
      rewrite <- (N2Nat.id (N.log2 n)), <- HL in Hlt. simpl in Hlt. lia. }
    assert (Hle : ∀ a b, a ≤ b ∨ b ≤ a) by lia.
    pose proof (log2_fuel_enough (n / 10)) as Hn'.
    apply div10_lt_pow in Hn.
    destruct (Hle (S L) (N.to_nat (N.log2 (n / 10)))).
    + apply digits_fuel_enough; [done | lia].
    + symmetry. apply digits_fuel_enough; [done | lia].
Qed.

Lemma digits_value_snoc l d : digits_value (l ++ [d]) = (10 * digits_value l + d)%N.
Proof. unfold digits_value. by rewrite foldl_app. Qed.

Section DecimalDigits.
Local Ltac digits_ind n IH :=
  induction n as [n IH] using (well_founded_induction N.lt_wf_0);
  rewrite decimal_digits_eq; case_bool_decide.

Lemma decimal_digits_value n : digits_value (decimal_digits n) = n.
Proof.
  digits_ind n IH; [done|].
  rewrite digits_value_snoc, IH by (apply N.div_lt; lia).
  symmetry. apply N.div_mod. lia.
Qed.

Lemma decimal_digits_lt_10 n : Forall (λ d, d < 10)%N (decimal_digits n).
Proof.
  digits_ind n IH; [by repeat constructor|].
  apply Forall_app. split; [apply IH; apply N.div_lt; lia|].
  constructor; [apply N.mod_lt; lia | done].
Qed.

Lemma decimal_digits_not_nil n : decimal_digits n ≠ [].
Proof. rewrite decimal_digits_eq. case_bool_decide; [done|]. by destruct (decimal_digits _). Qed.

(** [n] has at most [k] digits exactly when [n < 10 ^ k]. *)
Lemma decimal_digits_length_le n k :
  1 ≤ k → length (decimal_digits n) ≤ k ↔ (n < 10 ^ N.of_nat k)%N.
Proof.
  revert k. digits_ind n IH; intros k Hk; simpl.
  - split; [|lia]. intros _. destruct k as [|k]; [lia|].
    rewrite pow10_succ. pose proof (N.pow_nonzero 10 (N.of_nat k)). lia.
  - rewrite length_app. simpl. destruct k as [|[|k]]; [lia| |].
    + simpl. pose proof (length_zero_iff_nil (decimal_digits (n / 10))).
      pose proof (decimal_digits_not_nil (n / 10)). split; [|lia].
      intros. exfalso. destruct (decimal_digits (n / 10)); simpl in *; [done | lia].
    + rewrite (pow10_succ (S k)).
      transitivity (length (decimal_digits (n / 10)) ≤ S k); [lia|].
      rewrite (IH (n / 10)%N); [| apply N.div_lt; lia | lia].
      split; [|intros; apply N.Div0.div_lt_upper_bound; lia].
      intros Hlt. rewrite (N.div_mod n 10) by lia.
      pose proof (N.mod_lt n 10). lia.
Qed.
End DecimalDigits.

(** ** Character classes *)

Lemma ascii_space_range c : is_ascii_space c = true → (9 ≤ c ≤ 32)%N.
Proof.
  unfold is_ascii_space. rewrite bool_decide_eq_true.
  intros H. repeat (apply elem_of_cons in H as [->|H]; [lia|]). by apply elem_of_nil in H.
Qed.

Lemma digit_char_is_digit d : (d < 10)%N → is_digit (DIGIT0 + d)%N = true.
Proof. intros. unfold is_digit, DIGIT0. apply bool_decide_eq_true. lia. Qed.

Lemma digit_char_not_space d : (d < 10)%N → is_ascii_space (DIGIT0 + d)%N = false.
Proof.
  intros Hd. destruct (is_ascii_space _) eqn:E; [|done].
  apply ascii_space_range in E. unfold DIGIT0 in E. lia.
Qed.

Lemma space_not_digit c : is_ascii_space c = true → is_digit c = false ∧ c ≠ UNDERSCORE.
Proof.
  intros Hc%ascii_space_range. unfold is_digit, UNDERSCORE.
  rewrite bool_decide_eq_false_2 by lia. split; [done | lia].
Qed.

(** ** Parsing what [py_str] prints *)

Lemma skip_spaces_app ws s :
  Forall (λ c, is_ascii_space c = true) ws → skip_spaces (ws ++ s) = skip_spaces s.
Proof. induction 1 as [|c ws Hc _ IH]; simpl; [done|]. by rewrite Hc. Qed.

Lemma skip_spaces_stop c s : is_ascii_space c = false → skip_spaces (c :: s) = c :: s.
Proof. simpl. by intros ->. Qed.

Lemma skip_spaces_all ws : Forall (λ c, is_ascii_space c = true) ws → skip_spaces ws = [].
Proof. intros H. rewrite <- (app_nil_r ws), skip_spaces_app by done. done. Qed.

Lemma digit_run_digits ds rest :
  Forall (λ c, is_digit c = true) ds →
  Forall (λ c, is_ascii_space c = true) rest →
  digit_run (ds ++ rest) = (ds, rest).
Proof.
  intros Hds Hrest. induction Hds as [|c ds Hc _ IH]; simpl.
  - destruct Hrest as [|c r Hc%space_not_digit _]; [done|]. simpl.
    destruct Hc as [-> ?]. by rewrite bool_decide_eq_false_2.
  - by rewrite Hc, IH.
Qed.

Lemma underscores_ok_digits b ds :
  Forall (λ c, is_digit c = true) ds → ds ≠ [] → underscores_ok b ds = true.
Proof.
  intros Hds. revert b. induction Hds as [|c ds Hc Hds IH]; intros b Hne; [done|]. simpl.
  rewrite bool_decide_eq_false_2; last first.
  { intros ->. unfold is_digit, UNDERSCORE in Hc. apply bool_decide_eq_true in Hc. lia. }
  destruct ds as [|d ds]; [done|]. by apply IH.
Qed.

Lemma digit_values_digits ds :
  Forall (λ d, d < 10)%N ds → digit_values ((λ d, DIGIT0 + d)%N <$> ds) = ds.
Proof.
  induction 1 as [|d ds Hd _ IH]; [done|]. unfold digit_values in *.
  rewrite fmap_cons, filter_cons_True by (unfold DIGIT0, UNDERSCORE; lia).
  rewrite fmap_cons, IH.
  f_equal. unfold DIGIT0. lia.
Qed.

Lemma take_sign_number neg d ds rest :
  (d < 10)%N →
  take_sign (skip_spaces (number_text neg (d :: ds) ++ rest)) =
  (neg, ((λ d, DIGIT0 + d)%N <$> d :: ds) ++ rest).
Proof.
  intros Hd. unfold number_text. rewrite fmap_cons. destruct neg; cbn [app].
  - rewrite skip_spaces_stop by done. unfold take_sign.
    by rewrite bool_decide_eq_false_2, bool_decide_eq_true_2.
  - rewrite skip_spaces_stop by (by apply digit_char_not_space). unfold take_sign.
    unfold PLUS, MINUS, DIGIT0. by rewrite !bool_decide_eq_false_2 by lia.
Qed.

(** [PyLong_FromString] on a signed run of decimal digits between ASCII
    white space: the value, or the [ValueError] of the digit limit. *)
Lemma parse_ascii_number (ws1 : text) (neg : bool) (ds : list N) (ws2 : text) :
  Forall (λ c, is_ascii_space c = true) ws1 →
  Forall (λ c, is_ascii_space c = true) ws2 →
  Forall (λ d, d < 10)%N ds → ds ≠ [] →
  parse_ascii (ws1 ++ number_text neg ds ++ ws2) =
  if bool_decide (int_max_str_digits < length ds) then None
  else Some (if neg then (- Z.of_N (digits_value ds))%Z else Z.of_N (digits_value ds)).
Proof.
  intros Hws1 Hws2 Hds Hne.
  destruct ds as [|d ds']; [done|]. inversion Hds as [|? ? Hd _]; subst.
  assert (Hdig : Forall (λ c, is_digit c = true) ((λ d, DIGIT0 + d)%N <$> d :: ds')).
  { apply Forall_fmap. eapply Forall_impl; [done|]. intros. by apply digit_char_is_digit. }
  unfold parse_ascii. rewrite skip_spaces_app, take_sign_number by done.
  rewrite digit_run_digits, underscores_ok_digits, digit_values_digits by done.
  simpl. case_bool_decide; [done|]. by rewrite skip_spaces_all.
Qed.

Section Transform.
Context `{!DecimalTable}.

Lemma transform_ascii s : Forall (λ c, c < 127)%N s → transform s = Some s.
Proof.
  intros Hs. apply mapM_Some, Forall_Forall2_diag. eapply Forall_impl; [done|].
  intros c Hc. unfold transform_char. by rewrite bool_decide_eq_true_2.
Qed.

Lemma transform_int_spaces ws :
  Forall (λ c, is_int_space c = true) ws →
  ∃ ws', Forall2 (λ x y, transform_char x = Some y) ws ws' ∧
         Forall (λ c, is_ascii_space c = true) ws'.
Proof.
  induction 1 as [|c ws Hc _ (ws' & H1 & H2)]; [by exists []|].
  unfold is_int_space in Hc. apply orb_true_iff in Hc as [Hc | [Hge Hu]%andb_true_iff].
  - exists (c :: ws'). split; [|by constructor]. constructor; [|done].
    unfold transform_char. apply ascii_space_range in Hc.
    by rewrite bool_decide_eq_true_2 by lia.
  - exists (SP :: ws'). split; [|by constructor]. constructor; [|done].
    apply bool_decide_eq_true in Hge. unfold transform_char.
    by rewrite bool_decide_eq_false_2, Hu by lia.
Qed.

Lemma number_text_ascii neg ds :
  Forall (λ d, d < 10)%N ds → Forall (λ c, c < 127)%N (number_text neg ds).
Proof.
  intros Hds. unfold number_text. apply Forall_app. split.
  - destruct neg; [apply Forall_singleton; unfold MINUS; lia | constructor].
  - apply Forall_fmap. eapply Forall_impl; [done|]. intros d Hd.
    unfold compose, DIGIT0 in *. cbv beta in *. lia.
Qed.

(** [int] on a signed run of decimal digits between [int] white space. *)
Lemma py_int_number ws1 neg ds ws2 :
  Forall (λ c, is_int_space c = true) ws1 →
  Forall (λ c, is_int_space c = true) ws2 →
  Forall (λ d, d < 10)%N ds → ds ≠ [] →
  py_int (ws1 ++ number_text neg ds ++ ws2) =
  if bool_decide (int_max_str_digits < length ds) then None
  else Some (if neg then (- Z.of_N (digits_value ds))%Z else Z.of_N (digits_value ds)).
Proof.
  intros (ws1' & H1 & Hs1)%transform_int_spaces (ws2' & H2 & Hs2)%transform_int_spaces Hds Hne.
  unfold py_int.
  assert (transform (ws1 ++ number_text neg ds ++ ws2) = Some (ws1' ++ number_text neg ds ++ ws2'))
    as ->.
  { apply mapM_Some. apply Forall2_app; [done|]. apply Forall2_app; [|done].
    apply mapM_Some, transform_ascii, number_text_ascii, Hds. }
  simpl. by apply parse_ascii_number.
Qed.
End Transform.

Lemma py_str_number z :
  py_str z =
  if bool_decide (int_max_str_digits < length (decimal_digits (Z.abs_N z))) then None
  else Some (number_text (bool_decide (z < 0)%Z) (decimal_digits (Z.abs_N z))).
Proof. unfold py_str, number_text. by destruct (bool_decide (z < 0)%Z). Qed.

(** [str(z)] below the digit limit. *)
Lemma py_str_ok z :
  (Z.abs_N z < 10 ^ N.of_nat int_max_str_digits)%N →
  py_str z = Some (number_text (bool_decide (z < 0)%Z) (decimal_digits (Z.abs_N z))).
Proof.
  intros Hz. rewrite py_str_number, bool_decide_eq_false_2; [done|].
  apply Nat.le_ngt, decimal_digits_length_le; [unfold int_max_str_digits; lia | done].
Qed.

(** ** Properties *)

(** C7: [int] reads back what [str] prints: when [str(z)] succeeds with
    [t], [int] of [t] surrounded by any [int] white space (a trailing
    newline included) is [z]. *)
Theorem py_int_str_roundtrip `{!DecimalTable} (z : Z) (t ws1 ws2 : text) :
  py_str z = Some t →
  Forall (λ c, is_int_space c = true) ws1 →
  Forall (λ c, is_int_space c = true) ws2 →
  py_int (ws1 ++ t ++ ws2) = Some z.
Proof.
  rewrite py_str_number. case_bool_decide; [done|]. intros [= <-] Hws1 Hws2.
  rewrite py_int_number by auto using decimal_digits_lt_10, decimal_digits_not_nil.
  rewrite bool_decide_eq_false_2 by done. f_equal.
  rewrite decimal_digits_value, N2Z.inj_abs_N. case_bool_decide; lia.
Qed.

Lemma py_int_str_roundtrip_witness :
  py_str (-42) = Some ⟪"-42"⟫ ∧
  Forall (λ c, is_int_space c = true) [SP; 160%N] ∧
  Forall (λ c, is_int_space c = true) [LF] ∧
  @py_int unicode_decimal_table ([SP; 160%N] ++ ⟪"-42"⟫ ++ [LF]) = Some (-42)%Z.
Proof.
  assert (H1 : py_str (-42) = Some ⟪"-42"⟫) by (vm_compute; reflexivity).
  assert (H2 : Forall (λ c, is_int_space c = true) [SP; 160%N])
    by (apply (bool_decide_unpack _); vm_compute; reflexivity).
  assert (H3 : Forall (λ c, is_int_space c = true) [LF])
    by (apply (bool_decide_unpack _); vm_compute; reflexivity).
  split_and!; [exact H1 | exact H2 | exact H3 |].
  exact (@py_int_str_roundtrip unicode_decimal_table _ _ _ _ H1 H2 H3).
Defined.

(** C19: [str(z)] raises [ValueError] exactly when [|z|] has more than
    [int_max_str_digits] (4300) decimal digits. *)
Theorem py_str_digit_limit (z : Z) :
  py_str z = None ↔ (10 ^ N.of_nat int_max_str_digits ≤ Z.abs_N z)%N.
Proof.
  rewrite py_str_number, N.le_ngt, <- decimal_digits_length_le
    by (unfold int_max_str_digits; lia).
  case_bool_decide; split; intros; try done; lia.
Qed.

(** C20: [int] raises [ValueError] on a number of more than
    [int_max_str_digits] digits, whatever its sign and the white space
    around it. *)
Theorem py_int_digit_limit `{!DecimalTable} (ws1 : text) (neg : bool) (ds : list N) (ws2 : text) :
  Forall (λ c, is_int_space c = true) ws1 →
  Forall (λ c, is_int_space c = true) ws2 →
  Forall (λ d, d < 10)%N ds →
  int_max_str_digits < length ds →
  py_int (ws1 ++ number_text neg ds ++ ws2) = None.
Proof.
  intros Hws1 Hws2 Hds Hlen. rewrite py_int_number; [| done | done | done |].
  - by rewrite bool_decide_eq_true_2.
  - intros ->. simpl in Hlen. lia.
Qed.

Lemma py_int_digit_limit_witness :
  Forall (λ c, is_int_space c = true) [] ∧
  Forall (λ c, is_int_space c = true) [LF] ∧
  Forall (λ d, d < 10)%N (replicate 4301 1%N) ∧
  int_max_str_digits < length (replicate 4301 1%N) ∧
  @py_int unicode_decimal_table ([] ++ number_text false (replicate 4301 1%N) ++ [LF]) = None.
Proof.
  assert (H1 : Forall (λ c, is_int_space c = true) (@nil N)) by constructor.
  assert (H2 : Forall (λ c, is_int_space c = true) [LF])
    by (apply (bool_decide_unpack _); vm_compute; reflexivity).
  assert (H3 : Forall (λ d, d < 10)%N (replicate 4301 1%N))
    by (apply (bool_decide_unpack _); vm_compute; reflexivity).
  assert (H4 : int_max_str_digits < length (replicate 4301 1%N))
    by (apply Nat.ltb_lt; vm_compute; reflexivity).
  split_and!; [exact H1 | exact H2 | exact H3 | exact H4 |].
  exact (@py_int_digit_limit unicode_decimal_table _ _ _ _ H1 H2 H3 H4).
Defined.

(** Concrete runs of [int], with the table of the Unicode database. *)
Example py_int_examples :
  @py_int unicode_decimal_table ⟪" +0_3"⟫ = Some 3%Z ∧
  @py_int unicode_decimal_table ⟪"1__0"⟫ = None ∧
  @py_int unicode_decimal_table ⟪"_1"⟫ = None ∧
  @py_int unicode_decimal_table ⟪"1_"⟫ = None ∧
  @py_int unicode_decimal_table [160; 51]%N = Some 3%Z ∧
  @py_int unicode_decimal_table [28; 51]%N = None ∧
  @py_int unicode_decimal_table [65297; 65298; 10]%N = Some 12%Z ∧
  @py_int unicode_decimal_table [] = None.
Proof. vm_compute. split_and!; reflexivity. Qed.

End PyInt.
