(* ===== verification/TextIO.v ===== *)
(** * Text-mode file objects: [io.TextIOWrapper] over a file's bytes

    [open(p)] in text mode stacks a [TextIOWrapper] on a [BufferedReader]
    on the file.  This file models the wrapper as [Modules/_io/textio.c]
    runs it for [read()] and [readline()] with [newline=None] (universal
    newlines) and the UTF-8 codec:
    - [wrapper] is its state: the bytes the buffer has not handed out
      yet, the bytes held by the incremental UTF-8 decoder, the [pendingcr]
      flag of the [IncrementalNewlineDecoder], and the decoded characters
      not yet returned ([decoded_chars]);
    - [nl_decode] is [_PyIncrementalNewlineDecoder_decode];
    - [read_chunk] is [textiowrapper_read_chunk]: [read1] of [chunk_size]
      bytes, decoded with [final] set only at end of file;
    - [readline_loop] is the loop of [_textiowrapper_readline]; it runs on
      fuel, and [readline_fuel] is enough ([readline_terminates]);
    - [read_all] is [read()] with no size.
    The text-level view of a wrapper ([view]) is what is left to read:
    the decoded characters, then the translation of what the decoder
    still holds and of the rest of the file, decoded in one go.  The
    refinement theorem shows that [readline] returns the first line of
    the view and leaves the rest, so the chunks and the decoder state are
    invisible whenever the file is valid UTF-8. *)

From S2P Require Import Prelude Utf8.
From Stdlib Require Import NArith ZArith.
From stdpp Require Import sets.

Module TextIO.
Import Utf8.

(** ** Universal newlines and lines *)

(** CR LF and a lone CR read as LF ([translate] of the newline decoder). *)
Fixpoint translate_newlines (s : text) : text :=
  match s with
  | [] => []
  | c :: s' =>
      if bool_decide (c = CR) then
        LF :: match s' with
              | d :: s'' => if bool_decide (d = LF) then translate_newlines s'' else translate_newlines s'
              | [] => []
              end
      else c :: translate_newlines s'
  end.

(** The line [readline] returns (up to and with the first LF) and what
    stays to be read. *)
Fixpoint line_split (s : text) : text * text :=
  match s with
  | [] => ([], [])
  | c :: s' =>
      if bool_decide (c = LF) then ([c], s')
      else let '(l, r) := line_split s' in (c :: l, r)
  end.

(** ** The wrapper *)

(** [_CHUNK_SIZE] of [textio.c]. *)
Definition chunk_size : nat := 8192.

Record wrapper := Wrapper {
  tw_raw : list Byte.byte;
  tw_pending : list N;
  tw_pendingcr : bool;
  tw_decoded : text
}.

(** A wrapper freshly opened on the bytes of a file. *)
Definition open_wrapper (data : list Byte.byte) : wrapper := Wrapper data [] false [].

Definition set_decoded (d : text) (w : wrapper) : wrapper :=
  Wrapper (tw_raw w) (tw_pending w) (tw_pendingcr w) d.

(** [IncrementalNewlineDecoder.decode(output, final)] on the output of
    the UTF-8 decoder: prefix the CR held from the last call when there is
    output or the input ends; hold back a CR at the end unless [final];
    translate. *)
Definition nl_decode (pendingcr : bool) (output : text) (final : bool) : text * bool :=
  let '(output, pendingcr) :=
    if pendingcr && (final || bool_decide (output ≠ []))
    then (CR :: output, false) else (output, pendingcr) in
  let '(output, pendingcr) :=
    if negb final && bool_decide (last output = Some CR)
    then (removelast output, true) else (output, pendingcr) in
  (translate_newlines output, pendingcr).

(** [textiowrapper_read_chunk]: [None] is [UnicodeDecodeError]; otherwise
    the flag is [false] at end of file (no byte read and no character
    decoded) and the new state, whose decoded characters are those of the
    chunk. *)
Definition read_chunk (w : wrapper) : option (bool * wrapper) :=
  let input := Byte.to_N <$> take chunk_size (tw_raw w) in
  let eof := bool_decide (input = []) in
  match utf8_decode eof (tw_pending w ++ input) with
  | None => None
  | Some (cs, pending) =>
      let '(out, pcr) := nl_decode (tw_pendingcr w) cs eof in
      Some (negb eof || bool_decide (out ≠ []), Wrapper (drop chunk_size (tw_raw w)) pending pcr out)
  end.

(** The outcome of a loop on fuel. *)
Inductive loop_result (A : Type) :=
  | Done (x : A)
  | Failed
  | OutOfFuel.
Arguments Done {A} x.
Arguments Failed {A}.
Arguments OutOfFuel {A}.

(** The loop of [_textiowrapper_readline] ([limit] of -1, translated
    newlines, so the line ends at the first LF): with no decoded
    characters, read a chunk (end of file ends the line); otherwise return
    up to the first LF, or put the characters aside and go on. *)
Fixpoint readline_loop (fuel : nat) (acc : text) (w : wrapper) : loop_result (text * wrapper) :=
  match fuel with
  | O => OutOfFuel
  | S fuel' =>
      match tw_decoded w with
      | [] =>
          match read_chunk w with
          | None => Failed
          | Some (true, w') => readline_loop fuel' acc w'
          | Some (false, w') => Done (acc, w')
          end
      | d =>
          if bool_decide (LF ∈ d) then
            let '(l, r) := line_split d in Done (acc ++ l, set_decoded r w)
          else readline_loop fuel' (acc ++ d) (set_decoded [] w)
      end
  end.

(** A bound on the rounds of the loop: every chunk read takes at least
    one byte, is scanned at most once, and the end of file takes at most a
    last flush of the decoder and one empty read. *)
Definition measure (w : wrapper) : nat :=
  2 * length (tw_raw w) +
  (if bool_decide (tw_raw w ≠ [] ∨ tw_pending w ≠ [] ∨ tw_pendingcr w = true) then 2 else 0) +
  (if bool_decide (tw_decoded w ≠ []) then 1 else 0).

Definition readline_fuel (w : wrapper) : nat := S (measure w).

Definition readline (w : wrapper) : loop_result (text * wrapper) :=
  readline_loop (readline_fuel w) [] w.

(** [read()]: the decoded characters, then all the rest of the file
    decoded with [final] set; the decoder is left empty. *)
Definition read_all (w : wrapper) : option (text * wrapper) :=
  match utf8_decode true (tw_pending w ++ (Byte.to_N <$> tw_raw w)) with
  | None => None
  | Some (cs, _) =>
      let '(out, _) := nl_decode (tw_pendingcr w) cs true in
      Some (tw_decoded w ++ out, Wrapper [] [] false [])
  end.

(** What is left to read, as text, when the rest of the file decodes. *)
Definition view (w : wrapper) : option text :=
  (λ '(cs, _), tw_decoded w ++ translate_newlines ((if tw_pendingcr w then [CR] else []) ++ cs)) <$>
    utf8_decode true (tw_pending w ++ (Byte.to_N <$> tw_raw w)).

(** The invariant of a wrapper: its decoded characters are code points
    of a [str], and its decoder holds at most three bytes. *)
Definition wf_wrapper (w : wrapper) : Prop :=
  Forall str_char (tw_decoded w) ∧ length (tw_pending w) ≤ 3.

(** ** Lines and universal newlines *)

Lemma line_split_line l r : LF ∉ l → line_split (l ++ LF :: r) = (l ++ [LF], r).
Proof.
  induction l as [|c l IH]; intros Hl; simpl; [by try rewrite bool_decide_eq_true_2|].
  rewrite bool_decide_eq_false_2 by set_solver. rewrite IH by set_solver. done.
Qed.

Lemma line_split_last l : LF ∉ l → line_split l = (l, []).
Proof.
  induction l as [|c l IH]; intros Hl; simpl; [done|].
  rewrite bool_decide_eq_false_2 by set_solver. rewrite IH by set_solver. done.
Qed.

(** The line of [d ++ t]: within [d] when [d] holds an LF, else [d] and
    the line of [t]. *)
Lemma line_split_app_in d t :
  LF ∈ d → line_split (d ++ t) = (fst (line_split d), snd (line_split d) ++ t).
Proof.
  induction d as [|c d IH]; intros Hd; [set_solver|]. simpl.
  case_bool_decide; [done|]. rewrite IH by set_solver.
  by destruct (line_split d).
Qed.

Lemma line_split_app_notin d t :
  LF ∉ d → line_split (d ++ t) = (d ++ fst (line_split t), snd (line_split t)).
Proof.
  induction d as [|c d IH]; intros Hd; simpl; [by destruct (line_split t)|].
  rewrite bool_decide_eq_false_2 by set_solver. rewrite IH by set_solver. done.
Qed.

Lemma translate_crlf_line l r :
  CR ∉ l → translate_newlines (l ++ CR :: LF :: r) = l ++ LF :: translate_newlines r.
Proof.
  induction l as [|c l IH]; intros Hl; simpl.
  - by repeat rewrite bool_decide_eq_true_2 by done.
  - rewrite bool_decide_eq_false_2 by set_solver. rewrite IH by set_solver. done.
Qed.

Lemma translate_no_cr s : CR ∉ translate_newlines s.
Proof.
  induction s as [s IH] using (induction_ltof1 _ (@length _)); unfold ltof in IH.
  destruct s as [|c s]; simpl; [set_solver|].
  case_bool_decide.
  - destruct s as [|d s]; [set_solver|].
    case_bool_decide; rewrite not_elem_of_cons; (split; [done|]); apply IH; simpl; lia.
  - rewrite not_elem_of_cons. split; [done|]. apply IH. simpl. lia.
Qed.

Lemma translate_id s : CR ∉ s → translate_newlines s = s.
Proof.
  induction s as [|c s IH]; intros Hs; simpl; [done|].
  rewrite bool_decide_eq_false_2 by set_solver. rewrite IH by set_solver. done.
Qed.

Lemma translate_nil_iff s : translate_newlines s = [] ↔ s = [].
Proof. split; [|by intros ->]. destruct s as [|c s]; [done|]. simpl. by case_bool_decide. Qed.

(** Translation works piece by piece, except across a CR that ends the
    first piece and an LF that starts the second. *)
Lemma translate_app a b :
  last a ≠ Some CR ∨ head b ≠ Some LF →
  translate_newlines (a ++ b) = translate_newlines a ++ translate_newlines b.
Proof.
  induction a as [a IH] using (induction_ltof1 _ (@length _)); unfold ltof in IH.
  destruct a as [|c a]; [done|]. intros Hab.
  assert (Hab' : last a ≠ Some CR ∨ head b ≠ Some LF)
    by (destruct a; [left; done | done]).
  rewrite <- app_comm_cons. cbn [translate_newlines].
  case_bool_decide as Hc; [|rewrite IH by (simpl; lia || done); done].
  destruct a as [|d a].
  - destruct b as [|d b]; [done|]. simpl in *. subst c.
    rewrite bool_decide_eq_false_2 by naive_solver. done.
  - rewrite <- app_comm_cons. case_bool_decide.
    + rewrite IH; [done | simpl; lia | destruct a; [left; done | exact Hab']].
    + rewrite app_comm_cons, IH; [done | simpl; lia | exact Hab'].
Qed.

(** ** The newline decoder *)

(** Translating [o ++ x] where a CR at the end of [o] is held back. *)
Lemma translate_hold o x :
  translate_newlines (o ++ x) =
  if bool_decide (last o = Some CR)
  then translate_newlines (removelast o) ++ translate_newlines (CR :: x)
  else translate_newlines o ++ translate_newlines x.
Proof.
  case_bool_decide as Ho.
  - apply last_Some in Ho as [o' ->]. rewrite removelast_last, <- app_assoc.
    apply translate_app. by right.
  - apply translate_app. by left.
Qed.

Lemma nl_decode_final pcr cs : snd (nl_decode pcr cs true) = false.
Proof. unfold nl_decode. by destruct pcr. Qed.

(** What the newline decoder returns, followed by the translation of what
    it holds and of what comes next, is the translation of all of it; at
    the end of the input nothing comes next. *)
Lemma nl_decode_translate (pcr : bool) (cs : text) (final : bool) (x : text) :
  (final = true → x = []) →
  translate_newlines ((if pcr then [CR] else []) ++ cs ++ x) =
  fst (nl_decode pcr cs final) ++
  translate_newlines ((if snd (nl_decode pcr cs final) then [CR] else []) ++ x).
Proof.
  intros Hx. unfold nl_decode.
  destruct final; [rewrite Hx by done; destruct pcr; simpl; by rewrite ?app_nil_r|].
  destruct pcr; cbn [andb orb negb].
  - case_bool_decide as Hcs; [|subst cs; done].
    transitivity (translate_newlines ((CR :: cs) ++ x)); [done|].
    rewrite translate_hold. case_bool_decide; reflexivity.
  - rewrite app_nil_l, (translate_hold cs x). case_bool_decide; reflexivity.
Qed.

(** ** Reading a chunk *)

Lemma chunk_nil raw : Byte.to_N <$> take chunk_size raw = [] ↔ raw = [].
Proof.
  split; [|by intros ->]. intros H. apply (f_equal length) in H.
  rewrite length_fmap, length_take in H. destruct raw; [done|]. simpl in H. unfold chunk_size in H. lia.
Qed.

Lemma raw_split raw :
  Byte.to_N <$> raw = (Byte.to_N <$> take chunk_size raw) ++ (Byte.to_N <$> drop chunk_size raw).
Proof. by rewrite <- fmap_app, take_drop. Qed.

(** A chunk read at the end of the file: the decoder is flushed. *)
Lemma read_chunk_eof w more w' :
  tw_raw w = [] → read_chunk w = Some (more, w') →
  ∃ cs, utf8_decode true (tw_pending w) = Some (cs, []) ∧
    w' = Wrapper [] [] false (fst (nl_decode (tw_pendingcr w) cs true)) ∧
    more = bool_decide (fst (nl_decode (tw_pendingcr w) cs true) ≠ []).
Proof.
  intros Hraw. unfold read_chunk. rewrite Hraw. cbn -[utf8_decode nl_decode].
  rewrite app_nil_r.
  destruct (utf8_decode true (tw_pending w)) as [[cs p]|] eqn:Hd; [|done].
  pose proof (nl_decode_final (tw_pendingcr w) cs) as Hf.
  destruct (nl_decode _ cs true) as [out pcr] eqn:Hnl. simpl in Hf. subst pcr.
  intros [= <- <-]. apply utf8_decode_final in Hd as Hp. destruct Hp as [-> _].
  exists cs. by rewrite Hnl.
Qed.

(** A chunk read before the end: the decoder is called with [final]
    unset on what it held and the chunk. *)
Lemma read_chunk_more w more w' :
  tw_raw w ≠ [] → read_chunk w = Some (more, w') →
  ∃ cs p, utf8_decode false (tw_pending w ++ (Byte.to_N <$> take chunk_size (tw_raw w))) = Some (cs, p) ∧
    w' = Wrapper (drop chunk_size (tw_raw w)) p (snd (nl_decode (tw_pendingcr w) cs false))
                 (fst (nl_decode (tw_pendingcr w) cs false)) ∧
    more = true.
Proof.
  intros Hraw. unfold read_chunk.
  rewrite bool_decide_eq_false_2 by (by rewrite chunk_nil).
  destruct (utf8_decode false _) as [[cs p]|] eqn:Hd; [|done].
  destruct (nl_decode _ cs false) as [out pcr] eqn:Hnl. intros [= <- <-].
  exists cs, p. by rewrite Hnl.
Qed.

(** Reading a chunk does not change what is left to read; at the end of
    the file nothing is. *)
Lemma read_chunk_view w more w' :
  tw_decoded w = [] → read_chunk w = Some (more, w') →
  view w' = view w ∧ (more = false → view w' = Some [] ∧ tw_decoded w' = []).
Proof.
  intros Hdec Hrc. unfold view. rewrite Hdec.
  destruct (decide (tw_raw w = [])) as [Hraw|Hraw].
  - destruct (read_chunk_eof w more w' Hraw Hrc) as (cs & Hd & -> & ->). simpl.
    rewrite Hraw. change (Byte.to_N <$> []) with (@nil N). rewrite !app_nil_r, Hd. simpl.
    pose proof (nl_decode_translate (tw_pendingcr w) cs true [] ltac:(done)) as Ht.
    rewrite nl_decode_final, !app_nil_r in Ht. rewrite Ht.
    split; [done|]. intros Hm. by apply bool_decide_eq_false, dec_stable in Hm as ->.
  - destruct (read_chunk_more w more w' Hraw Hrc) as (cs & p & Hd & -> & ->). cbn -[utf8_decode chunk_size].
    rewrite (raw_split (tw_raw w)), app_assoc.
    rewrite (utf8_decode_app true (tw_pending w ++ _)), Hd. cbn -[utf8_decode chunk_size].
    split; [|done].
    destruct (utf8_decode true (p ++ _)) as [[cs2 r]|]; [simpl|done].
    by rewrite (nl_decode_translate (tw_pendingcr w) cs false cs2).
Qed.

(** Reading a chunk that is not the last one takes the loop closer to
    its end. *)
Lemma read_chunk_measure w w' :
  tw_decoded w = [] → read_chunk w = Some (true, w') → measure w' < measure w.
Proof.
  intros Hdec Hrc. unfold measure. rewrite Hdec.
  destruct (decide (tw_raw w = [])) as [Hraw|Hraw].
  - destruct (read_chunk_eof w true w' Hraw Hrc) as (cs & Hd & -> & Hm).
    symmetry in Hm. apply bool_decide_eq_true in Hm.
    assert (Hflag : tw_pending w ≠ [] ∨ tw_pendingcr w = true).
    { destruct (tw_pending w) eqn:Hp; [|by left]. destruct (tw_pendingcr w) eqn:Hc; [by right|].
      simpl in Hd. injection Hd as <-. by simpl in Hm. }
    rewrite Hraw. simpl. repeat case_bool_decide; naive_solver lia.
  - destruct (read_chunk_more w true w' Hraw Hrc) as (cs & p & _ & -> & _). simpl.
    rewrite length_drop. rewrite (bool_decide_eq_true_2 (tw_raw w ≠ [] ∨ _)) by naive_solver.
    destruct (tw_raw w) as [|b raw]; [done|]. simpl. unfold chunk_size.
    repeat case_bool_decide; lia.
Qed.

(** The decoded characters come first in what is left to read. *)
Lemma view_set_decoded w :
  view w = (λ t, tw_decoded w ++ t) <$> view (set_decoded [] w).
Proof. unfold view. simpl. by destruct (utf8_decode true _) as [[]|]. Qed.

Lemma set_decoded_twice d1 d2 w : set_decoded d1 (set_decoded d2 w) = set_decoded d1 w.
Proof. done. Qed.

Lemma measure_set_decoded w : tw_decoded w ≠ [] → measure (set_decoded [] w) < measure w.
Proof. intros Hd. unfold measure. simpl. rewrite (bool_decide_eq_true_2 (tw_decoded w ≠ [])) by done. lia. Qed.

Lemma line_split_app_id s : fst (line_split s) ++ snd (line_split s) = s.
Proof.
  induction s as [|c s IH]; [done|]. simpl. case_bool_decide; [done|].
  destruct (line_split s). simpl in *. by rewrite IH.
Qed.

(** A chunk that cannot be decoded means that the rest of the file
    cannot be either. *)
Lemma read_chunk_fail w :
  tw_decoded w = [] → read_chunk w = None → view w = None.
Proof.
  intros Hdec Hrc. unfold read_chunk in Hrc. unfold view. rewrite (raw_split (tw_raw w)), app_assoc.
  revert Hrc. case_bool_decide as Heof.
  - assert (tw_raw w = []) as Hraw by (by apply chunk_nil). rewrite Heof, Hraw. simpl.
    rewrite !app_nil_r. destruct (utf8_decode true _) as [[cs p]|]; [|by intros].
    by destruct (nl_decode _ _ _).
  - rewrite (utf8_decode_app true (tw_pending w ++ _)).
    destruct (utf8_decode false _) as [[cs p]|]; [|by intros].
    by destruct (nl_decode _ _ _).
Qed.

(** The loop returns the first line of what is left to read and leaves
    the rest, when that decodes. *)
Lemma readline_loop_view fuel acc w t :
  measure w < fuel → view w = Some t →
  ∃ w', readline_loop fuel acc w = Done (acc ++ fst (line_split t), w') ∧
        view w' = Some (snd (line_split t)).
Proof.
  revert acc w t. induction fuel as [|fuel IH]; intros acc w t Hm Hv; [lia|]. cbn [readline_loop].
  destruct (tw_decoded w) as [|c d] eqn:Hdec.
  - destruct (read_chunk w) as [[more w']|] eqn:Hrc; [|by rewrite read_chunk_fail in Hv].
    destruct (read_chunk_view w more w' Hdec Hrc) as [Hv' Hend]. destruct more.
    + apply IH; [pose proof (read_chunk_measure w w' Hdec Hrc); lia | congruence].
    + destruct (Hend eq_refl) as [Hv0 _]. assert (t = []) as -> by congruence.
      exists w'. by rewrite app_nil_r.
  - rewrite view_set_decoded, Hdec in Hv.
    destruct (view (set_decoded [] w)) as [T|] eqn:HT; [|done]. injection Hv as <-.
    case_bool_decide as Hlf.
    + rewrite app_comm_cons, line_split_app_in by done.
      exists (set_decoded (snd (line_split (c :: d))) w). split; [by destruct (line_split _)|].
      rewrite view_set_decoded, set_decoded_twice, HT. done.
    + rewrite app_comm_cons, line_split_app_notin by done.
      destruct (IH (acc ++ c :: d) (set_decoded [] w) T) as (w' & Hrun & Hw'); [|done|].
      { pose proof (measure_set_decoded w ltac:(by rewrite Hdec)). lia. }
      exists w'. by rewrite Hrun, <- app_assoc.
Qed.

Lemma readline_loop_total fuel acc w : measure w < fuel → readline_loop fuel acc w ≠ OutOfFuel.
Proof.
  revert acc w. induction fuel as [|fuel IH]; intros acc w Hm; [lia|]. cbn [readline_loop].
  destruct (tw_decoded w) as [|c d] eqn:Hdec.
  - destruct (read_chunk w) as [[[] w']|] eqn:Hrc; try done.
    apply IH. pose proof (read_chunk_measure w w' Hdec Hrc). lia.
  - case_bool_decide; [by destruct (line_split _)|].
    apply IH. pose proof (measure_set_decoded w ltac:(by rewrite Hdec)). lia.
Qed.

(** Whatever the loop returns is the start of what was left to read. *)
Lemma readline_loop_done fuel acc w l w' :
  readline_loop fuel acc w = Done (l, w') →
  ∃ l0, l = acc ++ l0 ∧ view w = (λ t, l0 ++ t) <$> view w'.
Proof.
  revert acc w. induction fuel as [|fuel IH]; intros acc w; [done|]. cbn [readline_loop].
  destruct (tw_decoded w) as [|c d] eqn:Hdec.
  - destruct (read_chunk w) as [[[] w1]|] eqn:Hrc; try done.
    + intros (l0 & -> & Hv)%IH. exists l0. split; [done|].
      by rewrite <- (proj1 (read_chunk_view w true w1 Hdec Hrc)).
    + intros [= -> ->]. exists []. rewrite app_nil_r. split; [done|].
      rewrite <- (proj1 (read_chunk_view w false w' Hdec Hrc)). by destruct (view w').
  - rewrite (view_set_decoded w), Hdec. case_bool_decide.
    + destruct (line_split (c :: d)) as [l1 r1] eqn:Hls. intros [= <- <-].
      exists l1. split; [done|]. rewrite (view_set_decoded (set_decoded r1 w)), set_decoded_twice.
      pose proof (line_split_app_id (c :: d)) as Hid. rewrite Hls in Hid. simpl in Hid.
      rewrite <- Hid. destruct (view (set_decoded [] w)); simpl; by rewrite ?app_assoc.
    + intros (l0 & -> & Hv)%IH. exists (c :: d ++ l0). rewrite <- app_assoc. split; [done|].
      rewrite Hv. destruct (view w'); simpl; by rewrite ?app_assoc.
Qed.

(** [read()] returns what is left to read, or raises when it does not
    decode. *)
Lemma read_all_view w : read_all w = (λ t, (t, Wrapper [] [] false [])) <$> view w.
Proof.
  unfold read_all, view. destruct (utf8_decode true _) as [[cs p]|]; [|done]. simpl.
  pose proof (nl_decode_translate (tw_pendingcr w) cs true [] ltac:(done)) as Ht.
  rewrite nl_decode_final, !app_nil_r in Ht.
  destruct (nl_decode _ _ _) as [out b]. simpl in Ht. by rewrite Ht.
Qed.

(** A file just opened: what is left to read is the file, decoded and
    translated. *)
Lemma view_open data :
  view (open_wrapper data) = (λ '(t, _), translate_newlines t) <$> utf8_decode true (Byte.to_N <$> data).
Proof. unfold view. simpl. by destruct (utf8_decode true _) as [[]|]. Qed.

(** ** Properties *)

(** C22: refinement of the text-level file object: when the rest of the
    file decodes, [readline] on the wrapper, however the file falls into
    chunks and whatever the decoder holds, returns the first line of what
    is left to read (up to and with the first LF, or all of it at the end
    of the file) and leaves exactly the rest. *)
Theorem readline_refines w t :
  view w = Some t →
  ∃ w', readline w = Done (fst (line_split t), w') ∧ view w' = Some (snd (line_split t)).
Proof. intros Hv. apply (readline_loop_view _ [] w t); [unfold readline_fuel; lia | done]. Qed.

Lemma readline_refines_witness :
  view (open_wrapper (bytes_of (⟪"ab"⟫ ++ [LF] ++ ⟪"cd"⟫))) = Some (⟪"ab"⟫ ++ [LF] ++ ⟪"cd"⟫) ∧
  ∃ w', readline (open_wrapper (bytes_of (⟪"ab"⟫ ++ [LF] ++ ⟪"cd"⟫))) =
          Done (fst (line_split (⟪"ab"⟫ ++ [LF] ++ ⟪"cd"⟫)), w') ∧
        view w' = Some (snd (line_split (⟪"ab"⟫ ++ [LF] ++ ⟪"cd"⟫))).
Proof.
  assert (H : view (open_wrapper (bytes_of (⟪"ab"⟫ ++ [LF] ++ ⟪"cd"⟫))) = Some (⟪"ab"⟫ ++ [LF] ++ ⟪"cd"⟫))
    by (vm_compute; reflexivity).
  split; [exact H | exact (readline_refines _ _ H)].
Defined.

(** C23: termination of the [readline] loop: [readline_fuel] rounds are
    always enough, on any state of the wrapper, valid UTF-8 or not; the
    loop returns a line or raises [UnicodeDecodeError]. *)
Theorem readline_terminates w : readline w ≠ OutOfFuel.
Proof. apply readline_loop_total. unfold readline_fuel. lia. Qed.

(** C26: [readline] then [read()] reads what one [read()] reads: the
    line returned followed by the rest of the file, and [read()] raises on
    the rest exactly when it would have raised on all of it. *)
Theorem readline_then_read w l w' :
  readline w = Done (l, w') →
  read_all w = (λ '(r, e), (l ++ r, e)) <$> read_all w'.
Proof.
  intros (l0 & -> & Hv)%readline_loop_done. rewrite !read_all_view, Hv.
  by destruct (view w').
Qed.

Lemma readline_then_read_witness :
  readline (open_wrapper (bytes_of (⟪"ab"⟫ ++ [LF] ++ ⟪"cd"⟫))) =
    Done (⟪"ab"⟫ ++ [LF], Wrapper [] [] false ⟪"cd"⟫) ∧
  read_all (open_wrapper (bytes_of (⟪"ab"⟫ ++ [LF] ++ ⟪"cd"⟫))) =
    (λ '(r, e), ((⟪"ab"⟫ ++ [LF]) ++ r, e)) <$> read_all (Wrapper [] [] false ⟪"cd"⟫).
Proof.
  assert (H : readline (open_wrapper (bytes_of (⟪"ab"⟫ ++ [LF] ++ ⟪"cd"⟫))) =
              Done (⟪"ab"⟫ ++ [LF], Wrapper [] [] false ⟪"cd"⟫)) by (vm_compute; reflexivity).
  split; [exact H | exact (readline_then_read _ _ _ H)].
Defined.

(** C16: universal newlines: a file whose lines end in CR LF is read as
    the same lines ending in LF. *)
Theorem translate_crlf_lines (ls : list text) :
  Forall (λ l, CR ∉ l) ls →
  translate_newlines (concat ((λ l, l ++ [CR; LF]) <$> ls)) = concat ((λ l, l ++ [LF]) <$> ls).
Proof.
  induction 1 as [|l ls Hl _ IH]; [done|].
  rewrite !fmap_cons, !concat_cons, <- !app_assoc. simpl.
  rewrite translate_crlf_line by done. by rewrite IH.
Qed.

Lemma translate_crlf_lines_witness :
  Forall (λ l, CR ∉ l) [⟪"ab"⟫; ⟪"c"⟫] ∧
  translate_newlines (concat ((λ l, l ++ [CR; LF]) <$> [⟪"ab"⟫; ⟪"c"⟫])) =
  concat ((λ l, l ++ [LF]) <$> [⟪"ab"⟫; ⟪"c"⟫]).
Proof.
  assert (H : Forall (λ l, CR ∉ l) [⟪"ab"⟫; ⟪"c"⟫])
    by (apply (bool_decide_unpack _); vm_compute; reflexivity).
  split; [exact H | exact (translate_crlf_lines _ H)].
Defined.

(** ** The text handed out is made of [str] code points *)

Lemma str_char_CR : str_char CR.
Proof. split; [unfold py_char, CR; lia | done]. Qed.

Lemma str_char_LF : str_char LF.
Proof. split; [unfold py_char, LF; lia | done]. Qed.

Lemma translate_forall (P : N → Prop) s : P LF → Forall P s → Forall P (translate_newlines s).
Proof.
  intros HLF. induction s as [s IH] using (induction_ltof1 _ (@length _)); unfold ltof in IH.
  destruct s as [|c s]; [done|]. intros [Hc Hs]%Forall_cons. cbn [translate_newlines].
  case_bool_decide; [|constructor; [done | apply IH; simpl; [lia | done]]].
  constructor; [done|]. destruct s as [|d s]; [done|].
  apply Forall_cons in Hs as [Hd Hs'].
  case_bool_decide; apply IH; simpl; try lia; try done. by constructor.
Qed.

Lemma removelast_forall {A} (P : A → Prop) l : Forall P l → Forall P (removelast l).
Proof. induction 1 as [|x [|y l] Hx Hl IH]; simpl; try done. by constructor. Qed.

Lemma nl_decode_forall (P : N → Prop) pcr out final :
  P CR → P LF → Forall P out → Forall P (fst (nl_decode pcr out final)).
Proof.
  intros HCR HLF Hout. unfold nl_decode.
  destruct (pcr && _); destruct (negb final && _); cbn -[translate_newlines removelast];
    (apply translate_forall; [done|]); try apply removelast_forall; by try constructor.
Qed.

Lemma read_chunk_wf w more w' :
  wf_wrapper w → read_chunk w = Some (more, w') → wf_wrapper w'.
Proof.
  intros _ Hrc. unfold read_chunk in Hrc.
  destruct (utf8_decode _ _) as [[cs pending]|] eqn:Hd; [|done].
  apply utf8_decode_shape in Hd as (Hcs & _ & Hp & _).
  destruct (nl_decode _ _ _) as [out pcr] eqn:Hnl. injection Hrc as <- <-.
  split; [|done]. simpl. change out with (fst (out, pcr)). rewrite <- Hnl.
  apply nl_decode_forall; [apply str_char_CR | apply str_char_LF | done].
Qed.

Lemma readline_loop_wf fuel acc w l w' :
  Forall str_char acc → wf_wrapper w → readline_loop fuel acc w = Done (l, w') →
  Forall str_char l ∧ wf_wrapper w'.
Proof.
  revert acc w. induction fuel as [|fuel IH]; intros acc w Hacc Hw; [done|]. cbn [readline_loop].
  destruct (tw_decoded w) as [|c d] eqn:Hdec.
  - destruct (read_chunk w) as [[[] w'']|] eqn:Hrc; [| |done].
    + apply IH; [done|]. by eapply read_chunk_wf.
    + intros [= <- <-]. split; [done|]. by eapply read_chunk_wf.
  - destruct Hw as [Hd Hp]. rewrite Hdec in Hd.
    pose proof (line_split_app_id (c :: d)) as Hsplit.
    case_bool_decide.
    + destruct (line_split (c :: d)) as [l1 r1]. intros [= <- <-]. simpl in Hsplit.
      rewrite <- Hsplit in Hd. apply Forall_app in Hd as [Hl1 Hr1].
      split; [by apply Forall_app | done].
    + apply IH; [by apply Forall_app | done].
Qed.

Lemma readline_keeps_wf w l w' :
  wf_wrapper w → readline w = Done (l, w') → Forall str_char l ∧ wf_wrapper w'.
Proof. intros Hw. by apply readline_loop_wf. Qed.

Lemma read_all_wf w t w' : read_all w = Some (t, w') → wf_wrapper w'.
Proof.
  unfold read_all. repeat case_match; intros; simplify_eq. split; simpl; [done | lia].
Qed.

(** C30: every line [readline] returns is made of code points of a
    [str] (below [0x110000], no surrogate), and the wrapper keeps its
    invariant: decoded characters of that kind and at most three bytes
    held by the decoder. *)
Theorem readline_wf w l w' :
  wf_wrapper w → readline w = Done (l, w') → Forall str_char l ∧ wf_wrapper w'.
Proof. apply readline_keeps_wf. Qed.

Lemma open_wrapper_wf data : wf_wrapper (open_wrapper data).
Proof. split; simpl; [done | lia]. Qed.

Lemma readline_wf_witness :
  wf_wrapper (open_wrapper (bytes_of [0xC3; 0xA9; 10; 97]%N)) ∧
  Forall str_char [0xE9; 10]%N.
Proof.
  split; [apply open_wrapper_wf|].
  refine (proj1 (readline_wf (open_wrapper (bytes_of [0xC3; 0xA9; 10; 97]%N)) [0xE9; 10]%N
            (Wrapper [] [] false [97]%N) (open_wrapper_wf _) _)).
  vm_compute. reflexivity.
Defined.

End TextIO.
