(* ===== verification/PyIO.v ===== *)
(** * The Python runtime [checker.py] runs in

    The script touches the world through [sys.argv], [open], the methods of
    text-mode file objects, the [with] statement and [print].  This file
    models them:
    - [exn]: the exceptions these calls raise; an uncaught one ends the run
      with exit status 1;
    - [world]: the file system ([w_fs], never written), the table of open
      file objects ([w_files], keyed by a handle, with the next fresh handle
      [w_next]) and what has been written to standard output ([w_stdout]);
    - [M]: a state and exception monad on [world], with stdpp's [MRet] and
      [MBind] so that [x ← m; k] reads like the script;
    - [argv_get] ([sys.argv[i]]), [py_open] ([open(p)] in text mode: a
      [TextIO.wrapper] on the bytes of the file), [py_read] ([f.read()]),
      [py_readline] ([f.readline()]), both raising [UnicodeDecodeError]
      when the bytes they decode are not UTF-8, [py_close], [with_file]
      (the [with] statement), [write] (the strict UTF-8 encoder of
      standard output, [UnicodeEncodeError] on a surrogate) and [print]
      (which writes argument by argument, converting each with
      [str_val]).
    Every operation is also a transition of the state machine [step]; the
    invariant [wf_world] (open handles are below [w_next]), the fact that
    the file system is never changed and that standard output only grows
    are proved for all reachable worlds by rule induction, with
    [files_wf] (every open wrapper well formed) and the encodability of
    standard output.  [no_encode_error] composes, operation by
    operation, the fact that a computation raises no
    [UnicodeEncodeError]: [readline] returns lines without surrogates,
    and [print] of such text succeeds.  On a file
    whose rest decodes, [repeat_m n] of [py_readline] returns the lines of
    [lines_n] and reaches the end of the file once [n] is at least the
    length of the text ([readlines_reach_eof]). *)

From S2P Require Import Prelude Utf8 PyInt TextIO.
From stdpp Require Import gmap.

Module PyIO.
Import TextIO.

(** ** Exceptions, files and the world *)

Inductive exn :=
  | IndexError
  | ValueError
  | FileNotFoundError (path : text)
  | IsADirectoryError (path : text)
  | PermissionError (path : text)
  | UnicodeDecodeError
  | UnicodeEncodeError.

(** A path of the file system.  [RegularFile] holds the bytes of the
    file. *)
Inductive fentry :=
  | RegularFile (data : list Byte.byte)
  | Directory
  | Unreadable.

(** An open text-mode file object: its path and its [TextIOWrapper]. *)
Record file_object := FileObject { fo_path : text; fo_stream : wrapper }.

Record world := World {
  w_fs : gmap text fentry;
  w_files : gmap nat file_object;
  w_next : nat;
  w_stdout : text
}.

Definition set_files (fs : gmap nat file_object) (w : world) : world :=
  World (w_fs w) fs (w_next w) (w_stdout w).

Definition add_stdout (t : text) (w : world) : world :=
  World (w_fs w) (w_files w) (w_next w) (w_stdout w ++ t).

(** The world with no file and nothing written. *)
Definition empty_world : world := World ∅ ∅ 0 [].

(** ** The monad *)

Definition M (A : Type) : Type := world → (exn + A) * world.

#[export] Instance M_ret : MRet M := λ A x w, (inr x, w).
#[export] Instance M_bind : MBind M := λ A B k m w,
  match m w with
  | (inr x, w') => k x w'
  | (inl e, w') => (inl e, w')
  end.

Definition raise {A} (e : exn) : M A := λ w, (inl e, w).

(** ** [sys.argv], [print] *)

Definition argv_get (argv : list text) (i : nat) : M text :=
  match argv !! i with
  | Some a => mret a
  | None => raise IndexError
  end.

(** The values the script prints: strings and integers. *)
Inductive pyval :=
  | VStr (t : text)
  | VInt (z : Z).

(** [sys.stdout.write(t)]: the [TextIOWrapper] of standard output
    encodes [t] with the strict UTF-8 encoder before it buffers it; a
    surrogate raises [UnicodeEncodeError] and nothing is written. *)
Definition write (t : text) : M unit :=
  λ w, match Utf8.utf8_encode t with
       | Some _ => (inr (), add_stdout t w)
       | None => (inl UnicodeEncodeError, w)
       end.

(** [str(v)]: a string is itself; an integer is [PyInt.py_str], which
    raises [ValueError] past the digit limit. *)
Definition str_val (v : pyval) : M text :=
  match v with
  | VStr t => mret t
  | VInt z => match PyInt.py_str z with Some t => mret t | None => raise ValueError end
  end.

(** [print(a, b, ...)] ([builtin_print]): for each argument, the separator
    (a space) when it is not the first, then [str] of the argument, each
    written as soon as it is ready; then the newline.  An argument whose
    [str] raises leaves what was already written. *)
Fixpoint print_args (first : bool) (args : list pyval) : M unit :=
  match args with
  | [] => write [LF]
  | a :: args' =>
      _ ← (if first then mret () else write [SP]);
      t ← str_val a;
      _ ← write t;
      print_args false args'
  end.

Definition print (args : list pyval) : M unit := print_args true args.

(** ** Text-mode files *)

(** [open(p)]: the exception of the path, or a fresh file object on the
    bytes of the file (nothing is decoded yet). *)
Definition py_open (p : text) : M nat :=
  λ w,
    match w_fs w !! p with
    | None => (inl (FileNotFoundError p), w)
    | Some Directory => (inl (IsADirectoryError p), w)
    | Some Unreadable => (inl (PermissionError p), w)
    | Some (RegularFile d) =>
        let h := w_next w in
        (inr h, World (w_fs w) (<[h := FileObject p (open_wrapper d)]> (w_files w))
                      (S h) (w_stdout w))
    end.

(** [f.read()] and [f.readline()] on an open file object; on a closed one
    they raise [ValueError] ("I/O operation on closed file").  A decoding
    error raises [UnicodeDecodeError]; what it leaves in the wrapper is not
    modelled, as the script reads the file no more after an exception.
    [readline] never runs out of fuel ([TextIO.readline_terminates]). *)
Definition py_read (h : nat) : M text :=
  λ w,
    match w_files w !! h with
    | None => (inl ValueError, w)
    | Some fo =>
        match read_all (fo_stream fo) with
        | Some (t, s) => (inr t, set_files (<[h := FileObject (fo_path fo) s]> (w_files w)) w)
        | None => (inl UnicodeDecodeError, w)
        end
    end.

Definition py_readline (h : nat) : M text :=
  λ w,
    match w_files w !! h with
    | None => (inl ValueError, w)
    | Some fo =>
        match readline (fo_stream fo) with
        | Done (l, s) => (inr l, set_files (<[h := FileObject (fo_path fo) s]> (w_files w)) w)
        | _ => (inl UnicodeDecodeError, w)
        end
    end.

(** [f.close()]; closing a closed file does nothing. *)
Definition py_close (h : nat) : M unit :=
  λ w, (inr (), set_files (delete h (w_files w)) w).

(** Run [m], then close [h] whether [m] returned or raised ([__exit__]). *)
Definition close_after {A} (h : nat) (m : M A) : M A :=
  λ w, let '(r, w') := m w in (r, set_files (delete h (w_files w')) w').

(** [with open(p) as f: body]: [open] first (no [__exit__] if it raises),
    then the body, and the file is closed on every outcome. *)
Definition with_file {A} (p : text) (body : nat → M A) : M A :=
  h ← py_open p; close_after h (body h).

(** ** The runtime as a state machine *)

Inductive io_op :=
  | OpOpen (p : text)
  | OpRead (h : nat)
  | OpReadline (h : nat)
  | OpClose (h : nat)
  | OpWrite (t : text).

Definition run_op (o : io_op) : world → world :=
  λ w,
    match o with
    | OpOpen p => snd (py_open p w)
    | OpRead h => snd (py_read h w)
    | OpReadline h => snd (py_readline h w)
    | OpClose h => snd (py_close h w)
    | OpWrite t => snd (write t w)
    end.

Inductive step : world → world → Prop :=
  | step_op o w : step w (run_op o w).

(** Handles in use are below the next fresh handle. *)
Definition wf_world (w : world) : Prop :=
  ∀ h, is_Some (w_files w !! h) → h < w_next w.

(** Every open file object holds a well-formed [TextIOWrapper]. *)
Definition files_wf (w : world) : Prop :=
  map_Forall (λ _ fo, wf_wrapper (fo_stream fo)) (w_files w).

(** [m] raises no [UnicodeEncodeError] from a world whose open files are
    well formed, and what it returns satisfies [Q]. *)
Definition no_encode_error {A} (Q : A → Prop) (m : M A) : Prop :=
  ∀ w, files_wf w → match fst (m w) with inr x => Q x | inl e => e ≠ UnicodeEncodeError end.

(** A computation whose change of the world is a run of the machine. *)
Definition steps_of {A} (m : M A) : Prop := ∀ w, rtc step w (snd (m w)).

(** A computation that leaves an observation [f] of the world as it was,
    on every outcome. *)
Definition preserves {X A} (f : world → X) (m : M A) : Prop := ∀ w, f (snd (m w)) = f w.

(** The set of open handles. *)
Definition handles (w : world) : gset nat := dom (w_files w).

(** [[f(x) for _ in range(n)]]: run [m] [n] times, collecting the results. *)
Fixpoint repeat_m {A} (n : nat) (m : M A) : M (list A) :=
  match n with
  | O => mret []
  | S n' => x ← m; xs ← repeat_m n' m; mret (x :: xs)
  end.

(** [n] calls of [readline] on a text: the lines returned and the text
    left. *)
Fixpoint lines_n (n : nat) (s : text) : list text * text :=
  match n with
  | O => ([], s)
  | S n' => let '(l, r) := line_split s in let '(ls, r') := lines_n n' r in (l :: ls, r')
  end.

(** ** The monad *)

Lemma bind_unfold {A B} (m : M A) (k : A → M B) w :
  (x ← m; k x) w = match m w with (inr x, w') => k x w' | (inl e, w') => (inl e, w') end.
Proof. done. Qed.

Lemma ret_unfold {A} (x : A) w : (mret x : M A) w = (inr x, w).
Proof. done. Qed.

(** Run a computation written with [x ← m; k] one bind at a time. *)
Ltac m_run :=
  repeat first
    [ rewrite bind_unfold | rewrite ret_unfold | progress cbn beta iota ].

(** ** Runs of the machine *)

Section Steps.
Lemma steps_ret {A} (x : A) : steps_of (mret x).
Proof. intros w. reflexivity. Qed.

Lemma steps_raise {A} e : steps_of (raise (A:=A) e).
Proof. intros w. reflexivity. Qed.

Lemma steps_bind {A B} (m : M A) (k : A → M B) :
  steps_of m → (∀ x, steps_of (k x)) → steps_of (x ← m; k x).
Proof.
  intros Hm Hk w. rewrite bind_unfold. specialize (Hm w).
  destruct (m w) as [[e|x] w']; simpl in *; [done|]. etrans; [exact Hm | apply Hk].
Qed.

Lemma steps_op {A} (m : M A) o : (∀ w, snd (m w) = run_op o w) → steps_of m.
Proof. intros Hm w. rewrite Hm. apply rtc_once. constructor. Qed.

Lemma steps_open p : steps_of (py_open p).
Proof. by apply steps_op with (OpOpen p). Qed.
Lemma steps_read h : steps_of (py_read h).
Proof. by apply steps_op with (OpRead h). Qed.
Lemma steps_readline h : steps_of (py_readline h).
Proof. by apply steps_op with (OpReadline h). Qed.
Lemma steps_close h : steps_of (py_close h).
Proof. by apply steps_op with (OpClose h). Qed.
Lemma steps_write t : steps_of (write t).
Proof. by apply steps_op with (OpWrite t). Qed.

Lemma steps_str_val v : steps_of (str_val v).
Proof.
  destruct v as [t|z]; simpl; [apply steps_ret|].
  destruct (PyInt.py_str z); [apply steps_ret | apply steps_raise].
Qed.

Lemma steps_print args : steps_of (print args).
Proof.
  unfold print. generalize true. induction args as [|a args IH]; intros first; simpl.
  - apply steps_write.
  - apply steps_bind; [destruct first; [apply steps_ret | apply steps_write]|]. intros _.
    apply steps_bind; [apply steps_str_val|]. intros t.
    apply steps_bind; [apply steps_write | intros; apply IH].
Qed.

Lemma steps_argv argv i : steps_of (argv_get argv i).
Proof. unfold argv_get. destruct (argv !! i); [apply steps_ret | apply steps_raise]. Qed.

Lemma steps_close_after {A} h (m : M A) : steps_of m → steps_of (close_after h m).
Proof.
  intros Hm w. unfold close_after. specialize (Hm w). destruct (m w) as [r w'].
  simpl in *. etrans; [exact Hm|]. apply rtc_once, (step_op (OpClose h)).
Qed.

Lemma steps_with_file {A} p (body : nat → M A) :
  (∀ h, steps_of (body h)) → steps_of (with_file p body).
Proof.
  intros. apply steps_bind; [apply steps_open|]. intros h. by apply steps_close_after.
Qed.

Lemma steps_repeat {A} n (m : M A) : steps_of m → steps_of (repeat_m n m).
Proof.
  intros Hm. induction n as [|n IH]; simpl; [apply steps_ret|].
  apply steps_bind; [done|]. intros x. apply steps_bind; [done|]. intros. apply steps_ret.
Qed.
End Steps.

Create HintDb pyio discriminated.
#[export] Hint Resolve steps_ret steps_raise steps_open steps_read steps_readline
  steps_close steps_write steps_print steps_argv steps_close_after steps_with_file steps_repeat : pyio.

(** Prove [steps_of] of a composed computation from its parts. *)
Ltac solve_steps :=
  repeat first
    [ apply steps_with_file; intros
    | apply steps_close_after
    | apply steps_repeat
    | apply steps_bind; intros
    | progress (eauto with pyio)
    | match goal with |- steps_of (match ?x with _ => _ end) => destruct x end ].

(** ** One step keeps the invariants *)

Lemma step_fs w w' : step w w' → w_fs w' = w_fs w.
Proof.
  intros [[p|h|h|h|t] w0]; simpl;
    unfold py_open, py_read, py_readline, py_close, write, set_files, add_stdout;
    repeat case_match; done.
Qed.

Lemma step_stdout w w' : step w w' → w_stdout w `prefix_of` w_stdout w'.
Proof.
  intros [[p|h|h|h|t] w0]; simpl;
    unfold py_open, py_read, py_readline, py_close, write, set_files, add_stdout;
    repeat case_match; simpl; try done; by eexists.
Qed.

Lemma step_wf w w' : step w w' → wf_world w → wf_world w'.
Proof.
  intros [[p|h|h|h|t] w0] Hwf; simpl;
    unfold py_open, py_read, py_readline, py_close, write, set_files, add_stdout;
    repeat case_match; simplify_eq/=; try done; intros h' Hh'; cbn in *.
  - rewrite lookup_insert in Hh'. case_decide; [lia|]. apply Hwf in Hh'. lia.
  - rewrite lookup_insert in Hh'. case_decide; [subst; apply Hwf; by eexists|]. by apply Hwf.
  - rewrite lookup_insert in Hh'. case_decide; [subst; apply Hwf; by eexists|]. by apply Hwf.
  - rewrite lookup_delete in Hh'. case_decide; [by destruct Hh'|]. by apply Hwf.
Qed.

Lemma encodable_sp : Utf8.encodable [SP].
Proof. apply Utf8.utf8_encode_is_Some. vm_compute. by eexists. Qed.

Lemma encodable_lf : Utf8.encodable [LF].
Proof. apply Utf8.utf8_encode_is_Some. vm_compute. by eexists. Qed.

Lemma write_ok t w : Utf8.encodable t → write t w = (inr (), add_stdout t w).
Proof. intros [bs Hbs]%Utf8.utf8_encode_is_Some. unfold write. by rewrite Hbs. Qed.

Lemma step_files_wf w w' : step w w' → files_wf w → files_wf w'.
Proof.
  intros [[p|h|h|h|t] w0] Hf; simpl;
    unfold py_open, py_read, py_readline, py_close, write, set_files, add_stdout;
    repeat case_match; simplify_eq/=; try done; unfold files_wf; cbn [w_files].
  - apply map_Forall_insert_2; [apply open_wrapper_wf | done].
  - apply map_Forall_insert_2; [by eapply read_all_wf | done].
  - apply map_Forall_insert_2; [|done]. eapply readline_keeps_wf; [|done]. by apply (Hf h).
  - by apply map_Forall_delete.
Qed.

(** Standard output stays text the strict encoder accepts: [write]
    appends only such text. *)
Lemma step_encodable w w' : step w w' → Utf8.encodable (w_stdout w) → Utf8.encodable (w_stdout w').
Proof.
  intros [[p|h|h|h|t] w0] He; simpl;
    unfold py_open, py_read, py_readline, py_close, write, set_files, add_stdout;
    repeat case_match; simplify_eq/=; try done.
  apply Utf8.encodable_app. split; [done|]. apply Utf8.utf8_encode_is_Some. by eexists.
Qed.

Lemma steps_files_wf {A} (m : M A) w : steps_of m → files_wf w → files_wf (snd (m w)).
Proof.
  intros Hm. specialize (Hm w). induction Hm as [|x y z Hs _ IH]; [done|].
  intros. apply IH. by eapply step_files_wf.
Qed.

Lemma steps_encodable {A} (m : M A) w :
  steps_of m → Utf8.encodable (w_stdout w) → Utf8.encodable (w_stdout (snd (m w))).
Proof.
  intros Hm. specialize (Hm w). induction Hm as [|x y z Hs _ IH]; [done|].
  intros. apply IH. by eapply step_encodable.
Qed.

(** ** Reading lines *)

Lemma lines_n_eof n : lines_n n [] = (replicate n [], []).
Proof. induction n as [|n IH]; simpl; [done|]. by rewrite IH. Qed.

Lemma lines_n_add a b s :
  lines_n (a + b) s =
  let '(xs, r) := lines_n a s in let '(ys, r') := lines_n b r in (xs ++ ys, r').
Proof.
  revert s; induction a as [|a IH]; intros s; simpl.
  - by destruct (lines_n b s).
  - destruct (line_split s) as [l r]. rewrite IH.
    destruct (lines_n a r) as [xs r1]. by destruct (lines_n b r1).
Qed.

Lemma lines_n_join ls r :
  Forall (λ l, LF ∉ l) ls →
  lines_n (length ls) (concat ((λ l, l ++ [LF]) <$> ls) ++ r) = ((λ l, l ++ [LF]) <$> ls, r).
Proof.
  induction 1 as [|l ls Hl _ IH]; [done|].
  rewrite fmap_cons, concat_cons. cbn [length lines_n].
  rewrite <- !app_assoc. simpl. rewrite line_split_line by done. by rewrite IH.
Qed.

(** [readline] on an open file whose rest decodes: its first line. *)
Lemma py_readline_view h w fo t :
  w_files w !! h = Some fo → view (fo_stream fo) = Some t →
  ∃ s, view s = Some (snd (line_split t)) ∧
    py_readline h w =
    (inr (fst (line_split t)), set_files (<[h := FileObject (fo_path fo) s]> (w_files w)) w).
Proof.
  intros Hfo Hv. destruct (readline_loop_view (readline_fuel (fo_stream fo)) [] (fo_stream fo) t)
    as (s & Hrun & Hs); [unfold readline_fuel; lia | done|].
  exists s. split; [done|]. unfold py_readline, readline. by rewrite Hfo, Hrun.
Qed.

(** [read()] on an open file whose rest decodes: all of it. *)
Lemma py_read_view h w fo t :
  w_files w !! h = Some fo → view (fo_stream fo) = Some t →
  py_read h w =
  (inr t, set_files (<[h := FileObject (fo_path fo) (Wrapper [] [] false [])]> (w_files w)) w).
Proof. intros Hfo Hv. unfold py_read. by rewrite Hfo, read_all_view, Hv. Qed.

Lemma set_files_set_files fs1 fs2 w : set_files fs1 (set_files fs2 w) = set_files fs1 w.
Proof. done. Qed.

Lemma set_files_id w : set_files (w_files w) w = w.
Proof. by destruct w. Qed.

(** The comprehension [[f(fh.readline()) for _ in range(n)]] on an open
    file object whose rest decodes runs [lines_n] on what is left. *)
Lemma repeat_readline {A} (f : text → A) n h w fo t :
  w_files w !! h = Some fo → view (fo_stream fo) = Some t →
  ∃ s, view s = Some (snd (lines_n n t)) ∧
    repeat_m n (l ← py_readline h; mret (f l)) w =
    (inr (f <$> fst (lines_n n t)), set_files (<[h := FileObject (fo_path fo) s]> (w_files w)) w).
Proof.
  revert w fo t; induction n as [|n IH]; intros w [p s0] t Hfo Hv; simpl.
  - exists s0. split; [done|]. rewrite insert_id by done. by rewrite set_files_id.
  - rewrite !bind_unfold. destruct (py_readline_view h w _ t Hfo Hv) as (s1 & Hs1 & ->).
    destruct (line_split t) as [l r]. simpl in *. rewrite bind_unfold.
    destruct (IH (set_files (<[h := FileObject p s1]> (w_files w)) w) (FileObject p s1) r
      ltac:(simpl; apply lookup_insert_eq) Hs1) as (s2 & Hs2 & ->).
    destruct (lines_n n r) as [ls r']. simpl in *. exists s2. split; [done|].
    rewrite ret_unfold, set_files_set_files. simpl. by rewrite insert_insert_eq.
Qed.

(** [n] calls of [readline] with [n] at least the length of the text
    return all of it and leave nothing. *)
Lemma lines_n_exhaust n t :
  length t ≤ n → concat (fst (lines_n n t)) = t ∧ snd (lines_n n t) = [].
Proof.
  revert t. induction n as [|n IH]; intros t Ht; [by destruct t; simpl in *; [|lia]|].
  destruct t as [|c t'].
  { rewrite lines_n_eof. split; [|done]. simpl fst. clear. induction n as [|k IHk]; [done|].
    exact IHk. }
  cbn [lines_n]. pose proof (line_split_app_id (c :: t')) as Hsplit.
  destruct (line_split (c :: t')) as [l r] eqn:Hls. simpl in Hsplit.
  assert (l ≠ []) by (intros ->; simpl in Hls; case_bool_decide; [done|];
    destruct (line_split t'); discriminate).
  assert (Hr : length r ≤ n).
  { apply (f_equal length) in Hsplit. rewrite length_app in Hsplit. destruct l; [done|].
    simpl in *. lia. }
  destruct (IH r Hr) as [Hc Hn]. destruct (lines_n n r) as [ls r']. simpl in *.
  by rewrite Hc, Hsplit.
Qed.

(** ** Handles kept and released *)

Section Preserves.
Context {X : Type} (f : world → X).

Lemma preserves_ret {A} (x : A) : preserves f (mret x).
Proof. done. Qed.

Lemma preserves_raise {A} e : preserves f (raise (A:=A) e).
Proof. done. Qed.

Lemma preserves_bind {A B} (m : M A) (k : A → M B) :
  preserves f m → (∀ x, preserves f (k x)) → preserves f (x ← m; k x).
Proof.
  intros Hm Hk w. rewrite bind_unfold. specialize (Hm w).
  destruct (m w) as [[e|x] w']; simpl in *; [done|]. by rewrite Hk.
Qed.

Lemma preserves_repeat {A} n (m : M A) : preserves f m → preserves f (repeat_m n m).
Proof.
  intros Hm. induction n as [|n IH]; simpl; [apply preserves_ret|].
  apply preserves_bind; [done|]. intros. apply preserves_bind; [done|].
  intros. apply preserves_ret.
Qed.
End Preserves.

Lemma preserves_argv {X} (f : world → X) argv i : preserves f (argv_get argv i).
Proof. unfold argv_get. by destruct (argv !! i). Qed.

#[export] Hint Resolve preserves_ret preserves_raise preserves_argv : pyio.

(** Reading, opening and closing never write to standard output. *)
Lemma stdout_open p : preserves w_stdout (py_open p).
Proof. intros w. unfold py_open. by repeat case_match. Qed.
Lemma stdout_read h : preserves w_stdout (py_read h).
Proof. intros w. unfold py_read. by repeat case_match. Qed.
Lemma stdout_readline h : preserves w_stdout (py_readline h).
Proof. intros w. unfold py_readline. by repeat case_match. Qed.
Lemma stdout_close h : preserves w_stdout (py_close h).
Proof. done. Qed.
Lemma stdout_close_after {A} h (m : M A) :
  preserves w_stdout m → preserves w_stdout (close_after h m).
Proof. intros Hm w. unfold close_after. specialize (Hm w). by destruct (m w). Qed.
Lemma stdout_with_file {A} p (body : nat → M A) :
  (∀ h, preserves w_stdout (body h)) → preserves w_stdout (with_file p body).
Proof.
  intros Hb. apply preserves_bind; [apply stdout_open|]. intros h. by apply stdout_close_after.
Qed.

#[export] Hint Resolve stdout_open stdout_read stdout_readline stdout_close : pyio.

(** Prove that a composed computation preserves an observation. *)
Ltac solve_preserves :=
  repeat first
    [ apply stdout_with_file; intros
    | apply stdout_close_after
    | apply preserves_bind; intros
    | apply preserves_repeat
    | progress (eauto with pyio)
    | match goal with |- preserves _ (match ?x with _ => _ end) => destruct x end ].

(** Reading and writing keep the set of open handles. *)
Lemma handles_readline h : preserves handles (py_readline h).
Proof.
  intros w. unfold py_readline, handles. destruct (w_files w !! h) eqn:E; [|done].
  repeat case_match; try done. simpl. apply dom_insert_lookup_L. by eexists.
Qed.

Lemma handles_read h : preserves handles (py_read h).
Proof.
  intros w. unfold py_read, handles. destruct (w_files w !! h) eqn:E; [|done].
  repeat case_match; try done. simpl. apply dom_insert_lookup_L. by eexists.
Qed.

Lemma handles_write t : preserves handles (write t).
Proof. intros w. unfold write. by case_match. Qed.

Lemma handles_print args : preserves handles (print args).
Proof.
  unfold print. generalize true.
  induction args as [|a args IH]; intros first; simpl; [apply handles_write|].
  apply preserves_bind; [destruct first; [done | apply handles_write]|]. intros _.
  apply preserves_bind; [destruct a as [|z]; simpl; [done|]; by destruct (PyInt.py_str z)|].
  intros t. apply preserves_bind; [apply handles_write | intros; apply IH].
Qed.

Lemma wf_fresh w : wf_world w → w_files w !! w_next w = None.
Proof.
  intros Hwf. destruct (w_files w !! w_next w) eqn:E; [|done].
  pose proof (Hwf _ (mk_is_Some _ _ E)). lia.
Qed.

(** A file opened, used without changing the open handles, and closed
    again, leaves the open handles as they were. *)
Lemma handles_open_close {A} p (body : nat → M A) w :
  wf_world w → (∀ h, preserves handles (body h)) →
  handles (snd ((h ← py_open p; close_after h (body h)) w)) = handles w.
Proof.
  intros Hwf Hb. rewrite bind_unfold. unfold py_open.
  pose proof (wf_fresh w Hwf) as Hfresh.
  destruct (w_fs w !! p) as [[d| |]|]; simpl; try done.
  unfold close_after. specialize (Hb (w_next w)
    (World (w_fs w) (<[w_next w := FileObject p (open_wrapper d)]> (w_files w))
           (S (w_next w)) (w_stdout w))).
  unfold handles in *. destruct (body _ _) as [r w']. simpl in *.
  rewrite dom_delete_L, Hb. simpl. rewrite dom_insert_L.
  apply not_elem_of_dom in Hfresh. set_solver.
Qed.

Lemma steps_wf {A} (m : M A) w : steps_of m → wf_world w → wf_world (snd (m w)).
Proof.
  intros Hm. specialize (Hm w). induction Hm as [|x y z Hs _ IH]; [done|].
  intros. apply IH. by eapply step_wf.
Qed.

(** ** No [UnicodeEncodeError] *)

Section NoEncodeError.

(** Close the cases of a primitive: a result, or another exception. *)
Local Ltac ne_cases := cbn; first [done | congruence].

Lemma ne_ret {A} (Q : A → Prop) x : Q x → no_encode_error Q (mret x).
Proof. by intros ? w _. Qed.

Lemma ne_raise {A} (Q : A → Prop) e : e ≠ UnicodeEncodeError → no_encode_error Q (raise e).
Proof. by intros ? w _. Qed.

Lemma ne_weaken {A} (Q Q' : A → Prop) m :
  (∀ x, Q x → Q' x) → no_encode_error Q m → no_encode_error Q' m.
Proof. intros HQ Hm w Hw. specialize (Hm w Hw). destruct (fst (m w)); auto. Qed.

Lemma ne_bind {A B} (Q : A → Prop) (R : B → Prop) m (k : A → M B) :
  no_encode_error Q m → steps_of m → (∀ x, Q x → no_encode_error R (k x)) →
  no_encode_error R (x ← m; k x).
Proof.
  intros Hm Hs Hk w Hw. rewrite bind_unfold. specialize (Hm w Hw).
  pose proof (steps_files_wf m w Hs Hw) as Hw'.
  destruct (m w) as [[e|x] w']; simpl in *; [done|]. by apply Hk.
Qed.

Lemma ne_argv argv i : no_encode_error (λ _, True) (argv_get argv i).
Proof. intros w _. unfold argv_get. destruct (argv !! i); ne_cases. Qed.

Lemma ne_open p : no_encode_error (λ _, True) (py_open p).
Proof. intros w _. unfold py_open. destruct (w_fs w !! p) as [[]|]; ne_cases. Qed.

Lemma ne_read h : no_encode_error (λ _, True) (py_read h).
Proof.
  intros w _. unfold py_read. destruct (w_files w !! h); [destruct (read_all _) as [[]|]|]; ne_cases.
Qed.

(** A line [readline] returns is text of a [str] without surrogates. *)
Lemma ne_readline h : no_encode_error (Forall Utf8.str_char) (py_readline h).
Proof.
  intros w Hw. unfold py_readline. destruct (w_files w !! h) as [fo|] eqn:Hfo; [|simpl; congruence].
  destruct (readline (fo_stream fo)) as [[l s]| |] eqn:E; simpl; try congruence.
  eapply readline_keeps_wf; [exact (Hw h fo Hfo) | exact E].
Qed.

Lemma ne_close_after {A} (Q : A → Prop) h m : no_encode_error Q m → no_encode_error Q (close_after h m).
Proof. intros Hm w Hw. specialize (Hm w Hw). unfold close_after. by destruct (m w). Qed.

Lemma ne_with_file {A} (Q : A → Prop) p body :
  (∀ h, no_encode_error Q (body h)) → no_encode_error Q (with_file p body).
Proof.
  intros Hb. apply (ne_bind (λ _, True)); [apply ne_open | apply steps_open |].
  intros h _. by apply ne_close_after.
Qed.

Lemma ne_repeat {A} (Q : A → Prop) n m :
  no_encode_error Q m → steps_of m → no_encode_error (Forall Q) (repeat_m n m).
Proof.
  intros Hm Hs. induction n as [|n IH]; simpl; [by apply ne_ret|].
  apply (ne_bind Q); [done | done |]. intros x Hx.
  apply (ne_bind (Forall Q)); [done | by apply steps_repeat |]. intros xs Hxs.
  apply ne_ret. by constructor.
Qed.

Lemma ne_write t : Utf8.encodable t → no_encode_error (λ _, True) (write t).
Proof. intros Ht w _. by rewrite write_ok. Qed.

(** [str] of an integer is a sign and ASCII digits. *)
Lemma py_str_encodable z t : PyInt.py_str z = Some t → Utf8.encodable t.
Proof.
  unfold PyInt.py_str. case_bool_decide; intros; simplify_eq.
  apply Forall_app. split; [by case_bool_decide; repeat constructor|].
  apply Forall_fmap, Forall_forall. intros d Hd. unfold compose, Utf8.is_surrogate, DIGIT0.
  pose proof (PyInt.decimal_digits_lt_10 (Z.abs_N z)) as Hlt. rewrite Forall_forall in Hlt.
  specialize (Hlt d Hd). apply bool_decide_eq_false_2. lia.
Qed.

Definition val_encodable (v : pyval) : Prop :=
  match v with VStr t => Utf8.encodable t | VInt _ => True end.

(** [print] raises no [UnicodeEncodeError] when its string arguments
    have no surrogate. *)
Lemma ne_print args : Forall val_encodable args → no_encode_error (λ _, True) (print args).
Proof.
  intros Hargs. unfold print. generalize true.
  pose proof encodable_sp. pose proof encodable_lf.
  induction Hargs as [|a args Ha _ IH]; intros first; simpl; [by apply ne_write|].
  apply (ne_bind (λ _, True)); [destruct first; [by apply ne_ret | by apply ne_write] | by destruct first; eauto with pyio |].
  intros _ _. apply (ne_bind Utf8.encodable); [| apply steps_str_val |].
  - intros w _. destruct a as [t|z]; simpl; [done|]. destruct (PyInt.py_str z) eqn:E; [|done].
    by apply (py_str_encodable z).
  - intros t Ht. apply (ne_bind (λ _, True)); [by apply ne_write | apply steps_write | intros; apply IH].
Qed.

End NoEncodeError.

(** ** Properties *)

(** C14: the runtime as a state machine: from a well-formed world, every
    reachable world is well formed (open handles below the next fresh
    one, every open file's [TextIOWrapper] well formed), has the same
    file system (the script writes no file), extends the standard output
    of the first (what is printed is never taken back), and keeps
    standard output text that the strict UTF-8 encoder accepts. *)
Theorem reachable_invariants w0 w :
  rtc step w0 w → wf_world w0 → files_wf w0 → Utf8.encodable (w_stdout w0) →
  wf_world w ∧ files_wf w ∧ Utf8.encodable (w_stdout w) ∧
  w_fs w = w_fs w0 ∧ w_stdout w0 `prefix_of` w_stdout w.
Proof.
  induction 1 as [x|x y z Hs _ IH]; intros Hwf Hf He.
  - split_and!; done.
  - destruct (IH (step_wf _ _ Hs Hwf) (step_files_wf _ _ Hs Hf) (step_encodable _ _ Hs He))
      as (? & ? & ? & Hfs & Hout).
    split_and!; [done | done | done | |].
    + by rewrite Hfs, (step_fs _ _ Hs).
    + etrans; [apply (step_stdout _ _ Hs) | done].
Qed.

Lemma reachable_invariants_witness :
  rtc step empty_world (run_op (OpWrite ⟪"x"⟫) empty_world) ∧ wf_world empty_world ∧
  files_wf empty_world ∧ Utf8.encodable (w_stdout empty_world) ∧
  Utf8.encodable (w_stdout (run_op (OpWrite ⟪"x"⟫) empty_world)).
Proof.
  assert (H1 : rtc step empty_world (run_op (OpWrite ⟪"x"⟫) empty_world))
    by (apply rtc_once; constructor).
  assert (H2 : wf_world empty_world) by (intros h [? Hh]; simpl in Hh; by rewrite lookup_empty in Hh).
  assert (H3 : files_wf empty_world) by apply map_Forall_empty.
  assert (H4 : Utf8.encodable (w_stdout empty_world)) by constructor.
  split_and!; [exact H1 | exact H2 | exact H3 | exact H4 |].
  exact (proj1 (proj2 (proj2 (reachable_invariants _ _ H1 H2 H3 H4)))).
Defined.

(** C15: [readline] on a text of LF-terminated lines returns the lines one
    by one, each with its LF, and then [''] at every further call: reading
    past the end of the file is not an error. *)
Theorem readline_lines_then_eof (ls : list text) (k : nat) :
  Forall (λ l, LF ∉ l) ls →
  lines_n (length ls + k) (concat ((λ l, l ++ [LF]) <$> ls)) =
  (((λ l, l ++ [LF]) <$> ls) ++ replicate k [], []).
Proof.
  intros Hls. rewrite lines_n_add.
  rewrite <- (app_nil_r (concat _)), lines_n_join by done.
  by rewrite lines_n_eof.
Qed.

Lemma readline_lines_then_eof_witness :
  Forall (λ l, LF ∉ l) [⟪"ab"⟫; ⟪"cd"⟫] ∧
  lines_n (length [⟪"ab"⟫; ⟪"cd"⟫] + 2) (concat ((λ l, l ++ [LF]) <$> [⟪"ab"⟫; ⟪"cd"⟫])) =
  (((λ l, l ++ [LF]) <$> [⟪"ab"⟫; ⟪"cd"⟫]) ++ replicate 2 [], []).
Proof.
  assert (H : Forall (λ l, LF ∉ l) [⟪"ab"⟫; ⟪"cd"⟫])
    by (apply (bool_decide_unpack _); vm_compute; reflexivity).
  split; [exact H | exact (readline_lines_then_eof _ 2 H)].
Defined.

(** C31: the comprehension of line 8 makes progress through the file:
    [n] calls of [readline] on an open file whose rest [t] decodes, with
    [n] at least the length of [t], return lines that together are [t],
    and leave the file at its end (every further call returns ['']). *)
Theorem readlines_reach_eof {A} (f : text → A) n h w fo t :
  w_files w !! h = Some fo → view (fo_stream fo) = Some t → length t ≤ n →
  ∃ ls s, repeat_m n (l ← py_readline h; mret (f l)) w =
      (inr (f <$> ls), set_files (<[h := FileObject (fo_path fo) s]> (w_files w)) w) ∧
    concat ls = t ∧ view s = Some [].
Proof.
  intros Hfo Hv Hn. destruct (repeat_readline f n h w fo t Hfo Hv) as (s & Hs & ->).
  destruct (lines_n_exhaust n t Hn) as [Hc Hr].
  exists (fst (lines_n n t)), s. rewrite <- Hr. done.
Qed.

Lemma readlines_reach_eof_witness :
  let w := World {[ ⟪"f"⟫ := RegularFile (bytes_of (⟪"a"⟫ ++ [LF] ++ ⟪"b"⟫)) ]}
             {[ 0 := FileObject ⟪"f"⟫ (open_wrapper (bytes_of (⟪"a"⟫ ++ [LF] ++ ⟪"b"⟫))) ]} 1 [] in
  w_files w !! 0 = Some (FileObject ⟪"f"⟫ (open_wrapper (bytes_of (⟪"a"⟫ ++ [LF] ++ ⟪"b"⟫)))) ∧
  view (open_wrapper (bytes_of (⟪"a"⟫ ++ [LF] ++ ⟪"b"⟫))) = Some (⟪"a"⟫ ++ [LF] ++ ⟪"b"⟫) ∧
  ∃ ls s, repeat_m 3 (l ← py_readline 0; mret l) w =
      (inr ls, set_files (<[0 := FileObject ⟪"f"⟫ s]> (w_files w)) w) ∧
    concat ls = (⟪"a"⟫ ++ [LF] ++ ⟪"b"⟫) ∧ view s = Some [].
Proof.
  intros w. assert (Hv : view (open_wrapper (bytes_of (⟪"a"⟫ ++ [LF] ++ ⟪"b"⟫))) = Some (⟪"a"⟫ ++ [LF] ++ ⟪"b"⟫))
    by (vm_compute; reflexivity).
  split_and!; [reflexivity | exact Hv |].
  destruct (readlines_reach_eof (λ l, l) 3 0 w _ _ eq_refl Hv ltac:(simpl; lia))
    as (ls & s & Hrun & Hc & Hs).
  exists ls, s. rewrite list_fmap_id in Hrun. split_and!; [exact Hrun | exact Hc | exact Hs].
Defined.

End PyIO.
