(* ===== verification/Checker.v ===== *)
(** * [checker.py] itself

    The script, statement by statement, on top of the built-ins of
    [PyStr], [PyInt] and [PyIO]:
    - [read_output] is line 5, [S = open(sys.argv[1]).read().splitlines()[0]];
      the file object is a temporary that CPython releases, and so closes,
      as soon as [read] returns or raises;
    - [read_fragments] is lines 6-8: the [with] block, [int] of the first
      line, and the comprehension of [n] [readline().rstrip('\n')];
    - [check_loop] is lines 10-14, the loop with its flag [ok];
    - [report] is lines 16-18;
    - [main] is the whole script and [run] runs it from a world with the
      given file system, no open file and an empty standard output.
    The abstract specification [expected_stdout] says what the report
    should be: one [FALHOU] line per fragment that is not an infix of [S],
    in order, and the [OK] lines when there is none.  The theorems show the
    loop refines it, that a run on well-formed files prints it and exits
    normally with every file closed, that errors come before any report,
    that no run raises [UnicodeEncodeError] when it prints, and what the
    script does on inputs the specification does not foresee.  The
    concrete runs use [PyInt.unicode_decimal_table], the Unicode
    database of CPython 3.12.
*)

From S2P Require Import Prelude Utf8 PyStr PyInt TextIO PyIO.
From stdpp Require Import gmap.
From Stdlib Require Import NArith ZArith.
Import PyIO PyStr TextIO Utf8.

Module Checker.

(** ** The messages of lines 13, 17 and 18 *)

Definition msg_falhou : text := ⟪"FALHOU:"⟫.
(** ["não está contida na saída"] *)
Definition msg_nao_contida : text :=
  ⟪"n"⟫ ++ [227%N] ++ ⟪"o est"⟫ ++ [225%N] ++ ⟪" contida na sa"⟫ ++ [237%N] ++ ⟪"da"⟫.
(** ["OK: todas as strings estão contidas na saída."] *)
Definition msg_ok : text :=
  ⟪"OK: todas as strings est"⟫ ++ [227%N] ++ ⟪"o contidas na sa"⟫ ++ [237%N] ++ ⟪"da."⟫.
(** ["len(saída) ="] *)
Definition msg_len : text := ⟪"len(sa"⟫ ++ [237%N] ++ ⟪"da) ="⟫.

(** ** The script *)

Section Script.
Context `{!PyInt.DecimalTable}.

(** Line 5. *)
Definition read_output (argv : list text) : M text :=
  p ← argv_get argv 1;
  data ← (h ← py_open p; close_after h (py_read h));
  match PyStr.splitlines data !! 0 with
  | Some s => mret s
  | None => raise IndexError
  end.

(** [int(line)] of line 7. *)
Definition parse_count (line : text) : M Z :=
  match PyInt.py_int line with
  | Some n => mret n
  | None => raise ValueError
  end.

(** Lines 6-8; [range(n)] is empty for [n <= 0]. *)
Definition read_fragments (argv : list text) : M (list text) :=
  p ← argv_get argv 2;
  with_file p (λ h,
    first ← py_readline h;
    n ← parse_count first;
    repeat_m (Z.to_nat n) (l ← py_readline h; mret (PyStr.rstrip [LF] l))).

(** Lines 10-14: [for s in arr: if s not in S: print(...); ok = False]. *)
Fixpoint check_loop (S : text) (arr : list text) (ok : bool) : M bool :=
  match arr with
  | [] => mret ok
  | s :: arr' =>
      if negb (PyStr.contains S s) then
        _ ← print [VStr msg_falhou; VStr s; VStr msg_nao_contida];
        check_loop S arr' false
      else check_loop S arr' ok
  end.

(** Lines 16-18. *)
Definition report (S : text) (ok : bool) : M unit :=
  if ok then
    _ ← print [VStr msg_ok];
    print [VStr msg_len; VInt (Z.of_nat (length S))]
  else mret ().

Definition main (argv : list text) : M unit :=
  S ← read_output argv;
  arr ← read_fragments argv;
  ok ← check_loop S arr true;
  report S ok.
End Script.

Definition initial_world (fs : gmap text fentry) : world := World fs ∅ 0 [].

Definition run `{!PyInt.DecimalTable} (fs : gmap text fentry) (argv : list text) :
  (exn + unit) * world := main argv (initial_world fs).

(** An uncaught exception ends the process with status 1. *)
Definition exit_status (r : exn + unit) : nat :=
  match r with inl _ => 1 | inr _ => 0 end.

(** ** The specification *)

(** The line printed for a missing fragment. *)
Definition fail_line (s : text) : text := msg_falhou ++ SP :: s ++ SP :: msg_nao_contida ++ [LF].

(** The fragments that are not contiguous substrings of [S], in order. *)
Definition missing (S : text) (arr : list text) : list text :=
  filter (λ s, ¬ infix_of s S) arr.

(** [str(len(S))]. *)
Definition len_text (S : text) : text :=
  PyInt.number_text false (PyInt.decimal_digits (N.of_nat (length S))).

Definition expected_stdout (S : text) (arr : list text) : text :=
  concat (fail_line <$> missing S arr) ++
  (if decide (missing S arr = []) then msg_ok ++ [LF] ++ msg_len ++ SP :: len_text S ++ [LF]
   else []).

(** A fragment file: the count [n] in decimal, then the fragments, each on
    its own line. *)
Definition spec_text (n : N) (frags : list text) : text :=
  PyInt.number_text false (PyInt.decimal_digits n) ++ [LF] ++ concat ((λ l, l ++ [LF]) <$> frags).

(** ** Concrete file systems *)

(** The first scenario of the specification: [abcdef] holds [ab] and
    [cd]. *)
Definition scenario1_fs : gmap text fentry :=
  <[⟪"saida.txt"⟫ := RegularFile (bytes_of (⟪"abcdef"⟫ ++ [LF]))]>
    {[⟪"entrada.txt"⟫ := RegularFile (bytes_of (spec_text 2 [⟪"ab"⟫; ⟪"cd"⟫]))]}.

Definition scenario_argv : list text := [⟪"checker.py"⟫; ⟪"saida.txt"⟫; ⟪"entrada.txt"⟫].

(** The fourth scenario of the specification: the count line is [abc]. *)
Definition scenario4_fs : gmap text fentry :=
  <[⟪"saida.txt"⟫ := RegularFile (bytes_of (⟪"abcdef"⟫ ++ [LF]))]>
    {[⟪"entrada.txt"⟫ := RegularFile (bytes_of (⟪"abc"⟫ ++ [LF] ++ ⟪"ab"⟫ ++ [LF]))]}.

(** A file system with the output file [saida.txt] and the fragment file
    [entrada.txt], given by the values of their bytes (ASCII text here, so
    the same as the text). *)
Definition two_files (out data : list N) : gmap text fentry :=
  <[⟪"saida.txt"⟫ := RegularFile (bytes_of out)]> {[⟪"entrada.txt"⟫ := RegularFile (bytes_of data)]}.

(** ** Printing *)

Lemma add_stdout_nil w : add_stdout [] w = w.
Proof. destruct w. unfold add_stdout. simpl. by rewrite app_nil_r. Qed.

Lemma add_stdout_add a b w : add_stdout b (add_stdout a w) = add_stdout (a ++ b) w.
Proof. unfold add_stdout. simpl. by rewrite app_assoc. Qed.

(** The messages have no surrogate: the strict encoder of standard
    output accepts them. *)
Lemma msgs_encodable :
  Utf8.encodable msg_falhou ∧ Utf8.encodable msg_nao_contida ∧ Utf8.encodable msg_ok ∧
  Utf8.encodable msg_len.
Proof. rewrite <- !Utf8.utf8_encode_is_Some. vm_compute. split_and!; by eexists. Qed.

(** Write the pieces of a [print] whose texts the encoder accepts. *)
Ltac write_pieces :=
  repeat first
    [ rewrite bind_unfold | rewrite ret_unfold | progress cbn beta iota
    | rewrite write_ok by (done || apply encodable_sp || apply encodable_lf || apply msgs_encodable) ].

Lemma print_str a w : Utf8.encodable a → print [VStr a] w = (inr (), add_stdout (a ++ [LF]) w).
Proof. intros. unfold print. cbn [print_args str_val]. write_pieces. by rewrite add_stdout_add. Qed.

Lemma print_fail s w :
  Utf8.encodable s →
  print [VStr msg_falhou; VStr s; VStr msg_nao_contida] w = (inr (), add_stdout (fail_line s) w).
Proof.
  intros. unfold print, fail_line. cbn [print_args str_val]. write_pieces. rewrite !add_stdout_add.
  by rewrite <- ?app_assoc.
Qed.

(** [print("len(saída) =", len(S))]: the label and the space are written
    before [str] of the length is computed. *)
Lemma print_len z w :
  print [VStr msg_len; VInt z] w =
  match PyInt.py_str z with
  | Some t => (inr (), add_stdout (msg_len ++ SP :: t ++ [LF]) w)
  | None => (inl ValueError, add_stdout (msg_len ++ [SP]) w)
  end.
Proof.
  unfold print. cbn [print_args str_val]. write_pieces.
  destruct (PyInt.py_str z) as [t|] eqn:E; write_pieces;
    [rewrite (write_ok t) by (by apply (py_str_encodable z)); write_pieces|];
    rewrite !add_stdout_add; by rewrite <- ?app_assoc.
Qed.

Lemma py_str_len S :
  (N.of_nat (length S) < 10 ^ N.of_nat PyInt.int_max_str_digits)%N →
  PyInt.py_str (Z.of_nat (length S)) = Some (len_text S).
Proof.
  intros Hlen. assert (Habs : Z.abs_N (Z.of_nat (length S)) = N.of_nat (length S)).
  { apply N2Z.inj. rewrite N2Z.inj_abs_N, nat_N_Z. lia. }
  rewrite PyInt.py_str_ok; rewrite Habs; [|done]. unfold len_text.
  by rewrite bool_decide_eq_false_2 by lia.
Qed.

(** ** The loop and the report *)

Lemma missing_cons_in S s arr : infix_of s S → missing S (s :: arr) = missing S arr.
Proof. intros. unfold missing. rewrite filter_cons_False; [done|]. by intros []. Qed.

Lemma missing_cons_out S s arr : ¬ infix_of s S → missing S (s :: arr) = s :: missing S arr.
Proof. intros. unfold missing. by rewrite filter_cons_True. Qed.

(** The loop prints the line of every missing fragment, in order, and
    ends with [ok] cleared exactly when one was missing. *)
Lemma check_loop_run S arr ok w :
  Forall Utf8.encodable arr →
  check_loop S arr ok w =
  (inr (ok && bool_decide (missing S arr = [])),
   add_stdout (concat (fail_line <$> missing S arr)) w).
Proof.
  intros Harr. revert ok w. induction Harr as [|s arr Hs _ IH]; intros ok w; simpl.
  - rewrite add_stdout_nil, andb_true_r. done.
  - destruct (PyStr.contains S s) eqn:E; simpl.
    + rewrite missing_cons_in by (by apply contains_spec). apply IH.
    + apply contains_false in E. rewrite missing_cons_out by done.
      rewrite bind_unfold, print_fail, IH by done. simpl.
      rewrite add_stdout_add, ?bool_decide_eq_false_2 by done.
      by rewrite ?andb_false_r.
Qed.

Lemma report_true `{!PyInt.DecimalTable} S w :
  (N.of_nat (length S) < 10 ^ N.of_nat PyInt.int_max_str_digits)%N →
  report S true w = (inr (), add_stdout (msg_ok ++ [LF] ++ msg_len ++ SP :: len_text S ++ [LF]) w).
Proof.
  intros Hlen. unfold report.
  rewrite bind_unfold, print_str, print_len, py_str_len by (done || apply msgs_encodable).
  by rewrite add_stdout_add, <- app_assoc.
Qed.

(** The loop and the report together print [expected_stdout]. *)
Lemma loop_report_run `{!PyInt.DecimalTable} S arr w :
  Forall Utf8.encodable arr →
  (N.of_nat (length S) < 10 ^ N.of_nat PyInt.int_max_str_digits)%N →
  (ok ← check_loop S arr true; report S ok) w = (inr (), add_stdout (expected_stdout S arr) w).
Proof.
  intros Harr Hlen. rewrite bind_unfold, check_loop_run by done. cbn iota beta. unfold expected_stdout.
  destruct (decide (missing S arr = [])) as [Hm|Hm].
  - rewrite bool_decide_eq_true_2 by done. cbn [andb]. rewrite report_true by done.
    by rewrite add_stdout_add.
  - rewrite bool_decide_eq_false_2 by done. cbn [andb]. unfold report.
    rewrite ret_unfold. by rewrite app_nil_r.
Qed.

(** ** Reading the two files *)

Lemma close_fresh w h fo fo' :
  w_files w !! h = None →
  delete h (<[h := fo']> (<[h := fo]> (w_files w))) = w_files w.
Proof. intros. by rewrite insert_insert_eq, delete_insert_eq, delete_id. Qed.

(** Line 5 on an existing output file whose bytes decode to a non-empty
    text: [S] is the text before the first line boundary; the file is
    opened and closed again. *)
Lemma read_output_run `{!PyInt.DecimalTable} argv p d out w :
  wf_world w → argv !! 1 = Some p → w_fs w !! p = Some (RegularFile d) →
  utf8_decode true (Byte.to_N <$> d) = Some (out, []) → out ≠ [] →
  read_output argv w =
  (inr (PyStr.first_line (translate_newlines out)),
   World (w_fs w) (w_files w) (S (w_next w)) (w_stdout w)).
Proof.
  intros Hwf Harg Hp Hd Hout. unfold read_output, argv_get. rewrite Harg. m_run.
  unfold py_open. rewrite Hp. m_run. unfold close_after.
  rewrite (py_read_view _ _ (FileObject p (open_wrapper d)) (translate_newlines out))
    by (cbn [w_files fo_stream]; by rewrite ?lookup_insert_eq, ?view_open, ?Hd). m_run.
  destruct (PyStr.splitlines_cons_first (translate_newlines out)) as [ls Hls];
    [by rewrite translate_nil_iff|].
  rewrite Hls. m_run. unfold set_files. cbn. by rewrite close_fresh by (by apply wf_fresh).
Qed.

Lemma number_text_chars ds c :
  Forall (λ d, d < 10)%N ds → c ∈ PyInt.number_text false ds → (48 ≤ c)%N.
Proof.
  intros Hds Hc. unfold PyInt.number_text in Hc. simpl in Hc.
  apply list_elem_of_fmap in Hc as (d & -> & _). unfold DIGIT0. lia.
Qed.

Lemma count_line_no_lf n : LF ∉ PyInt.number_text false (PyInt.decimal_digits n).
Proof. intros H%number_text_chars; [unfold LF in H; lia | apply PyInt.decimal_digits_lt_10]. Qed.

Lemma spec_text_no_cr n frags : Forall (λ l, CR ∉ l) frags → CR ∉ spec_text n frags.
Proof.
  intros Hf. cut (Forall (λ c, c ≠ CR) (spec_text n frags)).
  { intros H HCR. rewrite Forall_forall in H. by apply (H CR). }
  unfold spec_text. rewrite !Forall_app, Forall_concat. split_and!.
  - apply Forall_forall. intros c Hc%number_text_chars; [unfold CR; lia | apply PyInt.decimal_digits_lt_10].
  - by apply Forall_singleton.
  - apply Forall_fmap. eapply Forall_impl; [done|]. intros l Hl. unfold compose.
    apply Forall_app. split; [apply Forall_forall; set_solver | by apply Forall_singleton].
Qed.

(** [readline().rstrip('\n')] of the fragment lines and of the empty
    reads past the end of the file. *)
Lemma rstrip_fragment_lines frags k :
  Forall (λ l, LF ∉ l) frags →
  PyStr.rstrip [LF] <$> (((λ l, l ++ [LF]) <$> frags) ++ replicate k []) = frags ++ replicate k [].
Proof.
  intros Hf. rewrite fmap_app. f_equal.
  - induction Hf as [|l frags Hl _ IH]; [done|]. rewrite !fmap_cons, IH. f_equal.
    rewrite PyStr.rstrip_app_stripped by (apply Forall_singleton; set_solver).
    apply PyStr.rstrip_keep. intros x Hx%last_Some_elem_of. set_solver.
  - induction k; [done|]. simpl. by f_equal.
Qed.

(** The first [k] fragment lines of a file of LF-terminated lines: the
    lines there are, then one empty read per line past the end. *)
Lemma lines_n_frags k frags :
  Forall (λ s, LF ∉ s) frags →
  fst (lines_n k (concat ((λ s, s ++ [LF]) <$> frags))) =
  ((λ s, s ++ [LF]) <$> take k frags) ++ replicate (k - length frags) [].
Proof.
  intros Hf. destruct (decide (k ≤ length frags)) as [Hk|Hk].
  - assert (Hl : length (take k frags) = k) by (rewrite length_take; lia).
    rewrite <- (take_drop k frags) at 1. rewrite fmap_app, concat_app.
    rewrite <- Hl at 1. rewrite lines_n_join by (by apply Forall_take).
    replace (k - length frags) with 0 by lia. by rewrite app_nil_r.
  - replace k with (length frags + (k - length frags)) at 1 by lia.
    rewrite lines_n_add, <- (app_nil_r (concat _)), lines_n_join, lines_n_eof by done.
    simpl. by rewrite take_ge by lia.
Qed.

(** Lines 6-8 on a fragment file whose bytes decode to the text [t]: the
    first line, read up to its LF, goes to [int]; when [int] rejects it
    the [with] block ends in [ValueError], and otherwise the next
    [Z.to_nat z] lines are read and right-stripped of LF.  Either way the
    file is opened and closed again. *)
Lemma read_fragments_view `{!PyInt.DecimalTable} argv p d t w :
  wf_world w → argv !! 2 = Some p → w_fs w !! p = Some (RegularFile d) →
  utf8_decode true (Byte.to_N <$> d) = Some (t, []) →
  read_fragments argv w =
  (match PyInt.py_int (fst (line_split (translate_newlines t))) with
   | Some z => inr (PyStr.rstrip [LF] <$> fst (lines_n (Z.to_nat z) (snd (line_split (translate_newlines t)))))
   | None => inl ValueError
   end, World (w_fs w) (w_files w) (S (w_next w)) (w_stdout w)).
Proof.
  intros Hwf Harg Hp Hd.
  unfold read_fragments, argv_get. rewrite Harg. m_run.
  unfold with_file. m_run. unfold py_open. rewrite Hp. m_run.
  unfold close_after. rewrite bind_unfold.
  destruct (py_readline_view (w_next w)
    (World (w_fs w) (<[w_next w := FileObject p (open_wrapper d)]> (w_files w)) (S (w_next w)) (w_stdout w))
    (FileObject p (open_wrapper d)) (translate_newlines t)) as (s1 & Hs1 & ->);
    [apply lookup_insert_eq | cbn [fo_stream]; by rewrite view_open, Hd|].
  m_run. unfold parse_count. destruct (PyInt.py_int _) as [z|]; m_run.
  - match goal with
    | |- context [repeat_m _ _ ?W] =>
        destruct (repeat_readline (PyStr.rstrip [LF]) (Z.to_nat z) (w_next w) W
          (FileObject p s1) _ ltac:(simpl; apply lookup_insert_eq) Hs1) as (s2 & _ & ->)
    end.
    unfold set_files. cbn. by rewrite insert_insert_eq, close_fresh by (by apply wf_fresh).
  - unfold raise, set_files. cbn. by rewrite close_fresh by (by apply wf_fresh).
Qed.

(** Lines 6-8 on a fragment file whose text, once CR LF is read as LF, is
    a count line [l] that [int] reads as [z], then fragment lines: the
    first [Z.to_nat z] fragments, then one empty fragment per line
    missing from the file. *)
Lemma read_fragments_counted `{!PyInt.DecimalTable} argv p d t l z frags w :
  wf_world w → argv !! 2 = Some p → w_fs w !! p = Some (RegularFile d) →
  utf8_decode true (Byte.to_N <$> d) = Some (t, []) →
  translate_newlines t = l ++ LF :: concat ((λ s, s ++ [LF]) <$> frags) →
  LF ∉ l → Forall (λ s, LF ∉ s) frags → PyInt.py_int (l ++ [LF]) = Some z →
  read_fragments argv w =
  (inr (take (Z.to_nat z) frags ++ replicate (Z.to_nat z - length frags) []),
   World (w_fs w) (w_files w) (S (w_next w)) (w_stdout w)).
Proof.
  intros Hwf Harg Hp Hd Ht Hl Hf Hz.
  rewrite (read_fragments_view _ p d t) by done. rewrite Ht, line_split_line by done.
  cbn [fst snd]. rewrite Hz, lines_n_frags, rstrip_fragment_lines by (done || by apply Forall_take).
  done.
Qed.

(** [int] of the count line of [spec_text]. *)
Lemma py_int_count_line `{!PyInt.DecimalTable} n :
  (n < 10 ^ N.of_nat PyInt.int_max_str_digits)%N →
  PyInt.py_int (PyInt.number_text false (PyInt.decimal_digits n) ++ [LF]) = Some (Z.of_N n).
Proof.
  intros Hn. rewrite <- (app_nil_l (PyInt.number_text _ _ ++ _)).
  rewrite PyInt.py_int_number; [| constructor | | apply PyInt.decimal_digits_lt_10
                                | apply PyInt.decimal_digits_not_nil]; last first.
  { apply Forall_singleton. by vm_compute. }
  rewrite bool_decide_eq_false_2, PyInt.decimal_digits_value; [done|].
  apply Nat.le_ngt, PyInt.decimal_digits_length_le; [unfold PyInt.int_max_str_digits; lia | done].
Qed.

(** ** The run *)

(** The fragments read from a file of lines that decodes, and the empty
    reads past its end, are text the encoder of standard output
    accepts. *)
Lemma frags_encodable l frags k m :
  Forall Utf8.str_char (l ++ LF :: concat ((λ s, s ++ [LF]) <$> frags)) →
  Forall Utf8.encodable (take k frags ++ replicate m []).
Proof.
  intros H. rewrite Forall_app, Forall_cons, Forall_concat, Forall_fmap in H.
  destruct H as (_ & _ & Hf). apply Forall_app. split; [|by apply Forall_replicate, Forall_nil].
  apply Forall_take. eapply Forall_impl; [exact Hf|]. intros s Hs. unfold compose in Hs.
  apply Forall_app in Hs as [Hs _]. by apply Utf8.str_char_encodable.
Qed.

Lemma missing_nil_iff S arr : missing S arr = [] ↔ Forall (λ s, infix_of s S) arr.
Proof.
  induction arr as [|s arr IH]; [split; constructor|].
  rewrite Forall_cons. destruct (decide (infix_of s S)) as [Hs|Hs].
  - rewrite missing_cons_in, IH by done. naive_solver.
  - rewrite missing_cons_out by done. naive_solver.
Qed.

Lemma missing_replicate_nil S frags k : missing S (frags ++ replicate k []) = missing S frags.
Proof.
  unfold missing. rewrite filter_app. rewrite <- (app_nil_r (filter _ frags)) at 2. f_equal.
  induction k as [|k IH]; [done|]. simpl. rewrite filter_cons_False; [done|].
  intros []. apply infix_of_nil.
Qed.

Lemma wf_world_empty fs nxt out : wf_world (World fs ∅ nxt out).
Proof. intros h [? Hh]. simpl in Hh. by rewrite lookup_empty in Hh. Qed.

(** ** Reading prints nothing; every part keeps the open files *)

Section Effects.
Context `{!PyInt.DecimalTable}.

Lemma stdout_parse_count line : preserves w_stdout (parse_count line).
Proof. unfold parse_count. solve_preserves. Qed.

Lemma stdout_read_output argv : preserves w_stdout (read_output argv).
Proof. unfold read_output. solve_preserves. Qed.

Lemma stdout_read_fragments argv : preserves w_stdout (read_fragments argv).
Proof.
  unfold read_fragments. apply preserves_bind; [apply preserves_argv|]. intros p.
  apply stdout_with_file. intros h. solve_preserves. apply stdout_parse_count.
Qed.

Lemma steps_read_output argv : steps_of (read_output argv).
Proof. unfold read_output. solve_steps. Qed.

Lemma steps_read_fragments argv : steps_of (read_fragments argv).
Proof. unfold read_fragments, parse_count. solve_steps. Qed.

Lemma handles_check_loop S arr ok : preserves handles (check_loop S arr ok).
Proof.
  revert ok. induction arr as [|s arr IH]; intros ok; simpl; [apply preserves_ret|].
  destruct (negb _); [|done]. apply preserves_bind; [apply handles_print | intros; apply IH].
Qed.

Lemma handles_report S ok : preserves handles (report S ok).
Proof.
  unfold report. destruct ok; [|apply preserves_ret].
  apply preserves_bind; [apply handles_print | intros; apply handles_print].
Qed.

Lemma handles_bind_wf {A B} (m : M A) (k : A → M B) w :
  wf_world w → steps_of m → handles (snd (m w)) = handles w →
  (∀ x w', wf_world w' → handles (snd (k x w')) = handles w') →
  handles (snd ((x ← m; k x) w)) = handles w.
Proof.
  intros Hwf Hs Hm Hk. rewrite bind_unfold. pose proof (steps_wf m w Hs Hwf) as Hwf'.
  destruct (m w) as [[e|x] w'] eqn:E; simpl in *; [done|]. by rewrite Hk.
Qed.

Lemma handles_read_output argv w : wf_world w → handles (snd (read_output argv w)) = handles w.
Proof.
  intros Hwf. unfold read_output, argv_get. rewrite bind_unfold.
  destruct (argv !! 1) as [p|]; [|done]. rewrite ret_unfold. cbn beta iota.
  apply handles_bind_wf; [done | solve_steps | by apply handles_open_close, handles_read |].
  intros data w' _. by destruct (PyStr.splitlines data !! 0).
Qed.

Lemma handles_read_fragments argv w : wf_world w → handles (snd (read_fragments argv w)) = handles w.
Proof.
  intros Hwf. unfold read_fragments, argv_get. destruct (argv !! 2) as [p|]; m_run; [|done].
  apply handles_open_close; [done|]. intros h. apply preserves_bind; [apply handles_readline|].
  intros l. apply preserves_bind; [unfold parse_count; by destruct (PyInt.py_int l)|].
  intros n. apply preserves_repeat, preserves_bind; [apply handles_readline | intros; done].
Qed.

Lemma handles_main argv w : wf_world w → handles (snd (main argv w)) = handles w.
Proof.
  intros Hwf. unfold main.
  apply handles_bind_wf; [done | apply steps_read_output | by apply handles_read_output |].
  intros S w1 Hwf1.
  apply handles_bind_wf; [done | apply steps_read_fragments | by apply handles_read_fragments |].
  intros arr w2 _. apply preserves_bind; [apply handles_check_loop | intros; apply handles_report].
Qed.

(** ** No [UnicodeEncodeError]: what the script prints always encodes *)

Lemma rstrip_encodable l : Forall Utf8.str_char l → Utf8.encodable (PyStr.rstrip [LF] l).
Proof.
  intros Hl. apply Utf8.str_char_encodable.
  destruct (PyStr.rstrip_split [LF] l) as (t & Ht & _). rewrite Ht in Hl.
  by apply Forall_app in Hl as [? _].
Qed.

Lemma steps_check_loop S arr ok : steps_of (check_loop S arr ok).
Proof.
  revert ok. induction arr as [|s arr IH]; intros ok; simpl; [apply steps_ret|].
  case_match; [apply steps_bind; [apply steps_print | intros; apply IH] | apply IH].
Qed.

Lemma steps_report S ok : steps_of (report S ok).
Proof.
  unfold report. destruct ok; [|apply steps_ret].
  apply steps_bind; [apply steps_print | intros; apply steps_print].
Qed.

Lemma steps_main argv : steps_of (main argv).
Proof.
  unfold main. apply steps_bind; [apply steps_read_output | intros S].
  apply steps_bind; [apply steps_read_fragments | intros arr].
  apply steps_bind; [apply steps_check_loop | intros; apply steps_report].
Qed.

Lemma ne_read_output argv : no_encode_error (λ _, True) (read_output argv).
Proof.
  unfold read_output. apply (ne_bind (λ _, True)); [apply ne_argv | apply steps_argv |]. intros p _.
  apply (ne_bind (λ _, True)); [| solve_steps |].
  - apply (ne_bind (λ _, True)); [apply ne_open | apply steps_open |].
    intros h _. apply ne_close_after, ne_read.
  - intros data _. destruct (PyStr.splitlines data !! 0); [by apply ne_ret | by apply ne_raise].
Qed.

(** The fragments of lines 6-8 are lines of [readline] without their
    LF: text the strict encoder accepts. *)
Lemma ne_read_fragments argv : no_encode_error (Forall Utf8.encodable) (read_fragments argv).
Proof.
  unfold read_fragments. apply (ne_bind (λ _, True)); [apply ne_argv | apply steps_argv |].
  intros p _. apply ne_with_file. intros h.
  apply (ne_bind (Forall Utf8.str_char)); [apply ne_readline | apply steps_readline |]. intros first _.
  apply (ne_bind (λ _, True)).
  { unfold parse_count. destruct (PyInt.py_int first); [by apply ne_ret | by apply ne_raise]. }
  { unfold parse_count. solve_steps. }
  intros n _. apply ne_repeat; [| solve_steps].
  apply (ne_bind (Forall Utf8.str_char)); [apply ne_readline | apply steps_readline |].
  intros l Hl. apply ne_ret. by apply rstrip_encodable.
Qed.

Lemma ne_check_loop S arr ok : Forall Utf8.encodable arr → no_encode_error (λ _, True) (check_loop S arr ok).
Proof.
  destruct msgs_encodable as (Hf & Hn & _ & _).
  intros Harr. revert ok. induction Harr as [|s arr Hs _ IH]; intros ok; simpl; [by apply ne_ret|].
  case_match; [|apply IH].
  apply (ne_bind (λ _, True)); [| apply steps_print | intros; apply IH].
  apply ne_print. repeat (apply Forall_cons; split; [assumption|]). by apply Forall_nil.
Qed.

Lemma ne_report S ok : no_encode_error (λ _, True) (report S ok).
Proof.
  destruct msgs_encodable as (_ & _ & Ho & Hl). unfold report. destruct ok; [|by apply ne_ret].
  apply (ne_bind (λ _, True)); [| apply steps_print |].
  { apply ne_print. apply Forall_cons; split; [assumption | by apply Forall_nil]. }
  intros. apply ne_print. apply Forall_cons; split; [assumption | apply Forall_cons; split; [done | by apply Forall_nil]].
Qed.

Lemma ne_main argv : no_encode_error (λ _, True) (main argv).
Proof.
  unfold main. apply (ne_bind (λ _, True)); [apply ne_read_output | apply steps_read_output |].
  intros S _. apply (ne_bind (Forall Utf8.encodable)); [apply ne_read_fragments | apply steps_read_fragments |].
  intros arr Harr. apply (ne_bind (λ _, True)); [by apply ne_check_loop | apply steps_check_loop |].
  intros ok _. apply ne_report.
Qed.

End Effects.

Lemma initial_files_wf fs : files_wf (initial_world fs).
Proof. apply map_Forall_empty. Qed.

(** [translate_newlines] only turns line boundaries into LF: the first
    line is the same. *)
Lemma first_line_translate s : PyStr.first_line (translate_newlines s) = PyStr.first_line s.
Proof.
  induction s as [|c s IH]; [done|]. cbn [translate_newlines].
  case_bool_decide as Hc; [subst; by vm_compute|]. cbn [PyStr.first_line]. by rewrite IH.
Qed.

Lemma first_line_app_break a c b :
  PyStr.no_break a → PyStr.is_linebreak c = true → PyStr.first_line (a ++ c :: b) = a.
Proof.
  induction 1 as [|x a Hx _ IH]; intros Hc; simpl; [by rewrite Hc|]. by rewrite Hx, IH.
Qed.

(** A run on an output file and a fragment file that both decode: [S] is
    the first line of the output file; the count line goes to [int], and
    either [int] raises [ValueError] with nothing printed and both files
    closed, or the loop and the report run on the fragments read. *)
Lemma run_view `{!PyInt.DecimalTable} fs argv p1 p2 d1 d2 out t :
  argv !! 1 = Some p1 → argv !! 2 = Some p2 →
  fs !! p1 = Some (RegularFile d1) → utf8_decode true (Byte.to_N <$> d1) = Some (out, []) →
  out ≠ [] →
  fs !! p2 = Some (RegularFile d2) → utf8_decode true (Byte.to_N <$> d2) = Some (t, []) →
  run fs argv =
  match PyInt.py_int (fst (line_split (translate_newlines t))) with
  | Some z =>
      (ok ← check_loop (PyStr.first_line (translate_newlines out))
              (PyStr.rstrip [LF] <$> fst (lines_n (Z.to_nat z) (snd (line_split (translate_newlines t)))))
              true;
       report (PyStr.first_line (translate_newlines out)) ok) (World fs ∅ 2 [])
  | None => (inl ValueError, World fs ∅ 2 [])
  end.
Proof.
  intros H1 H2 Hp1 Hd1 Hout Hp2 Hd2. unfold run, main.
  rewrite bind_unfold, (read_output_run _ p1 d1 out) by (done || apply wf_world_empty).
  cbn beta iota. rewrite bind_unfold, (read_fragments_view _ p2 d2 t) by (done || apply wf_world_empty).
  cbn [w_fs w_files w_next w_stdout initial_world]. by destruct (PyInt.py_int _).
Qed.

(** A run whose fragment file is a count line [l] that [int] reads as [z]
    followed by fragment lines: the report of the first [Z.to_nat z]
    fragments. *)
Lemma run_counted `{!PyInt.DecimalTable} fs argv p1 p2 d1 d2 out t l z frags :
  argv !! 1 = Some p1 → argv !! 2 = Some p2 →
  fs !! p1 = Some (RegularFile d1) → utf8_decode true (Byte.to_N <$> d1) = Some (out, []) →
  out ≠ [] →
  fs !! p2 = Some (RegularFile d2) → utf8_decode true (Byte.to_N <$> d2) = Some (t, []) →
  translate_newlines t = l ++ LF :: concat ((λ s, s ++ [LF]) <$> frags) →
  LF ∉ l → Forall (λ s, LF ∉ s) frags → PyInt.py_int (l ++ [LF]) = Some z →
  (N.of_nat (length (PyStr.first_line (translate_newlines out)))
     < 10 ^ N.of_nat PyInt.int_max_str_digits)%N →
  run fs argv =
  (inr (), World fs ∅ 2
     (expected_stdout (PyStr.first_line (translate_newlines out)) (take (Z.to_nat z) frags))).
Proof.
  intros H1 H2 Hp1 Hd1 Hout Hp2 Hd2 Ht Hl Hf Hz HS. unfold run, main.
  rewrite bind_unfold, (read_output_run _ p1 d1 out) by (done || apply wf_world_empty).
  cbn beta iota. rewrite bind_unfold, (read_fragments_counted _ p2 d2 t l z frags) by
    (done || apply wf_world_empty).
  cbn beta iota. pose proof (proj1 (Utf8.utf8_decode_shape _ _ _ _ Hd2)) as Hstr.
  apply (translate_forall _ _ str_char_LF) in Hstr. rewrite Ht in Hstr.
  rewrite loop_report_run by (done || by apply (frags_encodable l)).
  unfold add_stdout, expected_stdout. cbn [w_fs w_files w_next w_stdout].
  by rewrite missing_replicate_nil.
Qed.

(** [int] of a line that starts with U+FEFF: the conversion to ASCII
    stops at once, U+FEFF being neither white space nor a decimal digit
    in the Unicode database. *)
Lemma py_int_bom s : @PyInt.py_int PyInt.unicode_decimal_table (0xFEFF%N :: s) = None.
Proof. unfold PyInt.py_int, PyInt.transform. cbn [mapM]. by vm_compute. Qed.

(** Lines 6-8 see the text after the decoder and the newline
    translation: a decoded text that starts with U+FEFF has it at the
    start of its first line. *)
Lemma line_split_bom s :
  fst (line_split (translate_newlines (0xFEFF%N :: s))) =
  0xFEFF%N :: fst (line_split (translate_newlines s)).
Proof. cbn [translate_newlines]. rewrite bool_decide_eq_false_2 by (unfold CR; lia). simpl. by destruct (line_split _). Qed.

(** ** Properties *)

(** C1: the loop of lines 10-14 refines the verdict: it prints the
    [FALHOU] line of every fragment that is not a contiguous substring of
    [S], in the order of [arr] and without stopping at the first, and it
    leaves [ok] set exactly when every fragment is a substring of [S].
    The fragments are text the encoder of standard output accepts, as
    every line [readline] returns is. *)
Theorem check_loop_refines (S : text) (arr : list text) w :
  Forall Utf8.encodable arr →
  check_loop S arr true w =
  (inr (bool_decide (Forall (λ s, infix_of s S) arr)),
   add_stdout (concat (fail_line <$> filter (λ s, ¬ infix_of s S) arr)) w).
Proof.
  intros Harr. rewrite check_loop_run by done. do 2 f_equal. apply bool_decide_ext, missing_nil_iff.
Qed.

Lemma check_loop_refines_witness :
  Forall Utf8.encodable [⟪"ab"⟫; ⟪"x"⟫] ∧
  check_loop ⟪"abc"⟫ [⟪"ab"⟫; ⟪"x"⟫] true empty_world =
  (inr (bool_decide (Forall (λ s, infix_of s ⟪"abc"⟫) [⟪"ab"⟫; ⟪"x"⟫])),
   add_stdout (concat (fail_line <$> filter (λ s, ¬ infix_of s ⟪"abc"⟫) [⟪"ab"⟫; ⟪"x"⟫])) empty_world).
Proof.
  assert (H : Forall Utf8.encodable [⟪"ab"⟫; ⟪"x"⟫])
    by (apply (bool_decide_unpack _); vm_compute; reflexivity).
  split; [exact H | exact (check_loop_refines _ _ _ H)].
Defined.

(** C2: on an output file whose bytes decode to a non-empty text [out]
    and a fragment file whose bytes decode to the declaration of [n >=
    length frags] and the fragments [frags] (free of line ends), one per
    line, the script ends normally (exit status 0), with no file left
    open, and prints [expected_stdout S frags] for [S] the first line of
    [out]: the [FALHOU] lines of the missing fragments, or the [OK] line
    and [len(saída) = len(S)].  The fragments the file does not hold are
    read as [''] and are found in [S]. *)
Theorem checker_correct `{!PyInt.DecimalTable} fs argv p1 p2 d1 d2 out (n : N) frags :
  argv !! 1 = Some p1 → argv !! 2 = Some p2 →
  fs !! p1 = Some (RegularFile d1) → utf8_decode true (Byte.to_N <$> d1) = Some (out, []) →
  out ≠ [] →
  fs !! p2 = Some (RegularFile d2) →
  utf8_decode true (Byte.to_N <$> d2) = Some (spec_text n frags, []) →
  Forall (λ l, (LF ∉ l) ∧ (CR ∉ l)) frags → length frags ≤ N.to_nat n →
  (n < 10 ^ N.of_nat PyInt.int_max_str_digits)%N →
  (N.of_nat (length (PyStr.first_line (translate_newlines out)))
     < 10 ^ N.of_nat PyInt.int_max_str_digits)%N →
  run fs argv =
  (inr (), World fs ∅ 2 (expected_stdout (PyStr.first_line (translate_newlines out)) frags)).
Proof.
  intros H1 H2 Hp1 Hd1 Hout Hp2 Hd2 Hf Hlen Hn HS.
  apply Forall_and_inv in Hf as [Hlf Hcr].
  assert (Ht : translate_newlines (spec_text n frags) =
    PyInt.number_text false (PyInt.decimal_digits n) ++ LF :: concat ((λ s, s ++ [LF]) <$> frags))
    by (rewrite translate_id; [done | by apply spec_text_no_cr]).
  rewrite (run_counted _ _ p1 p2 d1 d2 out (spec_text n frags) _ (Z.of_N n) frags)
    by (done || apply count_line_no_lf || by apply py_int_count_line || exact Ht).
  replace (Z.to_nat (Z.of_N n)) with (N.to_nat n) by lia. by rewrite take_ge.
Qed.

Lemma checker_correct_witness :
  @run PyInt.unicode_decimal_table scenario1_fs scenario_argv =
  (inr (), World scenario1_fs ∅ 2
    (expected_stdout (PyStr.first_line (translate_newlines (⟪"abcdef"⟫ ++ [LF])))
       [⟪"ab"⟫; ⟪"cd"⟫])).
Proof.
  apply (@checker_correct PyInt.unicode_decimal_table _ _ ⟪"saida.txt"⟫ ⟪"entrada.txt"⟫
           (bytes_of (⟪"abcdef"⟫ ++ [LF])) (bytes_of (spec_text 2 [⟪"ab"⟫; ⟪"cd"⟫])) _ 2%N).
  - reflexivity.
  - reflexivity.
  - vm_compute. reflexivity.
  - vm_compute. reflexivity.
  - discriminate.
  - vm_compute. reflexivity.
  - vm_compute. reflexivity.
  - apply (bool_decide_unpack _). vm_compute. reflexivity.
  - simpl. lia.
  - apply N.ltb_lt. vm_compute. reflexivity.
  - apply N.ltb_lt. vm_compute. reflexivity.
Defined.

(** C3: operational errors come before any report: when the script ends
    with an exception, nothing has been printed, except in one case: [str]
    of [len(S)] past the digit limit raises [ValueError] after the [OK]
    line and the label [len(saída) =] are out. *)
Theorem errors_before_report `{!PyInt.DecimalTable} fs argv e w' :
  run fs argv = (inl e, w') →
  w_stdout w' = [] ∨ (e = ValueError ∧ w_stdout w' = msg_ok ++ [LF] ++ msg_len ++ [SP]).
Proof.
  unfold run, main. rewrite bind_unfold.
  pose proof (stdout_read_output argv (initial_world fs)) as H1.
  pose proof (steps_files_wf _ _ (steps_read_output argv) (initial_files_wf fs)) as Hw1.
  destruct (read_output argv _) as [[e1|S] w1]; simpl in H1, Hw1.
  { intros [= <- <-]. by left. }
  rewrite bind_unfold. pose proof (stdout_read_fragments argv w1) as H2.
  pose proof (ne_read_fragments argv w1 Hw1) as Henc.
  destruct (read_fragments argv w1) as [[e2|arr] w2]; simpl in H2, Henc.
  { intros [= <- <-]. left. by rewrite H2. }
  rewrite bind_unfold, check_loop_run by done. cbn beta iota.
  destruct (bool_decide (missing S arr = [])) eqn:Hm; cbn [andb]; unfold report; [|done].
  apply bool_decide_eq_true in Hm. rewrite bind_unfold, print_str, print_len by apply msgs_encodable. cbn beta iota.
  destruct (PyInt.py_str _); [done|]. intros [= <- <-]. right. split; [done|].
  simpl. rewrite H2, H1, Hm. simpl. by rewrite <- ?app_assoc.
Qed.

(** C4: every run, normal or not, ends with no file left open: the
    output file is closed as soon as it is read, and the [with] block
    closes the fragment file on every outcome. *)
Theorem run_closes_all_files `{!PyInt.DecimalTable} fs argv :
  w_files (snd (run fs argv)) = ∅.
Proof.
  apply dom_empty_inv_L. change (handles (snd (main argv (initial_world fs))) = ∅).
  rewrite handles_main; [done | apply wf_world_empty].
Qed.

(** C13: whatever the file system and the arguments, a run never raises
    [UnicodeEncodeError]: everything the script prints (the messages
    with their accented letters, the fragments read from the fragment
    file, the digits of [len(S)]) has no surrogate, so the strict UTF-8
    encoder of standard output accepts it, and the whole standard output
    of the run encodes to UTF-8 bytes. *)
Theorem run_stdout_encodes `{!PyInt.DecimalTable} fs argv :
  fst (run fs argv) ≠ inl UnicodeEncodeError ∧
  is_Some (Utf8.utf8_encode (w_stdout (snd (run fs argv)))).
Proof.
  split.
  - pose proof (ne_main argv (initial_world fs) (initial_files_wf fs)) as Hne. unfold run.
    destruct (fst (main argv _)) as [e|]; [|done]. by intros [= ->].
  - apply Utf8.utf8_encode_is_Some, (steps_encodable _ _ (steps_main argv)). constructor.
Qed.

(** C8: a fragment file whose first line is not an integer makes [int]
    raise [ValueError]: the run fails with status 1, prints nothing and
    has closed both files. *)
Theorem bad_count_value_error `{!PyInt.DecimalTable} fs argv p1 p2 d1 d2 out data :
  argv !! 1 = Some p1 → argv !! 2 = Some p2 →
  fs !! p1 = Some (RegularFile d1) → utf8_decode true (Byte.to_N <$> d1) = Some (out, []) →
  out ≠ [] →
  fs !! p2 = Some (RegularFile d2) → utf8_decode true (Byte.to_N <$> d2) = Some (data, []) →
  PyInt.py_int (fst (line_split (translate_newlines data))) = None →
  run fs argv = (inl ValueError, World fs ∅ 2 []).
Proof.
  intros H1 H2 Hp1 Hd1 Hout Hp2 Hd2 Hbad.
  rewrite (run_view _ _ p1 p2 d1 d2 out data) by done. by rewrite Hbad.
Qed.

Lemma errors_before_report_witness :
  w_stdout (World scenario4_fs ∅ 2 []) = [] ∨
  (ValueError = ValueError ∧
   w_stdout (World scenario4_fs ∅ 2 []) = msg_ok ++ [LF] ++ msg_len ++ [SP]).
Proof.
  apply (@errors_before_report PyInt.unicode_decimal_table scenario4_fs scenario_argv).
  vm_compute. reflexivity.
Defined.

Lemma bad_count_value_error_witness :
  @run PyInt.unicode_decimal_table scenario4_fs scenario_argv = (inl ValueError, World scenario4_fs ∅ 2 []).
Proof.
  apply (@bad_count_value_error PyInt.unicode_decimal_table _ _ ⟪"saida.txt"⟫ ⟪"entrada.txt"⟫
           (bytes_of (⟪"abcdef"⟫ ++ [LF])) (bytes_of (⟪"abc"⟫ ++ [LF] ++ ⟪"ab"⟫ ++ [LF]))
           (⟪"abcdef"⟫ ++ [LF]) (⟪"abc"⟫ ++ [LF] ++ ⟪"ab"⟫ ++ [LF])).
  - reflexivity.
  - reflexivity.
  - vm_compute. reflexivity.
  - vm_compute. reflexivity.
  - discriminate.
  - vm_compute. reflexivity.
  - vm_compute. reflexivity.
  - vm_compute. reflexivity.
Defined.

(** C9: a missing output file: [open] raises [FileNotFoundError] before
    anything else happens; the fragment file is never opened. *)
Theorem missing_output_file `{!PyInt.DecimalTable} fs argv p1 :
  argv !! 1 = Some p1 → fs !! p1 = None →
  run fs argv = (inl (FileNotFoundError p1), initial_world fs).
Proof.
  intros H1 Hp1. unfold run, main. rewrite bind_unfold. unfold read_output, argv_get.
  rewrite H1. m_run. unfold py_open. cbn [initial_world w_fs]. by rewrite Hp1.
Qed.

Lemma missing_output_file_witness :
  @run PyInt.unicode_decimal_table scenario1_fs [⟪"checker.py"⟫; ⟪"nada.txt"⟫; ⟪"entrada.txt"⟫] =
  (inl (FileNotFoundError ⟪"nada.txt"⟫), initial_world scenario1_fs).
Proof.
  apply (missing_output_file _ _ ⟪"nada.txt"⟫); [reflexivity | vm_compute; reflexivity].
Defined.

(** C10: an empty output file: [splitlines()] of the empty text is empty
    and [[0]] raises [IndexError]; nothing is printed and the output file
    has been closed. *)
Theorem empty_output_file `{!PyInt.DecimalTable} fs argv p1 :
  argv !! 1 = Some p1 → fs !! p1 = Some (RegularFile []) →
  run fs argv = (inl IndexError, World fs ∅ 1 []).
Proof.
  intros H1 Hp1. unfold run, main. rewrite bind_unfold. unfold read_output, argv_get.
  rewrite H1. m_run. unfold py_open. cbn [initial_world w_fs]. rewrite Hp1. m_run.
  unfold close_after. rewrite (py_read_view _ _ (FileObject p1 (open_wrapper [])) [])
    by (cbn [w_files fo_stream]; by rewrite ?lookup_insert_eq). m_run.
  unfold raise. cbn beta iota. unfold set_files. cbn.
  by rewrite insert_insert_eq, delete_insert_eq, delete_empty.
Qed.

Lemma empty_output_file_witness :
  @run PyInt.unicode_decimal_table (<[⟪"saida.txt"⟫ := RegularFile []]> scenario1_fs) scenario_argv =
  (inl IndexError, World (<[⟪"saida.txt"⟫ := RegularFile []]> scenario1_fs) ∅ 1 []).
Proof. apply (empty_output_file _ _ ⟪"saida.txt"⟫); [reflexivity | vm_compute; reflexivity]. Defined.

(** ** Behaviour on inputs the specification rules out *)

(** C11: a count line that [int] reads as zero or a negative number is
    accepted: [range(n)] is empty, no fragment is read or checked, and
    the script reports success, whatever follows the count line in the
    fragment file. *)
Theorem nonpositive_count_passes `{!PyInt.DecimalTable} fs argv p1 p2 d1 d2 out t z :
  argv !! 1 = Some p1 → argv !! 2 = Some p2 →
  fs !! p1 = Some (RegularFile d1) → utf8_decode true (Byte.to_N <$> d1) = Some (out, []) →
  out ≠ [] →
  fs !! p2 = Some (RegularFile d2) → utf8_decode true (Byte.to_N <$> d2) = Some (t, []) →
  PyInt.py_int (fst (line_split (translate_newlines t))) = Some z → (z ≤ 0)%Z →
  (N.of_nat (length (PyStr.first_line (translate_newlines out)))
     < 10 ^ N.of_nat PyInt.int_max_str_digits)%N →
  run fs argv =
  (inr (), World fs ∅ 2
     (msg_ok ++ [LF] ++ msg_len ++ SP :: len_text (PyStr.first_line (translate_newlines out)) ++ [LF])).
Proof.
  intros H1 H2 Hp1 Hd1 Hout Hp2 Hd2 Hz Hneg HS.
  rewrite (run_view _ _ p1 p2 d1 d2 out t) by done. rewrite Hz.
  replace (Z.to_nat z) with 0 by lia. cbn [lines_n fst fmap list_fmap].
  by rewrite loop_report_run by (done || constructor).
Qed.

Lemma nonpositive_count_passes_witness :
  @run PyInt.unicode_decimal_table
    (two_files (⟪"ab"⟫ ++ [LF]) (⟪" -1"⟫ ++ [LF] ++ ⟪"xy"⟫ ++ [LF])) scenario_argv =
  (inr (), World (two_files (⟪"ab"⟫ ++ [LF]) (⟪" -1"⟫ ++ [LF] ++ ⟪"xy"⟫ ++ [LF])) ∅ 2
     (msg_ok ++ [LF] ++ msg_len ++
      SP :: len_text (PyStr.first_line (translate_newlines (⟪"ab"⟫ ++ [LF]))) ++ [LF])).
Proof.
  apply (@nonpositive_count_passes PyInt.unicode_decimal_table _ _ ⟪"saida.txt"⟫ ⟪"entrada.txt"⟫
           (bytes_of (⟪"ab"⟫ ++ [LF])) (bytes_of (⟪" -1"⟫ ++ [LF] ++ ⟪"xy"⟫ ++ [LF]))
           (⟪"ab"⟫ ++ [LF]) (⟪" -1"⟫ ++ [LF] ++ ⟪"xy"⟫ ++ [LF]) (-1)%Z).
  - reflexivity.
  - reflexivity.
  - vm_compute. reflexivity.
  - vm_compute. reflexivity.
  - discriminate.
  - vm_compute. reflexivity.
  - vm_compute. reflexivity.
  - vm_compute. reflexivity.
  - lia.
  - apply N.ltb_lt. vm_compute. reflexivity.
Defined.

(** C12: [S] ends at the first line boundary of [str.splitlines] (LF, VT,
    FF, CR, FS, GS, RS, NEL, U+2028 or U+2029), not at the first newline:
    when the text of the output file is [a], a boundary [c], then [b],
    with no boundary in [a], the fragments are checked against [a]
    alone, and one that lies after [c] on the same line of the file is
    reported missing. *)
Theorem line_boundary_ends_output_line `{!PyInt.DecimalTable} fs argv p1 p2 d1 d2 a c b
    (n : N) frags :
  argv !! 1 = Some p1 → argv !! 2 = Some p2 →
  fs !! p1 = Some (RegularFile d1) → utf8_decode true (Byte.to_N <$> d1) = Some (a ++ c :: b, []) →
  PyStr.no_break a → PyStr.is_linebreak c = true →
  fs !! p2 = Some (RegularFile d2) →
  utf8_decode true (Byte.to_N <$> d2) = Some (spec_text n frags, []) →
  Forall (λ l, (LF ∉ l) ∧ (CR ∉ l)) frags → length frags ≤ N.to_nat n →
  (n < 10 ^ N.of_nat PyInt.int_max_str_digits)%N →
  (N.of_nat (length a) < 10 ^ N.of_nat PyInt.int_max_str_digits)%N →
  run fs argv = (inr (), World fs ∅ 2 (expected_stdout a frags)).
Proof.
  intros H1 H2 Hp1 Hd1 Ha Hc Hp2 Hd2 Hf Hlen Hn HS.
  assert (HS' : PyStr.first_line (translate_newlines (a ++ c :: b)) = a)
    by (by rewrite first_line_translate, first_line_app_break).
  apply Forall_and_inv in Hf as [Hlf Hcr].
  assert (Ht : translate_newlines (spec_text n frags) =
    PyInt.number_text false (PyInt.decimal_digits n) ++ LF :: concat ((λ s, s ++ [LF]) <$> frags))
    by (rewrite translate_id; [done | by apply spec_text_no_cr]).
  rewrite (run_counted _ _ p1 p2 d1 d2 (a ++ c :: b) (spec_text n frags) _ (Z.of_N n) frags)
    by (done || apply count_line_no_lf || by apply py_int_count_line || exact Ht || by rewrite HS'
        || by destruct a).
  rewrite HS'. replace (Z.to_nat (Z.of_N n)) with (N.to_nat n) by lia. by rewrite take_ge.
Qed.

Lemma line_boundary_ends_output_line_witness :
  @run PyInt.unicode_decimal_table
    (two_files (⟪"ab"⟫ ++ [12%N] ++ ⟪"cd"⟫ ++ [LF]) (spec_text 1 [⟪"cd"⟫])) scenario_argv =
  (inr (), World (two_files (⟪"ab"⟫ ++ [12%N] ++ ⟪"cd"⟫ ++ [LF]) (spec_text 1 [⟪"cd"⟫])) ∅ 2
     (expected_stdout ⟪"ab"⟫ [⟪"cd"⟫])).
Proof.
  apply (@line_boundary_ends_output_line PyInt.unicode_decimal_table _ _ ⟪"saida.txt"⟫ ⟪"entrada.txt"⟫
           (bytes_of (⟪"ab"⟫ ++ [12%N] ++ ⟪"cd"⟫ ++ [LF])) (bytes_of (spec_text 1 [⟪"cd"⟫]))
           ⟪"ab"⟫ 12%N (⟪"cd"⟫ ++ [LF]) 1%N [⟪"cd"⟫]).
  - reflexivity.
  - reflexivity.
  - vm_compute. reflexivity.
  - vm_compute. reflexivity.
  - apply (bool_decide_unpack _). vm_compute. reflexivity.
  - vm_compute. reflexivity.
  - vm_compute. reflexivity.
  - vm_compute. reflexivity.
  - apply (bool_decide_unpack _). vm_compute. reflexivity.
  - simpl. lia.
  - apply N.ltb_lt. vm_compute. reflexivity.
  - apply N.ltb_lt. vm_compute. reflexivity.
Defined.

(** C21: the count line may be any text [int] accepts (white space, a
    sign, underscores between digits, the decimal digits of every script
    of the Unicode database) and the lines may end in CR LF: the script
    reads the count [z] from it and checks exactly the first [z]
    fragment lines, none when [z <= 0]; lines after them are never read,
    and the lines missing from the file are read as [''], which is in
    every [S]. *)
Theorem lenient_count_line `{!PyInt.DecimalTable} fs argv p1 p2 d1 d2 out t l z frags :
  argv !! 1 = Some p1 → argv !! 2 = Some p2 →
  fs !! p1 = Some (RegularFile d1) → utf8_decode true (Byte.to_N <$> d1) = Some (out, []) →
  out ≠ [] →
  fs !! p2 = Some (RegularFile d2) → utf8_decode true (Byte.to_N <$> d2) = Some (t, []) →
  translate_newlines t = l ++ LF :: concat ((λ s, s ++ [LF]) <$> frags) →
  LF ∉ l → Forall (λ s, LF ∉ s) frags → PyInt.py_int (l ++ [LF]) = Some z →
  (N.of_nat (length (PyStr.first_line (translate_newlines out)))
     < 10 ^ N.of_nat PyInt.int_max_str_digits)%N →
  run fs argv =
  (inr (), World fs ∅ 2
     (expected_stdout (PyStr.first_line (translate_newlines out)) (take (Z.to_nat z) frags))).
Proof. apply run_counted. Qed.

(** The count line [" +0_١　"] (an Arabic-Indic one, then an
    ideographic space) with CR LF line ends: one fragment is checked, and
    the line after it is not. *)
Lemma lenient_count_line_witness :
  let data := ⟪" +0_"⟫ ++ [0xD9; 0xA1; 0xE3; 0x80; 0x80]%N ++ [CR; LF] ++ ⟪"bc"⟫ ++ [CR; LF] ++
              ⟪"zz"⟫ ++ [CR; LF] in
  @run PyInt.unicode_decimal_table (two_files (⟪"abc"⟫ ++ [LF]) data) scenario_argv =
  (inr (), World (two_files (⟪"abc"⟫ ++ [LF]) data) ∅ 2
     (expected_stdout (PyStr.first_line (translate_newlines (⟪"abc"⟫ ++ [LF])))
        (take (Z.to_nat 1) [⟪"bc"⟫; ⟪"zz"⟫]))).
Proof.
  intros data.
  apply (@lenient_count_line PyInt.unicode_decimal_table _ _ ⟪"saida.txt"⟫ ⟪"entrada.txt"⟫
           (bytes_of (⟪"abc"⟫ ++ [LF])) (bytes_of data) (⟪"abc"⟫ ++ [LF])
           (⟪" +0_"⟫ ++ [0x661; 0x3000]%N ++ [CR; LF] ++ ⟪"bc"⟫ ++ [CR; LF] ++ ⟪"zz"⟫ ++ [CR; LF])
           (⟪" +0_"⟫ ++ [0x661; 0x3000]%N) 1%Z [⟪"bc"⟫; ⟪"zz"⟫]).
  - reflexivity.
  - reflexivity.
  - vm_compute. reflexivity.
  - vm_compute. reflexivity.
  - discriminate.
  - vm_compute. reflexivity.
  - vm_compute. reflexivity.
  - vm_compute. reflexivity.
  - apply (bool_decide_unpack _). vm_compute. reflexivity.
  - apply (bool_decide_unpack _). vm_compute. reflexivity.
  - vm_compute. reflexivity.
  - apply N.ltb_lt. vm_compute. reflexivity.
Defined.

(** ** Files that are not valid UTF-8 *)

(** C25: an output file holding a byte that UTF-8 never uses ([C0], [C1]
    or [F5]..[FF]) anywhere, even past its first line, makes [read()]
    raise [UnicodeDecodeError]: nothing is printed, the output file is
    closed and the fragment file never opened. *)
Theorem invalid_output_file `{!PyInt.DecimalTable} fs argv p1 d a x b :
  argv !! 1 = Some p1 → fs !! p1 = Some (RegularFile d) →
  Byte.to_N <$> d = a ++ x :: b → (0xC0 ≤ x ≤ 0xC1 ∨ 0xF5 ≤ x)%N →
  run fs argv = (inl UnicodeDecodeError, World fs ∅ 1 []).
Proof.
  intros H1 Hp1 Hd Hx. unfold run, main. rewrite bind_unfold. unfold read_output, argv_get.
  rewrite H1. m_run. unfold py_open. cbn [initial_world w_fs]. rewrite Hp1. m_run.
  unfold close_after, py_read. cbn [w_files]. rewrite lookup_insert_eq.
  rewrite read_all_view. cbn [fo_stream]. rewrite view_open, Hd, utf8_never_byte by done.
  m_run. unfold set_files. cbn. by rewrite delete_insert_eq, delete_empty.
Qed.

Lemma invalid_output_file_witness :
  Byte.to_N <$> bytes_of (⟪"ab"⟫ ++ [0xFF; LF]%N) = ⟪"ab"⟫ ++ 0xFF%N :: [LF] ∧
  (0xC0 ≤ 0xFF ≤ 0xC1 ∨ 0xF5 ≤ 0xFF)%N ∧
  @run PyInt.unicode_decimal_table (two_files (⟪"ab"⟫ ++ [0xFF; LF]%N) (⟪"0"⟫ ++ [LF])) scenario_argv =
  (inl UnicodeDecodeError, World (two_files (⟪"ab"⟫ ++ [0xFF; LF]%N) (⟪"0"⟫ ++ [LF])) ∅ 1 []).
Proof.
  assert (Hd : Byte.to_N <$> bytes_of (⟪"ab"⟫ ++ [0xFF; LF]%N) = ⟪"ab"⟫ ++ 0xFF%N :: [LF])
    by (vm_compute; reflexivity).
  assert (Hx : (0xC0 ≤ 0xFF ≤ 0xC1 ∨ 0xF5 ≤ 0xFF)%N) by lia.
  split_and!; [exact Hd | exact Hx |].
  exact (@invalid_output_file PyInt.unicode_decimal_table
           (two_files (⟪"ab"⟫ ++ [0xFF; LF]%N) (⟪"0"⟫ ++ [LF])) scenario_argv ⟪"saida.txt"⟫
           (bytes_of (⟪"ab"⟫ ++ [0xFF; LF]%N)) ⟪"ab"⟫ 0xFF%N [LF]
           ltac:(reflexivity) ltac:(vm_compute; reflexivity) Hd Hx).
Defined.

(** C27: the UTF-8 codec keeps a byte order mark (U+FEFF) as a
    character, and U+FEFF is neither white space nor a digit for [int]: a
    fragment file saved with a byte order mark makes [int] of its first
    line raise [ValueError], whatever follows the mark; nothing is
    printed and both files are closed. *)
Theorem byte_order_mark_value_error fs argv p1 p2 d1 d2 out rest :
  argv !! 1 = Some p1 → argv !! 2 = Some p2 →
  fs !! p1 = Some (RegularFile d1) → utf8_decode true (Byte.to_N <$> d1) = Some (out, []) →
  out ≠ [] →
  fs !! p2 = Some (RegularFile d2) → Byte.to_N <$> d2 = [0xEF; 0xBB; 0xBF]%N ++ rest →
  is_Some (utf8_decode true rest) →
  @run PyInt.unicode_decimal_table fs argv = (inl ValueError, World fs ∅ 2 []).
Proof.
  intros H1 H2 Hp1 Hd1 Hout Hp2 Hd2 [[cs r] Hrest].
  pose proof (proj2 (proj2 (proj2 (Utf8.utf8_decode_shape _ _ _ _ Hrest))) eq_refl) as ->.
  rewrite (run_view _ _ p1 p2 d1 d2 out (0xFEFF%N :: cs)); [| done..|].
  - by rewrite line_split_bom, py_int_bom.
  - rewrite Hd2, (Utf8.utf8_decode_encode_app _ [0xFEFF%N]), Hrest; [done | | by vm_compute].
    apply Forall_singleton. unfold Utf8.py_char. lia.
Qed.

Lemma byte_order_mark_value_error_witness :
  @run PyInt.unicode_decimal_table
    (two_files (⟪"abc"⟫ ++ [LF]) ([0xEF; 0xBB; 0xBF]%N ++ ⟪"1"⟫ ++ [LF] ++ ⟪"ab"⟫ ++ [LF])) scenario_argv =
  (inl ValueError,
   World (two_files (⟪"abc"⟫ ++ [LF]) ([0xEF; 0xBB; 0xBF]%N ++ ⟪"1"⟫ ++ [LF] ++ ⟪"ab"⟫ ++ [LF])) ∅ 2 []).
Proof.
  apply (byte_order_mark_value_error _ _ ⟪"saida.txt"⟫ ⟪"entrada.txt"⟫
           (bytes_of (⟪"abc"⟫ ++ [LF]))
           (bytes_of ([0xEF; 0xBB; 0xBF]%N ++ ⟪"1"⟫ ++ [LF] ++ ⟪"ab"⟫ ++ [LF]))
           (⟪"abc"⟫ ++ [LF]) (⟪"1"⟫ ++ [LF] ++ ⟪"ab"⟫ ++ [LF])).
  - reflexivity.
  - reflexivity.
  - vm_compute. reflexivity.
  - vm_compute. reflexivity.
  - discriminate.
  - vm_compute. reflexivity.
  - vm_compute. reflexivity.
  - vm_compute. by eexists.
Defined.

End Checker.
